(** * photo-voice: a shallow embedding of the live audio client, the image
      edit service and the controller's edit history.

    The development follows the TypeScript sources:
    - [LiveClient] (services/liveClient.ts): PCM conversion, playback
      scheduling, inbound message handling, teardown;
    - [GeminiService] (services/geminiService.ts, two revisions): [editImage];
    - [App] (App.tsx): the edit-history handlers.

    Browser objects (AudioContext, MediaStream, typed arrays) and the
    ECMAScript number conversions are modelled after their standards, next
    to the code that uses them. *)

From Stdlib Require Import ZArith QArith Qround Qabs Qminmax Lqa Lia.
From Stdlib Require Import List String Ascii Bool.
Import ListNotations.

Local Open Scope Z_scope.

(* ===================================================================== *)
(** ** ECMAScript values *)
(* ===================================================================== *)

Module Js.

(** A Number.  Finite values are kept as exact rationals: every binary32 and
    binary64 value is a dyadic rational, and the arithmetic the sources do on
    audio samples (a binary32 sample times a 15 or 16 bit constant, an int16
    divided by 2^15) is exact in binary64, so no rounding is lost. *)
Inductive number : Type :=
| Fin (q : Q)
| PosInf
| NegInf
| NaN.

(** The binary32 value [m * 2^e]; a Float32Array element is of this form with
    [|m| < 2^24] and [-149 <= e <= 104]. *)
Definition binary32 (m e : Z) : number := Fin (inject_Z m * 2 ^ e)%Q.

(** [Math.min(a, b)] and [Math.max(a, b)]. *)
Definition Math_min (a b : number) : number :=
  match a, b with
  | NaN, _ | _, NaN => NaN
  | NegInf, _ | _, NegInf => NegInf
  | PosInf, x | x, PosInf => x
  | Fin p, Fin q => if Qle_bool p q then Fin p else Fin q
  end.

Definition Math_max (a b : number) : number :=
  match a, b with
  | NaN, _ | _, NaN => NaN
  | PosInf, _ | _, PosInf => PosInf
  | NegInf, x | x, NegInf => x
  | Fin p, Fin q => if Qle_bool p q then Fin q else Fin p
  end.

(** [a < b] on Numbers (false as soon as one side is NaN). *)
Definition lt (a b : number) : bool :=
  match a, b with
  | NaN, _ | _, NaN => false
  | _, NegInf => false
  | NegInf, _ => true
  | PosInf, _ => false
  | Fin _, PosInf => true
  | Fin p, Fin q => negb (Qle_bool q p)
  end.

(** The sign of a Number, for products with an infinity. *)
Definition sign (a : number) : option comparison :=
  match a with
  | NaN => None
  | PosInf => Some Gt
  | NegInf => Some Lt
  | Fin q => Some (q ?= 0)%Q
  end.

(** [a * b]. *)
Definition mul (a b : number) : number :=
  match a, b with
  | Fin p, Fin q => Fin (p * q)
  | _, _ =>
      match sign a, sign b with
      | Some Gt, Some Gt | Some Lt, Some Lt => PosInf
      | Some Gt, Some Lt | Some Lt, Some Gt => NegInf
      | _, _ => NaN
      end
  end.

(** [a + b]. *)
Definition add (a b : number) : number :=
  match a, b with
  | Fin p, Fin q => Fin (p + q)
  | NaN, _ | _, NaN => NaN
  | PosInf, NegInf | NegInf, PosInf => NaN
  | PosInf, _ | _, PosInf => PosInf
  | NegInf, _ | _, NegInf => NegInf
  end.

(** [truncate(x)]: the fractional part is dropped, rounding toward zero. *)
Definition truncate (q : Q) : Z :=
  if Qle_bool 0 q then Qfloor q else Qceiling q.

(** ToInt16: truncate, reduce modulo 2^16, read as two's complement.
    NaN and the infinities convert to 0. *)
Definition wrap16 (z : Z) : Z :=
  let m := z mod 65536 in
  if 32768 <=? m then m - 65536 else m.

Definition ToInt16 (x : number) : Z :=
  match x with
  | Fin q => wrap16 (truncate q)
  | _ => 0
  end.

(** [Math.round(x)] on a finite value: the nearest integer, ties toward
    positive infinity. *)
Definition Math_round (q : Q) : Z := Qfloor (q + (1 # 2))%Q.

(** Exceptions the modelled code can raise: [new Error(message)] of the
    sources, and the exceptions of the platform by name. *)
Inductive error : Type :=
| Error (message : string)
| TypeError
| RangeError
| InvalidStateError
| InvalidCharacterError
| NotSupportedError.

(** [error.message].  The text of a platform exception is implementation
    defined; its name stands for it. *)
Definition message (e : error) : string :=
  match e with
  | Error m => m
  | TypeError => "TypeError"
  | RangeError => "RangeError"
  | InvalidStateError => "InvalidStateError"
  | InvalidCharacterError => "InvalidCharacterError"
  | NotSupportedError => "NotSupportedError"
  end.

(** Values a tool handler can resolve with. *)
Inductive value : Type :=
| Undefined
| Null
| Boolean (b : bool)
| Number (x : number)
| String (s : string).

(** ToBoolean: what [v || d] tests. *)
Definition ToBoolean (v : value) : bool :=
  match v with
  | Undefined | Null => false
  | Boolean b => b
  | Number (Fin q) => negb (Qeq_bool q 0)
  | Number NaN => false
  | Number _ => true
  | String s => negb (String.eqb s EmptyString)
  end.

(** [v || d]. *)
Definition or_else (v d : value) : value :=
  if ToBoolean v then v else d.

(** Outcome of a call that may throw (or of an awaited promise). *)
Inductive completion (A : Type) : Type :=
| Normal (a : A)
| Throw (e : error).
Arguments Normal {A} a.
Arguments Throw {A} e.

End Js.

(* ===================================================================== *)
(** ** Typed arrays over an ArrayBuffer *)
(* ===================================================================== *)

Module TypedArray.

(** An ArrayBuffer is its list of bytes, each in [0, 256). *)
Definition ArrayBuffer := list Z.

(** The two bytes of an int16 element, little-endian two's complement (the
    byte order of every platform the browsers in question run on). *)
Definition int16_bytes (v : Z) : list Z :=
  let u := v mod 65536 in [u mod 256; u / 256].

(** [int16array.buffer]. *)
Definition Int16Array_buffer (xs : list Z) : ArrayBuffer :=
  flat_map int16_bytes xs.

(** The element read back from two bytes. *)
Definition int16_of_bytes (lo hi : Z) : Z :=
  Js.wrap16 (lo + 256 * hi).

Fixpoint int16_elements (bytes : ArrayBuffer) : option (list Z) :=
  match bytes with
  | [] => Some []
  | [_] => None
  | lo :: hi :: rest =>
      match int16_elements rest with
      | Some xs => Some (int16_of_bytes lo hi :: xs)
      | None => None
      end
  end.

(** [new Int16Array(buffer)]: a RangeError when the byte length is odd. *)
Definition Int16Array_of_buffer (buffer : ArrayBuffer)
  : Js.completion (list Z) :=
  match int16_elements buffer with
  | Some xs => Js.Normal xs
  | None => Js.Throw Js.RangeError
  end.

End TypedArray.

(* ===================================================================== *)
(** ** LiveClient: sample conversion *)
(* ===================================================================== *)

Module Pcm.
Import Js.

Definition x8000 : number := Fin 32768.
Definition x7FFF : number := Fin 32767.

(** One iteration of the loop of [floatTo16BitPCM]:
    [s = Math.max(-1, Math.min(1, input[i]));]
    [output[i] = s < 0 ? s * 0x8000 : s * 0x7FFF;]
    the store into the Int16Array applies ToInt16. *)
Definition floatTo16BitPCM_sample (x : number) : Z :=
  let s := Math_max (Fin (-1)) (Math_min (Fin 1) x) in
  ToInt16 (if lt s (Fin 0) then mul s x8000 else mul s x7FFF).

(** [floatTo16BitPCM(input: Float32Array)]: the Int16Array it returns. *)
Definition floatTo16BitPCM (input : list number) : list Z :=
  map floatTo16BitPCM_sample input.

(** [float32[i] = int16[i] / 32768.0]: the quotient has at most 16
    significant bits, so the store into the Float32Array is exact. *)
Definition pcm16ToFloat32_sample (v : Z) : number :=
  Fin (inject_Z v / 32768)%Q.

(** [pcm16ToFloat32(buffer: ArrayBuffer)]. *)
Definition pcm16ToFloat32 (buffer : TypedArray.ArrayBuffer)
  : completion (list number) :=
  match TypedArray.Int16Array_of_buffer buffer with
  | Normal int16 => Normal (map pcm16ToFloat32_sample int16)
  | Throw e => Throw e
  end.

(** The conversion as the specification words it: clamp, then round
    [x * 32767] when [x >= 0] and [x * 32768] when [x < 0]. *)
Definition spec_floatTo16BitPCM_sample (x : Q) : Z :=
  let s := Qmax (-1) (Qmin 1 x) in
  if Qle_bool 0 s then Math_round (s * 32767) else Math_round (s * 32768).

Definition spec_floatTo16BitPCM (input : list Q) : list Z :=
  map spec_floatTo16BitPCM_sample input.

End Pcm.


(* ===================================================================== *)
(** ** [atob]: forgiving base64 decoding *)
(* ===================================================================== *)

Module Base64.

Definition code (c : ascii) : Z := Z.of_N (N_of_ascii c).

Definition is_ascii_whitespace (c : ascii) : bool :=
  let n := code c in
  (n =? 9) || (n =? 10) || (n =? 12) || (n =? 13) || (n =? 32).

(** The value of a character of the base64 alphabet. *)
Definition sextet (c : ascii) : option Z :=
  let n := code c in
  if (65 <=? n) && (n <=? 90) then Some (n - 65)
  else if (97 <=? n) && (n <=? 122) then Some (n - 71)
  else if (48 <=? n) && (n <=? 57) then Some (n + 4)
  else if n =? 43 then Some 62
  else if n =? 47 then Some 63
  else None.

Fixpoint sextets (cs : list ascii) : option (list Z) :=
  match cs with
  | [] => Some []
  | c :: cs' =>
      match sextet c, sextets cs' with
      | Some v, Some vs => Some (v :: vs)
      | _, _ => None
      end
  end.

(** Four sextets give three bytes; a final group of two or three sextets
    gives one or two bytes, its spare bits dropped. *)
Fixpoint octets (vs : list Z) : list Z :=
  match vs with
  | a :: b :: c :: d :: rest =>
      (a * 4 + b / 16) :: ((b mod 16) * 16 + c / 4) :: ((c mod 4) * 64 + d)
        :: octets rest
  | [a; b; c] => [a * 4 + b / 16; (b mod 16) * 16 + c / 4]
  | [a; b] => [a * 4 + b / 16]
  | _ => []
  end.

(** One or two trailing [=] are removed when the length is a multiple
    of four. *)
Definition strip_padding (cs : list ascii) : list ascii :=
  if (Z.of_nat (List.length cs) mod 4 =? 0) then
    match rev cs with
    | "="%char :: "="%char :: r => rev r
    | "="%char :: r => rev r
    | _ => cs
    end
  else cs.

(** [atob(data)]: the binary string, or an InvalidCharacterError. *)
Definition atob (data : string) : Js.completion string :=
  let cs := filter (fun c => negb (is_ascii_whitespace c))
                   (list_ascii_of_string data) in
  let cs := strip_padding cs in
  if Z.of_nat (List.length cs) mod 4 =? 1 then Js.Throw Js.InvalidCharacterError
  else
    match sextets cs with
    | None => Js.Throw Js.InvalidCharacterError
    | Some vs =>
        Js.Normal (string_of_list_ascii
                     (map (fun b => ascii_of_N (Z.to_N b)) (octets vs)))
    end.

End Base64.

(* ===================================================================== *)
(** ** Messages of the live connection (the SDK's types) *)
(* ===================================================================== *)

Module Genai.

Record Blob : Type := mkBlob {
  data : option string;
  mimeType : option string }.

Record Part : Type := mkPart {
  inlineData : option Blob;
  text : option string }.

Record Content : Type := mkContent {
  parts : option (list Part) }.

Record Transcription : Type := mkTranscription {
  transcription_text : option string }.

Record ServerContent : Type := mkServerContent {
  modelTurn : option Content;
  inputTranscription : option Transcription;
  outputTranscription : option Transcription;
  turnComplete : option bool }.

Record FunctionCall : Type := mkFunctionCall {
  fc_id : option string;
  fc_name : option string;
  fc_args : list (string * Js.value) }.

Record ToolCall : Type := mkToolCall {
  functionCalls : option (list FunctionCall) }.

Record LiveServerMessage : Type := mkLiveServerMessage {
  serverContent : option ServerContent;
  toolCall : option ToolCall }.

(** [{ id, name, response: { result } }]. *)
Record FunctionResponse : Type := mkFunctionResponse {
  id : option string;
  name : option string;
  response_result : Js.value }.

End Genai.

(* ===================================================================== *)
(** ** The audio and media objects a client holds *)
(* ===================================================================== *)

Module WebAudio.

Inductive AudioContextState : Type := running | closed.

Record AudioContext : Type := mkAudioContext {
  sampleRate : Z;
  state : AudioContextState }.

(** [context.close()]: the returned promise rejects with an
    InvalidStateError when the context is closed already. *)
Definition close (ctx : AudioContext) : Js.completion AudioContext :=
  match state ctx with
  | closed => Js.Throw Js.InvalidStateError
  | running => Js.Normal (mkAudioContext (sampleRate ctx) closed)
  end.

Inductive TrackState : Type := live | ended.

(** A MediaStream is the list of its tracks. *)
Definition MediaStream := list TrackState.

(** [track.stop()] ends the track; on an ended track it does nothing. *)
Definition stop (t : TrackState) : TrackState := ended.

Record MediaStreamAudioSourceNode : Type := mkSourceNode {
  source_connected : bool }.

Record ScriptProcessorNode : Type := mkProcessorNode {
  processor_connected : bool;
  onaudioprocess : bool (* a callback is installed *) }.

End WebAudio.

(* ===================================================================== *)
(** ** LiveClient *)
(* ===================================================================== *)

Module LiveClient.
Import Js Genai WebAudio.

(** ['user' | 'model']. *)
Inductive Source : Type := user | model.

(** How the promise of [ai.live.connect] settles.  A callback handed to
    [sessionPromise.then] runs once the promise fulfils, in the order of the
    [then] calls, and never when it rejects. *)
Inductive Settlement : Type := Fulfils | Rejects.

(** The caller's callbacks.  What [onOpen], [onClose], [onAudioData],
    [onTranscription] and [onError] do is the caller's business: the model
    records whether each is there and logs its invocations.  [onToolCall] is
    awaited, so its outcome matters too: each of its invocations is logged,
    and it resolves with a value or rejects. *)
Record LiveClientConfig : Type := mkConfig {
  onOpen : bool;
  onClose : bool;
  onAudioData : bool;
  onToolCall : option (FunctionCall -> completion value);
  onTranscription : bool;
  onError : bool }.

(** The private fields of the class. *)
Record t : Type := mkClient {
  sessionPromise : option Settlement;
  inputAudioContext : option AudioContext;
  outputAudioContext : option AudioContext;
  inputSource : option MediaStreamAudioSourceNode;
  processor : option ScriptProcessorNode;
  nextStartTime : Q;
  config : LiveClientConfig;
  stream : option MediaStream;
  currentInputText : string;
  currentOutputText : string }.

(** [new LiveClient(config)]. *)
Definition new (config : LiveClientConfig) : t :=
  mkClient None None None None None 0 config None "" "".

(** What a method does to the world outside the object. *)
Inductive Effect : Type :=
| CallOnOpen
| CallOnClose
| CallOnError (message : string)
| CallOnTranscription (text : string) (source : Source) (isFinal : bool)
| SourceStart (when duration : Q)
| CallOnToolCall (fc : FunctionCall)
| SendToolResponse (functionResponses : list FunctionResponse).

(** A method body: it reads and writes the fields, logs effects, and
    completes normally or by an exception.  Fields written and effects logged
    before an exception stay. *)
Definition M (A : Type) : Type := t -> completion A * t * list Effect.

Definition ret {A} (a : A) : M A := fun c => (Normal a, c, []).

Definition bind {A B} (m : M A) (k : A -> M B) : M B :=
  fun c =>
    match m c with
    | (Normal a, c1, tr1) =>
        match k a c1 with
        | (r, c2, tr2) => (r, c2, tr1 ++ tr2)
        end
    | (Throw e, c1, tr1) => (Throw e, c1, tr1)
    end.

Definition throw {A} (e : error) : M A := fun c => (Throw e, c, []).
Definition get : M t := fun c => (Normal c, c, []).
Definition put (c : t) : M unit := fun _ => (Normal tt, c, []).
Definition modify (f : t -> t) : M unit := fun c => (Normal tt, f c, []).
Definition emit (ev : Effect) : M unit := fun c => (Normal tt, c, [ev]).

Definition lift {A} (r : completion A) : M A :=
  match r with
  | Normal a => ret a
  | Throw e => throw e
  end.

(** [if (b) body]. *)
Definition when (b : bool) (body : M unit) : M unit :=
  if b then body else ret tt.

Declare Scope live_scope.
Delimit Scope live_scope with live.
Notation "x <- m ;; k" := (bind m (fun x => k))
  (at level 61, m at next level, right associativity) : live_scope.
Notation "m ;; k" := (bind m (fun _ => k))
  (at level 61, right associativity) : live_scope.
Local Open Scope live_scope.

(** Field assignments: [this.field = v]. *)
Definition with_sessionPromise (v : option Settlement) (c : t) : t :=
  mkClient v (inputAudioContext c) (outputAudioContext c)
    (inputSource c) (processor c) (nextStartTime c) (config c)
    (stream c) (currentInputText c) (currentOutputText c).

Definition set_sessionPromise (v : option Settlement) : M unit :=
  modify (with_sessionPromise v).

Definition with_inputAudioContext (v : option AudioContext) (c : t) : t :=
  mkClient (sessionPromise c) v (outputAudioContext c)
    (inputSource c) (processor c) (nextStartTime c) (config c)
    (stream c) (currentInputText c) (currentOutputText c).

Definition set_inputAudioContext (v : option AudioContext) : M unit :=
  modify (with_inputAudioContext v).

Definition with_outputAudioContext (v : option AudioContext) (c : t) : t :=
  mkClient (sessionPromise c) (inputAudioContext c) v
    (inputSource c) (processor c) (nextStartTime c) (config c)
    (stream c) (currentInputText c) (currentOutputText c).

Definition set_outputAudioContext (v : option AudioContext) : M unit :=
  modify (with_outputAudioContext v).

Definition with_inputSource (v : option MediaStreamAudioSourceNode) (c : t) : t :=
  mkClient (sessionPromise c) (inputAudioContext c)
    (outputAudioContext c) v (processor c) (nextStartTime c)
    (config c) (stream c) (currentInputText c)
    (currentOutputText c).

Definition set_inputSource (v : option MediaStreamAudioSourceNode) : M unit :=
  modify (with_inputSource v).

Definition with_processor (v : option ScriptProcessorNode) (c : t) : t :=
  mkClient (sessionPromise c) (inputAudioContext c)
    (outputAudioContext c) (inputSource c) v (nextStartTime c)
    (config c) (stream c) (currentInputText c)
    (currentOutputText c).

Definition set_processor (v : option ScriptProcessorNode) : M unit :=
  modify (with_processor v).

Definition with_nextStartTime (v : Q) (c : t) : t :=
  mkClient (sessionPromise c) (inputAudioContext c)
    (outputAudioContext c) (inputSource c) (processor c) v
    (config c) (stream c) (currentInputText c)
    (currentOutputText c).

Definition set_nextStartTime (v : Q) : M unit :=
  modify (with_nextStartTime v).

Definition with_stream (v : option MediaStream) (c : t) : t :=
  mkClient (sessionPromise c) (inputAudioContext c)
    (outputAudioContext c) (inputSource c) (processor c)
    (nextStartTime c) (config c) v (currentInputText c)
    (currentOutputText c).

Definition set_stream (v : option MediaStream) : M unit :=
  modify (with_stream v).

Definition with_currentInputText (v : string) (c : t) : t :=
  mkClient (sessionPromise c) (inputAudioContext c)
    (outputAudioContext c) (inputSource c) (processor c)
    (nextStartTime c) (config c) (stream c) v
    (currentOutputText c).

Definition set_currentInputText (v : string) : M unit :=
  modify (with_currentInputText v).

Definition with_currentOutputText (v : string) (c : t) : t :=
  mkClient (sessionPromise c) (inputAudioContext c)
    (outputAudioContext c) (inputSource c) (processor c)
    (nextStartTime c) (config c) (stream c) (currentInputText c)
    v.

Definition set_currentOutputText (v : string) : M unit :=
  modify (with_currentOutputText v).

(** [this.config.onTranscription?.(text, source, isFinal)] and the other
    optional calls. *)
Definition call_onTranscription (text : string) (source : Source)
    (isFinal : bool) : M unit :=
  c <- get ;;
  when (onTranscription (config c)) (emit (CallOnTranscription text source isFinal)).

Definition call_onOpen : M unit :=
  c <- get ;; when (onOpen (config c)) (emit CallOnOpen).

Definition call_onError (message : string) : M unit :=
  c <- get ;; when (onError (config c)) (emit (CallOnError message)).

(** *** Utils *)

(** [base64ToArrayBuffer(base64)]: the char codes of [atob(base64)]. *)
Definition base64ToArrayBuffer (base64 : string)
  : completion TypedArray.ArrayBuffer :=
  match Base64.atob base64 with
  | Normal binaryString =>
      Normal (map Base64.code (list_ascii_of_string binaryString))
  | Throw e => Throw e
  end.

(** An AudioBuffer of one channel. *)
Record AudioBuffer : Type := mkAudioBuffer {
  buffer_length : nat;
  buffer_sampleRate : Z }.

(** [buffer.duration], in seconds. *)
Definition duration (b : AudioBuffer) : Q :=
  (inject_Z (Z.of_nat (buffer_length b)) / inject_Z (buffer_sampleRate b))%Q.

(** [context.createBuffer(1, length, sampleRate)]: a NotSupportedError when
    the buffer would have no frame. *)
Definition createBuffer (length : nat) (sampleRate : Z)
  : completion AudioBuffer :=
  match length with
  | O => Throw NotSupportedError
  | _ => Normal (mkAudioBuffer length sampleRate)
  end.

(** *** playAudio

    [currentTime] is the reading of [outputAudioContext.currentTime] the
    method makes.  Times are finite and kept as exact rationals. *)
Definition playAudio (currentTime : Q) (base64String : string) : M unit :=
  c <- get ;;
  match outputAudioContext c with
  | None => ret tt
  | Some _ =>
      audioData <- lift (base64ToArrayBuffer base64String) ;;
      float32Data <- lift (Pcm.pcm16ToFloat32 audioData) ;;
      buffer <- lift (createBuffer (List.length float32Data) 24000) ;;
      (* Scheduling *)
      c <- get ;;
      when (negb (Qle_bool currentTime (nextStartTime c)))
           (set_nextStartTime currentTime) ;;
      c <- get ;;
      emit (SourceStart (nextStartTime c) (duration buffer)) ;;
      set_nextStartTime (nextStartTime c + duration buffer)%Q
  end.

(** *** The message handler *)

(** [message.serverContent?.modelTurn?.parts?.[0]?.inlineData?.data]. *)
Definition audioData_of (message : LiveServerMessage) : option string :=
  match serverContent message with
  | None => None
  | Some sc =>
      match modelTurn sc with
      | None => None
      | Some turn =>
          match parts turn with
          | Some (part :: _) =>
              match inlineData part with
              | Some blob => data blob
              | None => None
              end
          | _ => None
          end
      end
  end.

(** [acc += text]: an absent text is appended as ["undefined"]. *)
Definition append_text (acc : string) (text : option string) : string :=
  match text with
  | Some s => acc ++ s
  | None => acc ++ "undefined"
  end.

(** The loop over [message.toolCall.functionCalls]; [responses] is the array
    built so far.  Each invocation goes to [onToolCall], when there is one,
    and its outcome is awaited.  A handler that rejects ends the loop, and
    the handler of the message with it. *)
Fixpoint run_functionCalls (fcs : list FunctionCall)
    (responses : list FunctionResponse) : M (list FunctionResponse) :=
  match fcs with
  | [] => ret responses
  | fc :: rest =>
      c <- get ;;
      match onToolCall (config c) with
      | Some handler =>
          (* Execute the tool locally *)
          emit (CallOnToolCall fc) ;;
          result <- lift (handler fc) ;;
          run_functionCalls rest
            (responses ++
               [mkFunctionResponse (fc_id fc) (fc_name fc)
                  (or_else result (String "success"))])
      | None => run_functionCalls rest responses
      end
  end.

(** [onmessage: async (message) => ...].  One run of the handler, the awaits
    of the tool handler included. *)
Definition onmessage (currentTime : Q) (message : LiveServerMessage)
  : M unit :=
  (* Handle Audio Output *)
  match audioData_of message with
  | Some audioData =>
      when (negb (String.eqb audioData "")) (playAudio currentTime audioData)
  | None => ret tt
  end ;;
  (* Handle Transcription *)
  match option_map inputTranscription (serverContent message) with
  | Some (Some tr) =>
      c <- get ;;
      set_currentInputText
        (append_text (currentInputText c) (transcription_text tr)) ;;
      c <- get ;;
      call_onTranscription (currentInputText c) user false
  | _ => ret tt
  end ;;
  match option_map outputTranscription (serverContent message) with
  | Some (Some tr) =>
      c <- get ;;
      set_currentOutputText
        (append_text (currentOutputText c) (transcription_text tr)) ;;
      c <- get ;;
      call_onTranscription (currentOutputText c) model false
  | _ => ret tt
  end ;;
  match option_map turnComplete (serverContent message) with
  | Some (Some true) =>
      c <- get ;;
      call_onTranscription (currentOutputText c) model true ;;
      set_currentInputText "" ;;
      set_currentOutputText ""
  | _ => ret tt
  end ;;
  (* Handle Tool Calls *)
  match toolCall message with
  | Some tc =>
      match functionCalls tc with
      | None => throw TypeError
      | Some fcs =>
          responses <- run_functionCalls fcs [] ;;
          (* Send Tool Response back to model *)
          c <- get ;;
          match sessionPromise c with
          | Some Fulfils => emit (SendToolResponse responses)
          | _ => ret tt
          end
      end
  | None => ret tt
  end.

(** The messages of a connection, handled in arrival order, each with the
    clock reading of its handler.  A handler that rejects does not stop the
    ones after it. *)
Fixpoint onmessages (inbound : list (Q * LiveServerMessage)) (c : t)
  : t * list Effect :=
  match inbound with
  | [] => (c, [])
  | (now, message) :: rest =>
      match onmessage now message c with
      | (_, c1, tr1) =>
          match onmessages rest c1 with
          | (c2, tr2) => (c2, tr1 ++ tr2)
          end
      end
  end.

(** *** connect, the capture pipeline, disconnect *)

(** [apiKey || process.env.API_KEY]. *)
Definition first_truthy (a b : option string) : option string :=
  match a with
  | Some s => if String.eqb s "" then b else a
  | None => b
  end.

Definition is_truthy (a : option string) : bool :=
  match a with
  | Some s => negb (String.eqb s "")
  | None => false
  end.

(** [connect(apiKey)]; [settles] tells how the promise of [ai.live.connect]
    settles. *)
Definition connect (apiKey env_API_KEY : option string)
    (settles : Settlement) : M unit :=
  let key := first_truthy apiKey env_API_KEY in
  if negb (is_truthy key) then throw (Error "API Key is missing.")
  else
    set_inputAudioContext (Some (mkAudioContext 16000 running)) ;;
    set_outputAudioContext (Some (mkAudioContext 24000 running)) ;;
    set_sessionPromise (Some settles).

(** [startAudioInput()]; [userMedia] is the outcome of [getUserMedia]. *)
Definition startAudioInput (userMedia : completion MediaStream) : M unit :=
  c <- get ;;
  match inputAudioContext c with
  | None => ret tt
  | Some _ =>
      match userMedia with
      | Normal media =>
          set_stream (Some media) ;;
          set_inputSource (Some (mkSourceNode false)) ;;
          set_processor (Some (mkProcessorNode false false)) ;;
          set_processor (Some (mkProcessorNode false true)) ;;
          set_inputSource (Some (mkSourceNode true)) ;;
          set_processor (Some (mkProcessorNode true true))
      | Throw _ => call_onError "Microphone access denied"
      end
  end.

(** [onopen]: the capture pipeline is started (it suspends on
    [getUserMedia] and goes on after the callback), [onOpen] is called. *)
Definition onopen (userMedia : completion MediaStream) : M unit :=
  call_onOpen ;;
  startAudioInput userMedia.

(** [disconnect()]. *)
Definition disconnect : M unit :=
  c <- get ;;
  match stream c with
  | Some media => set_stream (Some (map stop media))
  | None => ret tt
  end ;;
  match processor c with
  | Some _ => set_processor (Some (mkProcessorNode false false))
  | None => ret tt
  end ;;
  match inputSource c with
  | Some _ => set_inputSource (Some (mkSourceNode false))
  | None => ret tt
  end ;;
  match inputAudioContext c with
  | Some ctx =>
      ctx' <- lift (close ctx) ;; set_inputAudioContext (Some ctx')
  | None => ret tt
  end ;;
  match outputAudioContext c with
  | Some ctx =>
      ctx' <- lift (close ctx) ;; set_outputAudioContext (Some ctx')
  | None => ret tt
  end ;;
  (* logic relies on dropping ref *)
  set_sessionPromise None ;;
  (* Reset buffers *)
  set_currentInputText "" ;;
  set_currentOutputText "".

(** No device or track of the client is active. *)
Definition context_closed (o : option AudioContext) : bool :=
  match o with
  | Some ctx => match state ctx with closed => true | running => false end
  | None => true
  end.

Definition track_ended (s : TrackState) : bool :=
  match s with ended => true | live => false end.

Definition torn_down (c : t) : bool :=
  match stream c with Some media => forallb track_ended media | None => true end
  && match processor c with
     | Some p => negb (processor_connected p) && negb (onaudioprocess p)
     | None => true
     end
  && match inputSource c with
     | Some n => negb (source_connected n)
     | None => true
     end
  && context_closed (inputAudioContext c)
  && context_closed (outputAudioContext c)
  && match sessionPromise c with None => true | Some _ => false end
  && String.eqb (currentInputText c) ""
  && String.eqb (currentOutputText c) "".

End LiveClient.

(* ===================================================================== *)
(** ** The image edit service *)
(* ===================================================================== *)

Module Text.

Local Open Scope string_scope.

(** [s.split(sep)] for a one character separator. *)
Fixpoint split_from (sep : ascii) (s cur : string) : list string :=
  match s with
  | EmptyString => [cur]
  | String c rest =>
      if Ascii.eqb c sep then cur :: split_from sep rest ""
      else split_from sep rest (cur ++ String c "")
  end.

Definition split (sep : ascii) (s : string) : list string :=
  split_from sep s "".

(** [base64Image.split(',')[1] || base64Image]. *)
Definition after_comma (base64Image : string) : string :=
  match nth_error (split "," base64Image) 1 with
  | Some piece => if String.eqb piece "" then base64Image else piece
  | None => base64Image
  end.

Definition between (lo hi : Z) (c : ascii) : bool :=
  let n := Base64.code c in ((lo <=? n) && (n <=? hi))%Z.

(** [[a-zA-Z0-9]] and [[a-zA-Z0-9-.+]]. *)
Definition is_alnum (c : ascii) : bool :=
  between 97 122 c || between 65 90 c || between 48 57 c.

Definition is_subtype_char (c : ascii) : bool :=
  is_alnum c || Ascii.eqb c "-" || Ascii.eqb c "." || Ascii.eqb c "+".

(** The longest prefix of characters of a class, and the rest. *)
Fixpoint span (p : ascii -> bool) (s : string) : string * string :=
  match s with
  | EmptyString => ("", "")
  | String c rest =>
      if p c then let (a, b) := span p rest in (String c a, b)
      else ("", s)
  end.

Definition drop_prefix (pre s : string) : option string :=
  if prefix pre s
  then Some (substring (String.length pre)
                       (String.length s - String.length pre)%nat s)
  else None.

(** Group 1 of [/^data:([a-zA-Z0-9]+\/[a-zA-Z0-9-.+]+);base64,/].  Neither
    class has the character that follows it, so the greedy match is the
    only one. *)
Definition match_mimeType (base64Image : string) : option string :=
  match drop_prefix "data:" base64Image with
  | None => None
  | Some r =>
      let (type, r1) := span is_alnum r in
      match r1 with
      | String "/" r2 =>
          let (subtype, r3) := span is_subtype_char r2 in
          if String.eqb type "" || String.eqb subtype "" then None
          else if prefix ";base64," r3 then Some (type ++ "/" ++ subtype)
          else None
      | _ => None
      end
  end.

End Text.

Module GeminiApi.
Import Js Genai.

Local Open Scope string_scope.

Record Candidate : Type := mkCandidate {
  finishReason : option string;
  content : option Content }.

Record GenerateContentResponse : Type := mkResponse {
  candidates : option (list Candidate) }.

(** The request [editImage] builds: one content of an image part and a text
    part, for an image answer. *)
Record Request : Type := mkRequest {
  request_model : string;
  request_data : string;
  request_mimeType : string;
  request_text : string }.

(** [new GoogleGenAI({ apiKey }).models.generateContent(request)], awaited:
    the response, or the rejection of the call. *)
Definition Remote : Type :=
  option string -> Request -> completion GenerateContentResponse.

Definition build_request (base64Image prompt : string) : Request :=
  let base64Data := Text.after_comma base64Image in
  let mimeType :=
    match Text.match_mimeType base64Image with
    | Some m => m
    | None => "image/jpeg"
    end in
  mkRequest "gemini-2.5-flash-image" base64Data mimeType prompt.

(** [`${x}`] of a string that may be undefined. *)
Definition interpolate (x : option string) : string :=
  match x with
  | Some s => s
  | None => "undefined"
  end.

(** [for (const part of parts) if (part.inlineData) return ...]. *)
Fixpoint first_inlineData (ps : list Part) : option Blob :=
  match ps with
  | [] => None
  | part :: rest =>
      match inlineData part with
      | Some blob => Some blob
      | None => first_inlineData rest
      end
  end.

(** [!candidate.content?.parts?.length]. *)
Definition no_parts (c : Candidate) : bool :=
  match content c with
  | None => true
  | Some ct =>
      match parts ct with
      | None | Some [] => true
      | Some (_ :: _) => false
      end
  end.

(** What both revisions of [editImage] do with the response, from
    [const candidate = response.candidates?.[0]] on. *)
Definition image_of_response (response : GenerateContentResponse)
  : completion string :=
  match candidates response with
  | None | Some [] => Throw (Error "No candidates returned from Gemini API.")
  | Some (candidate :: _) =>
      let refused :=
        match finishReason candidate with
        | Some reason =>
            negb (String.eqb reason "") && negb (String.eqb reason "STOP")
            && no_parts candidate
        | None => false
        end in
      if refused then
        Throw (Error ("Gemini refused to generate content. Reason: "
                        ++ interpolate (finishReason candidate)))
      else
        match option_map parts (content candidate) with
        | Some (Some (part :: rest)) =>
            match first_inlineData (part :: rest) with
            | Some blob =>
                Normal ("data:image/png;base64," ++ interpolate (data blob))
            | None => Throw (Error "No image data found in response.")
            end
        | _ => Throw (Error "No content generated from Gemini (empty parts).")
        end
  end.

End GeminiApi.

(** services/geminiService.ts, as imported by App.tsx: the key is taken from
    the environment and handed to the SDK unchecked. *)
Module GeminiService.
Import Js GeminiApi.

Definition editImage (env_API_KEY : option string) (remote : Remote)
    (base64Image prompt : string) : completion string :=
  match remote env_API_KEY (build_request base64Image prompt) with
  | Normal response => image_of_response response
  | Throw error => Throw error
  end.

End GeminiService.

(** The revision of the service that takes the key as a third argument. *)
Module GeminiServiceKeyed.
Import Js GeminiApi.

Local Open Scope string_scope.

Definition editImage (env_API_KEY : option string) (remote : Remote)
    (base64Image prompt : string) (apiKey : option string)
  : completion string :=
  let key := LiveClient.first_truthy apiKey env_API_KEY in
  if negb (LiveClient.is_truthy key) then
    Throw (Error "API Key is missing. Please provide a valid Gemini API Key in settings.")
  else
    match remote key (build_request base64Image prompt) with
    | Normal response => image_of_response response
    | Throw error => Throw error
    end.

End GeminiServiceKeyed.

(* ===================================================================== *)
(** ** The controller: edit history *)
(* ===================================================================== *)

Module App.
Import Js.

Local Open Scope string_scope.

Inductive AppState : Type := IDLE | ANALYZING | PROCESSING | COMPLETE | ERROR.

Record ImageHistoryItem : Type := mkItem {
  id : string;
  url : string;
  prompt : string;
  timestamp : Z }.

Inductive LogType : Type := info | warning | success | error.

Record LogEntry : Type := mkLog {
  log_id : string;
  log_message : string;
  log_type : LogType;
  log_timestamp : string }.

Inductive Language : Type := am | en.

(** The state variables of the component the handlers touch, and the timers
    they leave pending. *)
Record State : Type := mkState {
  currentImage : option string;
  promptText : string;
  appState : AppState;
  logs : list LogEntry;
  history : list ImageHistoryItem;
  historyIndex : Z;
  language : Language;
  timeouts : list (Z * AppState) }.

(** [useState] initial values. *)
Definition initial : State :=
  mkState None "" IDLE [] [] (-1) am [].

(** What a handler draws from outside: [Math.random().toString(36)] pieces,
    [Date.now()] and the clock label of a log line. *)
Record Ambient : Type := mkAmbient {
  random_id : string;
  random_log_id : string;
  now : Z;
  time_label : string }.

(** State setters. *)
Definition setCurrentImage (v : option string) (s : State) : State :=
  mkState v (promptText s) (appState s) (logs s) (history s)
    (historyIndex s) (language s) (timeouts s).

Definition setAppState (v : AppState) (s : State) : State :=
  mkState (currentImage s) (promptText s) v (logs s) (history s)
    (historyIndex s) (language s) (timeouts s).

Definition setLogs (f : list LogEntry -> list LogEntry) (s : State) : State :=
  mkState (currentImage s) (promptText s) (appState s) (f (logs s))
    (history s) (historyIndex s) (language s) (timeouts s).

Definition setHistory (f : list ImageHistoryItem -> list ImageHistoryItem)
    (s : State) : State :=
  mkState (currentImage s) (promptText s) (appState s) (logs s)
    (f (history s)) (historyIndex s) (language s) (timeouts s).

Definition setHistoryIndex (f : Z -> Z) (s : State) : State :=
  mkState (currentImage s) (promptText s) (appState s) (logs s) (history s)
    (f (historyIndex s)) (language s) (timeouts s).

Definition setTimeout (delay : Z) (v : AppState) (s : State) : State :=
  mkState (currentImage s) (promptText s) (appState s) (logs s) (history s)
    (historyIndex s) (language s) (timeouts s ++ [(delay, v)])%list.

(** [addLog(message, type)]: newest first, fifty kept. *)
Definition addLog (w : Ambient) (message : string) (type : LogType)
    (s : State) : State :=
  let entry := mkLog (random_log_id w) message type (time_label w) in
  setLogs (fun prev => firstn 50 (entry :: prev)) s.

(** [array.slice(0, end)]. *)
Definition slice0 {A} (l : list A) (stop : Z) : list A :=
  let len := Z.of_nat (List.length l) in
  let k := if (stop <? 0)%Z then Z.max (len + stop) 0 else Z.min stop len in
  firstn (Z.to_nat k) l.

(** [array[i]]: undefined out of range. *)
Definition index {A} (l : list A) (i : Z) : option A :=
  if (i <? 0)%Z then None else nth_error l (Z.to_nat i).

(** [reader.onload] of [handleImageSelected]; [result] is the data URL read
    from the file. *)
Definition handleImageSelected (w : Ambient) (render : State)
    (fileName result : string) (s : State) : State :=
  let s := setCurrentImage (Some result) s in
  let label :=
    match language render with
    | am => "የመጀመሪያ ምስል"
    | en => "Original Image"
    end in
  let s := setHistory (fun _ => [mkItem "original" result label (now w)]) s in
  let s := setHistoryIndex (fun _ => 0) s in
  addLog w ("ተጭኗል: " ++ fileName) success s.

(** [handleExternalEdit(img, txt)], from the point where the awaited
    [editImage(img, txt)] has settled with [outcome].  [render] is the render
    whose [historyIndex] the function closed over; [s] is the state the
    updates are applied to. *)
Definition handleExternalEdit_settled (w : Ambient) (render : State)
    (txt : string) (outcome : completion string) (s : State)
  : State * string :=
  match outcome with
  | Normal enhancedImage =>
      let s := setCurrentImage (Some enhancedImage) s in
      let newItem := mkItem (random_id w) enhancedImage txt (now w) in
      let s :=
        setHistory
          (fun prev =>
             (* remove any "redo" paths *)
             let newHistory := slice0 prev (historyIndex render + 1) in
             (newHistory ++ [newItem])%list) s in
      let s := setHistoryIndex (fun prev => prev + 1) s in
      let s := addLog w "ማሻሻያው ተጠናቅቋል" success s in
      let s := setAppState IDLE s in
      (s, "Image edited successfully")
  | Throw err =>
      let text := if String.eqb (message err) "" then "Edit Failed"
                  else message err in
      let s := addLog w text error s in
      let s := setAppState ERROR s in
      let s := setTimeout 2000 IDLE s in
      (s, "Failed to edit image")
  end.

(** [handleExternalEdit(img, txt)] with nothing else happening while the
    request is in flight. *)
Definition handleExternalEdit (w : Ambient) (env_API_KEY : option string)
    (remote : GeminiApi.Remote) (render : State) (img txt : string)
    (s : State) : State * string :=
  let s := setAppState ANALYZING s in
  handleExternalEdit_settled w render txt
    (GeminiService.editImage env_API_KEY remote img txt) s.

(** [handleUndo] and [handleRedo]: both read [historyIndex] and [history]
    of their render.  Reading [.url] of an absent item is a TypeError, raised
    after [setHistoryIndex] was called, so the new index stays. *)
Definition handleUndo (w : Ambient) (render : State) (s : State)
  : completion unit * State :=
  if (0 <? historyIndex render)%Z then
    let newIndex := historyIndex render - 1 in
    let s := setHistoryIndex (fun _ => newIndex) s in
    match index (history render) newIndex with
    | Some item =>
        let s := setCurrentImage (Some (url item)) s in
        (Normal tt, addLog w "ወደ ቀድሞው ተመልሷል" warning s)
    | None => (Throw TypeError, s)
    end
  else (Normal tt, s).

Definition handleRedo (w : Ambient) (render : State) (s : State)
  : completion unit * State :=
  if (historyIndex render <? Z.of_nat (List.length (history render)) - 1)%Z then
    let newIndex := historyIndex render + 1 in
    let s := setHistoryIndex (fun _ => newIndex) s in
    match index (history render) newIndex with
    | Some item =>
        let s := setCurrentImage (Some (url item)) s in
        (Normal tt, addLog w "ወደ ፊት ተሂዷል" success s)
    | None => (Throw TypeError, s)
    end
  else (Normal tt, s).

End App.

(* ===================================================================== *)
(** ** [btoa], and the capture side of LiveClient *)
(* ===================================================================== *)

Module Base64Encoding.

(** The character of the base64 alphabet for a six bit value. *)
Definition digit (v : Z) : ascii :=
  ascii_of_N
    (Z.to_N (if v <? 26 then v + 65
             else if v <? 52 then v + 71
             else if v <? 62 then v - 4
             else if v =? 62 then 43
             else 47)).

(** Three bytes give four characters; a last group of one or two bytes is
    padded with [=]. *)
Fixpoint encode (bs : list Z) : list ascii :=
  match bs with
  | a :: b :: c :: rest =>
      digit (a / 4) :: digit ((a mod 4) * 16 + b / 16)
        :: digit ((b mod 16) * 4 + c / 64) :: digit (c mod 64) :: encode rest
  | [a; b] =>
      [digit (a / 4); digit ((a mod 4) * 16 + b / 16);
       digit ((b mod 16) * 4); "="%char]
  | [a] => [digit (a / 4); digit ((a mod 4) * 16); "="%char; "="%char]
  | [] => []
  end.

(** [btoa(binary)].  It raises an InvalidCharacterError on a character above
    255; the strings here are of eight bit characters, so it never does. *)
Definition btoa (binary : string) : string :=
  string_of_list_ascii
    (encode (map Base64.code (list_ascii_of_string binary))).

End Base64Encoding.

Module LiveCapture.
Import Js LiveClient.

Local Open Scope string_scope.

(** [String.fromCharCode(b)] for an element of a Uint8Array. *)
Definition fromCharCode (b : Z) : ascii := ascii_of_N (Z.to_N b).

(** [arrayBufferToBase64(buffer)]: the bytes as a binary string, through
    [btoa]. *)
Definition arrayBufferToBase64 (buffer : TypedArray.ArrayBuffer) : string :=
  let binary := string_of_list_ascii (map fromCharCode buffer) in
  Base64Encoding.btoa binary.

(** What the capture callback and [sendImageFrame] do outside the object;
    neither writes a field. *)
Inductive Outbound : Type :=
| CallOnAudioData (data : list Z)
| SendRealtimeInput (mimeType data : string).

(** [session.sendRealtimeInput({ media })] handed to [sessionPromise?.then]:
    it runs, later, when the promise is there and fulfils. *)
Definition then_sendRealtimeInput (mimeType data : string) (c : t)
  : list Outbound :=
  match sessionPromise c with
  | Some Fulfils => [SendRealtimeInput mimeType data]
  | _ => []
  end.

(** [processor.onaudioprocess = (e) => ...] on a block of samples.  The
    visualization callback is called in the callback itself, the send runs
    after it, as a continuation of the promise. *)
Definition onaudioprocess (inputData : list number) (c : t) : list Outbound :=
  let pcmData := Pcm.floatTo16BitPCM inputData in
  let base64Data :=
    arrayBufferToBase64 (TypedArray.Int16Array_buffer pcmData) in
  ((if onAudioData (config c)
    then [CallOnAudioData (TypedArray.Int16Array_buffer pcmData)]
    else [])
   ++ then_sendRealtimeInput "audio/pcm;rate=16000" base64Data c)%list.

(** [sendImageFrame(base64Image)]. *)
Definition sendImageFrame (base64Image : string) (c : t) : list Outbound :=
  match sessionPromise c with
  | None => []
  | Some _ =>
      (* Remove header if present *)
      let base64Data := Text.after_comma base64Image in
      then_sendRealtimeInput "image/jpeg" base64Data c
  end.

End LiveCapture.

(* ===================================================================== *)
(** ** Vocabulary of the statements *)
(* ===================================================================== *)

Section SampleVocabulary.
Local Open Scope Q_scope.

(** [z] is [v] with its fractional part dropped. *)
Definition truncation_of (v : Q) (z : Z) : Prop :=
  (0 <= v -> inject_Z z <= v /\ v < inject_Z z + 1) /\
  (v <= 0 -> inject_Z z - 1 < v /\ v <= inject_Z z).

(** [x] clamped to [[-1, 1]], and the clamped sample times its scale. *)
Definition clamp (x : Q) : Q := Qmax (-1) (Qmin 1 x).

Definition scaled (x : Q) : Q :=
  if Qle_bool 0 (clamp x) then clamp x * 32767 else clamp x * 32768.

(** What an element of the output is, for each kind of sample. *)
Definition pcm_of (x : Js.number) (z : Z) : Prop :=
  match x with
  | Js.Fin q => truncation_of (scaled q) z
  | Js.PosInf => z = 32767%Z
  | Js.NegInf => z = (-32768)%Z
  | Js.NaN => z = 0%Z
  end.

(** A finite sample of [[-1, 1]]. *)
Definition in_unit (x : Js.number) : Prop :=
  match x with
  | Js.Fin q => -1 <= q <= 1
  | _ => False
  end.

(** Two finite samples at most, or less than, [bound] apart. *)
Definition within (bound : Q) (x y : Js.number) : Prop :=
  match x, y with
  | Js.Fin p, Js.Fin q => Qabs (q - p) <= bound
  | _, _ => False
  end.

Definition closer_than (bound : Q) (x y : Js.number) : Prop :=
  match x, y with
  | Js.Fin p, Js.Fin q => Qabs (q - p) < bound
  | _, _ => False
  end.

(** Capture conversion followed by playback conversion, through the buffer
    of the Int16Array. *)
Definition roundtrip (input : list Js.number)
  : Js.completion (list Js.number) :=
  Pcm.pcm16ToFloat32 (TypedArray.Int16Array_buffer (Pcm.floatTo16BitPCM input)).

End SampleVocabulary.

Section ScheduleVocabulary.
Import Js LiveClient.
Local Open Scope Q_scope.

(** The duration of the buffer [playAudio] builds from a chunk, or the
    exception raised on the way: by [atob], by [new Int16Array] on an odd
    byte length, by [createBuffer] on no frame. *)
Definition chunk_duration (base64String : string) : completion Q :=
  match base64ToArrayBuffer base64String with
  | Throw e => Throw e
  | Normal audioData =>
      match Pcm.pcm16ToFloat32 audioData with
      | Throw e => Throw e
      | Normal float32Data =>
          match createBuffer (List.length float32Data) 24000 with
          | Throw e => Throw e
          | Normal buffer => Normal (duration buffer)
          end
      end
  end.

(** The start time [playAudio] picks: the cursor, or the clock reading when
    the cursor is behind it. *)
Definition start_time (currentTime cursor : Q) : Q :=
  if Qle_bool currentTime cursor then cursor else currentTime.

(** [playAudio] on chunk after chunk, each with the clock reading of its
    call; a call that throws does not stop the ones after it. *)
Fixpoint playAudios (chunks : list (Q * string)) (c : t) : t * list Effect :=
  match chunks with
  | [] => (c, [])
  | (currentTime, base64String) :: rest =>
      match playAudio currentTime base64String c with
      | (_, c1, tr1) =>
          match playAudios rest c1 with
          | (c2, tr2) => (c2, tr1 ++ tr2)%list
          end
      end
  end.

(** The [source.start] calls of a trace: start time and duration. *)
Definition scheduled (tr : list Effect) : list (Q * Q) :=
  flat_map (fun ev => match ev with
                      | SourceStart start d => [(start, d)]
                      | _ => []
                      end) tr.

(** Buffers laid end to end from [start]: each begins where the one before
    it ends. *)
Fixpoint back_to_back (start : Q) (durations : list Q) : list (Q * Q) :=
  match durations with
  | [] => []
  | d :: rest => (start, d) :: back_to_back (start + d) rest
  end.

(** The device clock stays behind the cursor: every reading is at most
    the end time of what is scheduled so far. *)
Fixpoint clock_behind (cursor : Q) (readings : list (Q * Q)) : Prop :=
  match readings with
  | [] => True
  | (currentTime, d) :: rest =>
      currentTime <= cursor /\ clock_behind (cursor + d) rest
  end.

(** [chunks] decode to buffers of durations [ds]. *)
Definition playable (chunks : list (Q * string)) (ds : list Q) : Prop :=
  Forall2 (fun chunk d => chunk_duration (snd chunk) = Normal d) chunks ds.

End ScheduleVocabulary.

Section SessionVocabulary.
Import Js Genai LiveClient.
Local Open Scope string_scope.

(** The state a method leaves, and the effects it had. *)
Definition state_after {A} (r : completion A * t * list Effect) : t :=
  snd (fst r).

Definition effects_of {A} (r : completion A * t * list Effect)
  : list Effect :=
  snd r.

Definition outcome_of {A} (r : completion A * t * list Effect)
  : completion A :=
  fst (fst r).

(** A configuration with every callback, around a tool handler. *)
Definition config_with (handler : FunctionCall -> completion value)
  : LiveClientConfig :=
  mkConfig true true true (Some handler) true true.

(** A client right after [connect], and one whose connection has opened with
    a microphone of one track. *)
Definition connecting (cfg : LiveClientConfig) : t :=
  state_after (connect (Some "key") None Fulfils (new cfg)).

Definition opened (cfg : LiveClientConfig) : t :=
  state_after (onopen (Normal [WebAudio.live]) (connecting cfg)).

(** A message that carries one transcription fragment of a source, the
    turn-complete message, and a message that carries a tool-call batch. *)
Definition fragment (source : Source) (text : string) : LiveServerMessage :=
  let tr := Some (mkTranscription (Some text)) in
  mkLiveServerMessage
    (Some match source with
          | user => mkServerContent None tr None None
          | model => mkServerContent None None tr None
          end)
    None.

Definition turn_complete : LiveServerMessage :=
  mkLiveServerMessage (Some (mkServerContent None None None (Some true))) None.

Definition tool_call_batch (fcs : list FunctionCall) : LiveServerMessage :=
  mkLiveServerMessage None (Some (mkToolCall (Some fcs))).

(** The accumulator of a source. *)
Definition accumulator (source : Source) (c : t) : string :=
  match source with
  | user => currentInputText c
  | model => currentOutputText c
  end.

(** The texts accumulated after each fragment, from [acc]. *)
Fixpoint running (acc : string) (fragments : list string) : list string :=
  match fragments with
  | [] => []
  | f :: rest => (acc ++ f) :: running (acc ++ f) rest
  end.

(** The fragments put together, in order. *)
Fixpoint joined (fragments : list string) : string :=
  match fragments with
  | [] => ""
  | f :: rest => f ++ joined rest
  end.

(** The handler resolves with [results] on the invocations [fcs], one for
    one. *)
Definition resolves (handler : FunctionCall -> completion value)
    (fcs : list FunctionCall) (results : list value) : Prop :=
  Forall2 (fun fc v => handler fc = Normal v) fcs results.

(** The ToolResults of a batch, given what becomes of a handler's value. *)
Definition responses_with (result_of : value -> value)
    (fcs : list FunctionCall) (results : list value)
  : list FunctionResponse :=
  map (fun p => mkFunctionResponse (fc_id (fst p)) (fc_name (fst p))
                  (result_of (snd p)))
      (combine fcs results).

(** What the code makes of the value a handler resolved with. *)
Definition result_of (v : value) : value := or_else v (String "success").

(** The values [||] takes for false. *)
Definition falsy (v : value) : Prop :=
  match v with
  | Undefined | Null | Boolean false | Number NaN | String "" => True
  | Number (Fin q) => (q == 0)%Q
  | _ => False
  end.

(** An invocation of [edit_image], and a handler that rejects on the
    invocation of a given id and resolves with no value on the others. *)
Definition edit_image_call (id prompt : string) : FunctionCall :=
  mkFunctionCall (Some id) (Some "edit_image") [("prompt", String prompt)].

Definition rejecting_on (id : string) (fc : FunctionCall)
  : completion value :=
  match fc_id fc with
  | Some i => if String.eqb i id then Throw (Error "edit failed")
              else Normal Undefined
  | None => Normal Undefined
  end.

(** The result as the specification words it: ["success"] when the handler
    resolved with no value, its value otherwise. *)
Definition spec_result (v : value) : value :=
  match v with
  | Undefined => String "success"
  | _ => v
  end.

(** The handler of a message answered its batch: it called the tool handler
    on every invocation, in order, completed normally and sent one tool
    response, of one result per invocation, in order, each with the id of
    its invocation. *)
Definition answers_batch (fcs : list FunctionCall)
    (r : completion unit * t * list Effect) : Prop :=
  outcome_of r = Normal tt
  /\ exists rs : list FunctionResponse,
       effects_of r = (map CallOnToolCall fcs ++ [SendToolResponse rs])%list
       /\ List.length rs = List.length fcs
       /\ map id rs = map fc_id fcs.

End SessionVocabulary.

Section EditVocabulary.
Import Js Genai GeminiApi.
Local Open Scope string_scope.

Definition rejects {A} (r : completion A) : Prop := exists e, r = Throw e.

(** [response.candidates?.[0]]. *)
Definition first_candidate (r : GenerateContentResponse) : option Candidate :=
  match candidates r with
  | Some (candidate :: _) => Some candidate
  | _ => None
  end.

(** The failures the specification lists. *)
Definition credential_missing (apiKey env_API_KEY : option string) : Prop :=
  LiveClient.is_truthy (LiveClient.first_truthy apiKey env_API_KEY) = false.

Definition no_candidate (r : GenerateContentResponse) : Prop :=
  first_candidate r = None.

Definition refused_without_content (candidate : Candidate) : Prop :=
  (exists reason, finishReason candidate = Some reason /\ reason <> "STOP")
  /\ no_parts candidate = true.

Definition content_without_parts (candidate : Candidate) : Prop :=
  no_parts candidate = true.

(** A part that carries inline image data: it has an [inlineData], with
    [data] in it. *)
Definition carries_image_data (part : Part) : Prop :=
  exists blob d, inlineData part = Some blob /\ data blob = Some d.

Definition no_image_part (candidate : Candidate) : Prop :=
  exists ps, option_map parts (content candidate) = Some (Some ps)
             /\ Forall (fun part => ~ carries_image_data part) ps.

Definition unusable (r : GenerateContentResponse) : Prop :=
  no_candidate r
  \/ exists candidate,
       first_candidate r = Some candidate
       /\ (refused_without_content candidate
           \/ content_without_parts candidate
           \/ no_image_part candidate).

(** An error made by [new Error] with a text. *)
Definition descriptive (e : error) : Prop :=
  exists text, e = Error text /\ text <> "".

(** [data:image/png;base64,<data>], with the data of the first part of the
    first candidate that carries some. *)
Definition png_data_url (r : GenerateContentResponse) (url : string) : Prop :=
  exists candidate before part after blob d,
    first_candidate r = Some candidate
    /\ option_map parts (content candidate)
       = Some (Some (before ++ part :: after)%list)
    /\ Forall (fun p => ~ carries_image_data p) before
    /\ inlineData part = Some blob
    /\ data blob = Some d
    /\ url = "data:image/png;base64," ++ d.

(** The answer left aside: the first part of the first candidate that has an
    [inlineData] has no [data] in it. *)
Definition image_without_data (sent : completion GenerateContentResponse)
  : bool :=
  match sent with
  | Normal r =>
      match first_candidate r with
      | Some candidate =>
          match option_map parts (content candidate) with
          | Some (Some ps) =>
              match first_inlineData ps with
              | Some blob =>
                  match data blob with
                  | Some _ => false
                  | None => true
                  end
              | None => false
              end
          | _ => false
          end
      | None => false
      end
  | Throw _ => false
  end.

(** A remote call that rejects, and one that answers with one image. *)
Definition remote_down : Remote :=
  fun _ _ => Throw (Error "Failed to fetch").

Definition remote_image (generatedBase64 : string) : Remote :=
  fun _ _ =>
    Normal (mkResponse
              (Some [mkCandidate (Some "STOP")
                       (Some (mkContent
                                (Some [mkPart
                                         (Some (mkBlob (Some generatedBase64)
                                                  (Some "image/png")))
                                         None])))])).

(** A remote call that answers with a part whose [inlineData] has a MIME
    type and no [data]. *)
Definition remote_image_without_data : Remote :=
  fun _ _ =>
    Normal (mkResponse
              (Some [mkCandidate (Some "STOP")
                       (Some (mkContent
                                (Some [mkPart
                                         (Some (mkBlob None
                                                  (Some "image/png")))
                                         None])))])).

End EditVocabulary.

Section EncodingVocabulary.
Local Open Scope Z_scope.

(** The bytes of a buffer. *)
Definition is_byte (b : Z) : Prop := 0 <= b < 256.

(** The six bit values [btoa] writes for a list of bytes, and the padding
    that follows them. *)
Fixpoint sextets_of (bs : list Z) : list Z :=
  match bs with
  | a :: b :: c :: rest =>
      a / 4 :: (a mod 4) * 16 + b / 16 :: (b mod 16) * 4 + c / 64 :: c mod 64
        :: sextets_of rest
  | [a; b] => [a / 4; (a mod 4) * 16 + b / 16; (b mod 16) * 4]
  | [a] => [a / 4; (a mod 4) * 16]
  | [] => []
  end.

Fixpoint padding_of (bs : list Z) : list ascii :=
  match bs with
  | _ :: _ :: _ :: rest => padding_of rest
  | [_; _] => ["="%char]
  | [_] => ["="%char; "="%char]
  | [] => []
  end.

(** Every character of a string passes a test. *)
Fixpoint all_chars (p : ascii -> bool) (s : string) : bool :=
  match s with
  | EmptyString => true
  | String c rest => p c && all_chars p rest
  end.

Definition not_comma (c : ascii) : bool := negb (Ascii.eqb c ",").

End EncodingVocabulary.

Section HandlerVocabulary.
Import Js Genai WebAudio LiveClient.
Local Open Scope Q_scope.

(** A method keeps a relation between the state before and after it, and
    every trace of effects it can leave is in a given set. *)
Definition respects (F : t -> t -> Prop) (L : list Effect -> Prop) {A}
    (m : M A) : Prop :=
  forall c, F c (state_after (m c)) /\ L (effects_of (m c)).

(** The fields of a client that hold the connection, the devices and the
    callbacks. *)
Definition devices (c : t) :=
  (sessionPromise c, inputAudioContext c, outputAudioContext c,
   inputSource c, processor c, stream c, config c).

(** No effect, or one effect of a kind. *)
Definition at_most_one (P : Effect -> Prop) (l : list Effect) : Prop :=
  l = [] \/ exists ev, l = [ev] /\ P ev.

(** A trace of one set followed by a trace of another. *)
Definition then_lang (S1 S2 : list Effect -> Prop) (l : list Effect) : Prop :=
  exists x y, l = (x ++ y)%list /\ S1 x /\ S2 y.

Definition is_start (ev : Effect) : Prop := exists s d, ev = SourceStart s d.

Definition is_transcript (source : Source) (isFinal : bool) (ev : Effect)
  : Prop :=
  exists text, ev = CallOnTranscription text source isFinal.

Definition is_tool_response (ev : Effect) : Prop :=
  exists rs, ev = SendToolResponse rs.

(** The invocations of the batch a message carries. *)
Definition invocations (message : LiveServerMessage) : list FunctionCall :=
  match toolCall message with
  | Some tc =>
      match functionCalls tc with
      | Some fcs => fcs
      | None => []
      end
  | None => []
  end.

(** The calls of the tool handler on the first invocations of a batch, in
    order, and then at most one tool response. *)
Definition tool_part (fcs : list FunctionCall) (l : list Effect) : Prop :=
  exists (n : nat) (sends : list Effect),
    l = (map CallOnToolCall (firstn n fcs) ++ sends)%list
    /\ at_most_one is_tool_response sends.

(** The first statement of the message handler: the audio of the message,
    if any, goes to [playAudio]. *)
Definition audio_part (currentTime : Q) (message : LiveServerMessage)
  : M unit :=
  match audioData_of message with
  | Some audioData =>
      when (negb (audioData =? "")%string) (playAudio currentTime audioData)
  | None => ret tt
  end.

(** No buffer of a schedule starts before the one ahead of it ends. *)
Fixpoint no_overlap (schedule : list (Q * Q)) : Prop :=
  match schedule with
  | [] => True
  | (start, d) :: rest =>
      match rest with
      | [] => True
      | (next, _) :: _ => start + d <= next
      end /\ no_overlap rest
  end.

(** A schedule whose first buffer, if any, starts at the cursor or later. *)
Definition starts_from (cursor : Q) (schedule : list (Q * Q)) : Prop :=
  match schedule with
  | [] => True
  | (start, _) :: _ => cursor <= start
  end.

(** A client in use: made, connected (or not, when the key is missing),
    opened with some outcome of the microphone request (or not opened yet),
    and fed messages. *)
Definition session_state (cfg : LiveClientConfig)
    (apiKey env_API_KEY : option string) (settles : Settlement)
    (opening : option (completion MediaStream))
    (inbound : list (Q * LiveServerMessage)) : t :=
  let c1 := state_after (connect apiKey env_API_KEY settles (new cfg)) in
  let c2 := match opening with
            | Some userMedia => state_after (onopen userMedia c1)
            | None => c1
            end in
  fst (onmessages inbound c2).

(** A context that [close] accepts, or none. *)
Definition fresh_context (o : option AudioContext) : Prop :=
  context_closed o = false \/ o = None.

End HandlerVocabulary.

Section CodecVocabulary.
Local Open Scope Q_scope.

(** A finite sample in the range of decoded audio, [[-1, 1)]. *)
Definition decoded_sample (x : Js.number) : Prop :=
  exists q, x = Js.Fin q /\ -1 <= q /\ q < 1.

(** What encoding makes of a decoded int16: the same value up to zero, one
    less above. *)
Definition reencoded (v : Z) : Z := if (0 <? v)%Z then (v - 1)%Z else v.

End CodecVocabulary.

Section HistoryVocabulary.
Import App.

(** The current image is the one of the history item at the index; with no
    history there is no image and the index is -1. *)
Definition consistent (s : State) : Prop :=
  match index (history s) (historyIndex s) with
  | Some item => currentImage s = Some (url item)
  | None =>
      history s = [] /\ historyIndex s = (-1)%Z /\ currentImage s = None
  end.

(** The panel keeps at most fifty log lines. *)
Definition logs_bounded (s : State) : Prop :=
  (List.length (logs s) <= 50)%nat.

End HistoryVocabulary.

(* ===================================================================== *)
(** * Properties *)
(* ===================================================================== *)

(** A client taken apart into its fields and callbacks, so that a method
    run on it computes. *)
Ltac destruct_client c :=
  destruct c as [sp iac oac isrc proc nst [oo ocl oad otc otr oer] str cit cot].

(** ** The platform functions on examples *)

Section PlatformExamples.
Import Js.
Local Open Scope string_scope.

Example atob_text : Base64.atob "SGVsbG8=" = Normal "Hello".
Proof. reflexivity. Qed.

Example atob_ignores_whitespace_and_padding :
  Base64.atob " SGVs bG8 " = Normal "Hello".
Proof. reflexivity. Qed.

Example atob_bad_length : Base64.atob "SGVsb" = Throw InvalidCharacterError.
Proof. reflexivity. Qed.

Example atob_bad_character :
  Base64.atob "SGV*bG8=" = Throw InvalidCharacterError.
Proof. reflexivity. Qed.

Example ToInt16_wraps : ToInt16 (Fin 40000) = (-25536)%Z.
Proof. reflexivity. Qed.

Example ToInt16_truncates :
  ToInt16 (Fin (-3 # 2)) = (-1)%Z /\ ToInt16 (Fin (3 # 2)) = 1%Z.
Proof. split; reflexivity. Qed.

Example build_request_data_url :
  GeminiApi.build_request "data:image/png;base64,iVBORw0KGgo="
                          "remove background"
  = GeminiApi.mkRequest "gemini-2.5-flash-image" "iVBORw0KGgo=" "image/png"
      "remove background".
Proof. reflexivity. Qed.

Example build_request_raw_base64 :
  GeminiApi.build_request "iVBORw0KGgo=" "remove background"
  = GeminiApi.mkRequest "gemini-2.5-flash-image" "iVBORw0KGgo=" "image/jpeg"
      "remove background".
Proof. reflexivity. Qed.

Example slice0_negative_stop :
  App.slice0 [1; 2; 3]%Z (-1) = [1; 2]%Z /\ App.slice0 [1; 2; 3]%Z 5 = [1; 2; 3]%Z.
Proof. split; reflexivity. Qed.

End PlatformExamples.

(** ** Numbers and typed arrays *)

Section Truncation.
Local Open Scope Q_scope.

Lemma inject_Z_pred (z : Z) : inject_Z (z - 1) == inject_Z z - 1.
Proof.
  unfold Qeq, Qminus, Qplus, Qopp, inject_Z. cbn. lia.
Qed.

Lemma truncate_truncation_of (v : Q) : truncation_of v (Js.truncate v).
Proof.
  unfold truncation_of, Js.truncate.
  destruct (Qle_bool 0 v) eqn:E.
  - apply Qle_bool_iff in E.
    pose proof (Qfloor_le v) as Hlo. pose proof (Qlt_floor v) as Hhi.
    rewrite inject_Z_plus in Hhi. change (inject_Z 1) with 1 in Hhi.
    split; intros Hv; split; try lra.
    (* v = 0 *)
    assert (Hz : v == 0) by lra.
    assert (Hf : Qfloor v = 0%Z).
    { rewrite Hz. apply (Qfloor_Z 0). }
    rewrite Hf. change (inject_Z 0) with 0. lra.
  - assert (Hneg : v < 0).
    { apply Qnot_le_lt. intro H. apply Qle_bool_iff in H. congruence. }
    pose proof (Qle_ceiling v) as Hhi.
    pose proof (Qceiling_lt v) as Hlo. rewrite inject_Z_pred in Hlo.
    split; intros Hv; split; lra.
Qed.

(** A truncation stays within integer bounds of its argument. *)
Lemma truncation_of_bounds (v : Q) (z a b : Z) :
  truncation_of v z -> inject_Z a <= v -> v <= inject_Z b ->
  (a <= z <= b)%Z.
Proof.
  intros [Hpos Hneg] Ha Hb.
  destruct (Qlt_le_dec v 0) as [Hv | Hv].
  - destruct Hneg as [H1 H2]; [lra |].
    split.
    + rewrite Zle_Qle. lra.
    + assert (Hlt : (z - 1 < b)%Z).
      { rewrite Zlt_Qlt. rewrite inject_Z_pred. lra. }
      lia.
  - destruct Hpos as [H1 H2]; [lra |].
    split.
    + assert (Hlt : (a < z + 1)%Z).
      { rewrite Zlt_Qlt. rewrite inject_Z_plus.
        change (inject_Z 1) with 1. lra. }
      lia.
    + rewrite Zle_Qle. lra.
Qed.

End Truncation.

Lemma wrap16_int16 (z : Z) : -32768 <= z <= 32767 -> Js.wrap16 z = z.
Proof.
  intros Hz. unfold Js.wrap16.
  destruct (Z_lt_le_dec z 0) as [Hneg | Hpos].
  - assert (Hm : z mod 65536 = z + 65536).
    { symmetry. apply Z.mod_unique with (q := -1); lia. }
    rewrite Hm. destruct (32768 <=? z + 65536) eqn:E.
    + lia.
    + apply Z.leb_gt in E. lia.
  - rewrite Z.mod_small by lia.
    destruct (32768 <=? z) eqn:E.
    + apply Z.leb_le in E. lia.
    + reflexivity.
Qed.

Lemma int16_of_bytes_int16_bytes (z : Z) :
  -32768 <= z <= 32767 ->
  TypedArray.int16_elements (TypedArray.int16_bytes z) = Some [z].
Proof.
  intros Hz. unfold TypedArray.int16_bytes. cbn [TypedArray.int16_elements].
  unfold TypedArray.int16_of_bytes.
  set (u := z mod 65536).
  assert (Hu : u mod 256 + 256 * (u / 256) = u).
  { pose proof (Z.div_mod u 256). lia. }
  rewrite Hu. unfold u.
  assert (Hw : Js.wrap16 (z mod 65536) = Js.wrap16 z).
  { unfold Js.wrap16. rewrite Z.mod_mod by lia. reflexivity. }
  rewrite Hw, wrap16_int16 by assumption. reflexivity.
Qed.

(** Reading the buffer of an Int16Array gives its elements back. *)
Lemma Int16Array_of_buffer_buffer (xs : list Z) :
  Forall (fun z => -32768 <= z <= 32767) xs ->
  TypedArray.Int16Array_of_buffer (TypedArray.Int16Array_buffer xs)
  = Js.Normal xs.
Proof.
  intros Hxs. unfold TypedArray.Int16Array_of_buffer.
  assert (H : TypedArray.int16_elements (TypedArray.Int16Array_buffer xs)
              = Some xs).
  { induction Hxs as [| z xs Hz _ IH].
    - reflexivity.
    - pose proof (int16_of_bytes_int16_bytes z Hz) as Hb.
      unfold TypedArray.Int16Array_buffer in *. cbn [flat_map].
      unfold TypedArray.int16_bytes in *.
      cbn [app TypedArray.int16_elements] in *.
      rewrite IH. injection Hb as Hb. rewrite Hb. reflexivity. }
  rewrite H. reflexivity.
Qed.

(** ** Sample conversion *)

Section Samples.
Import Js.
Local Open Scope Q_scope.

Lemma clamp_range (x : Q) : -1 <= clamp x <= 1.
Proof.
  unfold clamp. split.
  - apply Q.le_max_l.
  - apply Q.max_lub; [lra | apply Q.le_min_l].
Qed.

Lemma clamp_id (x : Q) : -1 <= x <= 1 -> clamp x == x.
Proof.
  intros [Hlo Hhi]. unfold clamp.
  rewrite (Q.min_r 1 x) by assumption.
  apply Q.max_r. assumption.
Qed.

Lemma Qle_bool_false (a b : Q) : Qle_bool a b = false -> b < a.
Proof.
  intros E. apply Qnot_le_lt. intro H. apply Qle_bool_iff in H. congruence.
Qed.

(** [Math.max(-1, Math.min(1, x))] is the clamp. *)
Lemma Math_clamp (x : Q) :
  exists s, Math_max (Fin (-1)) (Math_min (Fin 1) (Fin x)) = Fin s
            /\ s == clamp x.
Proof.
  unfold clamp. cbn [Math_min].
  destruct (Qle_bool 1 x) eqn:E1.
  - apply Qle_bool_iff in E1. cbn [Math_max].
    replace (Qle_bool (-1) 1) with true by reflexivity.
    exists 1. split; [reflexivity |].
    rewrite (Q.min_l 1 x) by assumption. symmetry. apply Q.max_r. lra.
  - apply Qle_bool_false in E1. cbn [Math_max].
    assert (Hmin : Qmin 1 x == x) by (apply Q.min_r; lra).
    destruct (Qle_bool (-1) x) eqn:E2.
    + apply Qle_bool_iff in E2. exists x. split; [reflexivity |].
      rewrite Hmin. symmetry. apply Q.max_r. assumption.
    + apply Qle_bool_false in E2. exists (-1). split; [reflexivity |].
      rewrite Hmin. symmetry. apply Q.max_l. lra.
Qed.

Lemma truncation_of_compat (v w : Q) (z : Z) :
  v == w -> truncation_of v z -> truncation_of w z.
Proof.
  unfold truncation_of. intros E [Hpos Hneg]. split; intros Hw.
  - destruct Hpos; [lra |]. split; lra.
  - destruct Hneg; [lra |]. split; lra.
Qed.

Lemma Qle_bool_compat (a b : Q) : a == b -> Qle_bool 0 a = Qle_bool 0 b.
Proof.
  intros E. destruct (Qle_bool 0 a) eqn:Ea, (Qle_bool 0 b) eqn:Eb; trivial.
  - apply Qle_bool_iff in Ea. apply Qle_bool_false in Eb. lra.
  - apply Qle_bool_iff in Eb. apply Qle_bool_false in Ea. lra.
Qed.

(** One finite sample: the element stored is the truncation of the clamped,
    scaled sample, and the two's complement wrap of the store never
    applies. *)
Lemma floatTo16BitPCM_sample_finite (x : Q) :
  truncation_of (scaled x) (Pcm.floatTo16BitPCM_sample (Fin x))
  /\ (-32768 <= Pcm.floatTo16BitPCM_sample (Fin x) <= 32767)%Z.
Proof.
  unfold Pcm.floatTo16BitPCM_sample.
  destruct (Math_clamp x) as [s [Hs Es]]. rewrite Hs. cbn zeta.
  pose proof (clamp_range x) as [Hlo Hhi].
  unfold scaled. rewrite <- (Qle_bool_compat s (clamp x) Es).
  cbn [lt]. destruct (Qle_bool 0 s) eqn:E0; cbn [negb].
  - apply Qle_bool_iff in E0. unfold Pcm.x7FFF. cbn [mul ToInt16].
    assert (T : truncation_of (s * 32767) (truncate (s * 32767)))
      by apply truncate_truncation_of.
    assert (B : (-32768 <= truncate (s * 32767) <= 32767)%Z).
    { apply (truncation_of_bounds (s * 32767)); [exact T | |].
      - change (inject_Z (-32768)) with (-32768). nra.
      - change (inject_Z 32767) with 32767. nra. }
    rewrite wrap16_int16 by exact B. split; [| exact B].
    apply (truncation_of_compat (s * 32767)); [| exact T].
    rewrite Es. reflexivity.
  - apply Qle_bool_false in E0. unfold Pcm.x8000. cbn [mul ToInt16].
    assert (T : truncation_of (s * 32768) (truncate (s * 32768)))
      by apply truncate_truncation_of.
    assert (B : (-32768 <= truncate (s * 32768) <= 32767)%Z).
    { apply (truncation_of_bounds (s * 32768)); [exact T | |].
      - change (inject_Z (-32768)) with (-32768). nra.
      - change (inject_Z 32767) with 32767. nra. }
    rewrite wrap16_int16 by exact B. split; [| exact B].
    apply (truncation_of_compat (s * 32768)); [| exact T].
    rewrite Es. reflexivity.
Qed.

(** Every element of the output is an int16, whatever the sample. *)
Lemma floatTo16BitPCM_sample_int16 (x : number) :
  (-32768 <= Pcm.floatTo16BitPCM_sample x <= 32767)%Z.
Proof.
  destruct x as [q | | |].
  - apply floatTo16BitPCM_sample_finite.
  - vm_compute. split; discriminate.
  - vm_compute. split; discriminate.
  - vm_compute. split; discriminate.
Qed.

End Samples.

Section Conversion.
Import Js.
Local Open Scope Q_scope.

Lemma floatTo16BitPCM_sample_pcm_of (x : number) :
  pcm_of x (Pcm.floatTo16BitPCM_sample x).
Proof.
  destruct x as [q | | |]; cbn [pcm_of].
  - apply floatTo16BitPCM_sample_finite.
  - reflexivity.
  - reflexivity.
  - reflexivity.
Qed.

(** C1 (as amended).  [floatTo16BitPCM] works elementwise over the whole
    buffer: a finite sample is clamped to [-1, 1], multiplied by 32767 when
    the clamped value is not negative and by 32768 when it is, and the store
    into the Int16Array drops the fractional part of the product (truncation
    toward zero, no rounding); the result is an int16 without wrap-around.
    The infinities clamp to the extreme values and NaN is stored as 0. *)
Theorem floatTo16BitPCM_truncates (input : list number) :
  List.length (Pcm.floatTo16BitPCM input) = List.length input /\
  forall (i : nat) (x : number),
    nth_error input i = Some x ->
    exists z : Z,
      nth_error (Pcm.floatTo16BitPCM input) i = Some z
      /\ pcm_of x z /\ (-32768 <= z <= 32767)%Z.
Proof.
  unfold Pcm.floatTo16BitPCM. split.
  - apply length_map.
  - intros i x Hi. exists (Pcm.floatTo16BitPCM_sample x). split.
    + apply map_nth_error. exact Hi.
    + split.
      * apply floatTo16BitPCM_sample_pcm_of.
      * apply floatTo16BitPCM_sample_int16.
Qed.

(** C1 (as stated) fails: the sample 0.25 scales to 8191.75, which rounds to
    8192, while the code stores 8191; the stored value is more than one half
    away from the product, so no rounding to nearest gives it. *)
Lemma floatTo16BitPCM_not_rounded :
  binary32 1 (-2) = Fin (1 # 4)
  /\ Pcm.floatTo16BitPCM [Fin (1 # 4)] <> Pcm.spec_floatTo16BitPCM [1 # 4]
  /\ Pcm.floatTo16BitPCM [Fin (1 # 4)] = [8191%Z]
  /\ 1 # 2 < (1 # 4) * 32767 - inject_Z 8191.
Proof.
  split; [reflexivity |]. split; [| split].
  - vm_compute. discriminate.
  - reflexivity.
  - reflexivity.
Qed.

(** One sample of [[-1, 1]] through both conversions. *)
Lemma roundtrip_sample (q : Q) :
  -1 <= q <= 1 ->
  closer_than (2 / 32768) (Fin q)
    (Pcm.pcm16ToFloat32_sample (Pcm.floatTo16BitPCM_sample (Fin q))).
Proof.
  intros Hq.
  destruct (floatTo16BitPCM_sample_finite q) as [[Hpos Hneg] _].
  set (z := Pcm.floatTo16BitPCM_sample (Fin q)) in *.
  unfold Pcm.pcm16ToFloat32_sample, closer_than.
  pose proof (clamp_id q Hq) as Ec.
  unfold scaled in Hpos, Hneg.
  rewrite (Qle_bool_compat (clamp q) q Ec) in Hpos, Hneg.
  apply Qabs_Qlt_condition.
  destruct (Qle_bool 0 q) eqn:E0.
  - apply Qle_bool_iff in E0.
    destruct Hpos as [H1 H2]; [rewrite Ec; nra |].
    rewrite Ec in H1, H2.
    unfold Qdiv. change (/ 32768) with (1 # 32768).
    destruct Hq as [Hq1 Hq2]. split; lra.
  - apply Qle_bool_false in E0.
    destruct Hneg as [H1 H2]; [rewrite Ec; nra |].
    rewrite Ec in H1, H2.
    unfold Qdiv. change (/ 32768) with (1 # 32768).
    destruct Hq as [Hq1 Hq2]. split; lra.
Qed.

Lemma roundtrip_Normal (input : list number) :
  roundtrip input
  = Normal (map Pcm.pcm16ToFloat32_sample (Pcm.floatTo16BitPCM input)).
Proof.
  unfold roundtrip, Pcm.pcm16ToFloat32.
  rewrite Int16Array_of_buffer_buffer; [reflexivity |].
  unfold Pcm.floatTo16BitPCM. apply Forall_map, Forall_forall.
  intros x _. apply floatTo16BitPCM_sample_int16.
Qed.

(** C4 (as amended).  A buffer of samples of [-1, 1], converted by
    [floatTo16BitPCM] and back by [pcm16ToFloat32], comes back with every
    sample less than 2/32768 away from the original. *)
Theorem roundtrip_within_two_steps (input : list number) :
  Forall in_unit input ->
  exists output : list number,
    roundtrip input = Normal output
    /\ Forall2 (closer_than (2 / 32768)) input output.
Proof.
  intros Hin. rewrite roundtrip_Normal. eexists. split; [reflexivity |].
  unfold Pcm.floatTo16BitPCM. rewrite map_map.
  induction Hin as [| x input Hx _ IH]; cbn [map].
  - constructor.
  - constructor; [| exact IH].
    destruct x as [q | | |]; cbn [in_unit] in Hx; try contradiction.
    apply roundtrip_sample. exact Hx.
Qed.

Lemma roundtrip_within_two_steps_witness :
  Forall in_unit [binary32 3 (-2); Fin (-1); Fin 0] /\
  exists output : list number,
    roundtrip [binary32 3 (-2); Fin (-1); Fin 0] = Normal output
    /\ Forall2 (closer_than (2 / 32768))
         [binary32 3 (-2); Fin (-1); Fin 0] output.
Proof.
  assert (H : Forall in_unit [binary32 3 (-2); Fin (-1); Fin 0]).
  { repeat constructor; vm_compute; discriminate. }
  split; [exact H |].
  apply (roundtrip_within_two_steps _ H).
Defined.

(** C4 (as stated) fails: the binary32 sample 65535/65536 scales to
    32766.5 and is stored as 32766, which reads back as 32766/32768: that is
    1.5/32768 below the sample. *)
Lemma roundtrip_exceeds_one_step :
  in_unit (binary32 65535 (-16))
  /\ roundtrip [binary32 65535 (-16)] = Normal [Fin (inject_Z 32766 / 32768)]
  /\ ~ within (1 / 32768) (binary32 65535 (-16))
         (Fin (inject_Z 32766 / 32768)).
Proof.
  split; [| split].
  - vm_compute. split; discriminate.
  - reflexivity.
  - vm_compute. intros H. apply H. reflexivity.
Qed.

End Conversion.

(** ** Playback scheduling *)

Section Scheduling.
Import Js LiveClient.
Local Open Scope Q_scope.

Lemma start_time_max (currentTime cursor : Q) :
  start_time currentTime cursor == Qmax currentTime cursor.
Proof.
  unfold start_time. destruct (Qle_bool currentTime cursor) eqn:E.
  - apply Qle_bool_iff in E. symmetry. apply Q.max_r. exact E.
  - apply Qle_bool_false in E. symmetry. apply Q.max_l. lra.
Qed.

Lemma start_time_behind (currentTime cursor : Q) :
  currentTime <= cursor -> start_time currentTime cursor = cursor.
Proof.
  intros H. unfold start_time. apply Qle_bool_iff in H. rewrite H.
  reflexivity.
Qed.

(** What one call does, by cases on the output context and the chunk. *)
Lemma playAudio_cases (currentTime : Q) (base64String : string) (c : t) :
  playAudio currentTime base64String c =
  match outputAudioContext c with
  | None => (Normal tt, c, [])
  | Some _ =>
      match chunk_duration base64String with
      | Throw e => (Throw e, c, [])
      | Normal d =>
          let start := start_time currentTime (nextStartTime c) in
          (Normal tt, with_nextStartTime (start + d) c,
           [SourceStart start d])
      end
  end.
Proof.
  unfold playAudio, chunk_duration, start_time.
  cbv [bind get ret lift throw].
  destruct (outputAudioContext c) as [ctx |]; [| reflexivity].
  destruct (base64ToArrayBuffer base64String) as [audioData | e];
    [| reflexivity].
  destruct (Pcm.pcm16ToFloat32 audioData) as [float32Data | e];
    [| reflexivity].
  destruct (createBuffer (List.length float32Data) 24000) as [buffer | e];
    [| reflexivity].
  destruct (Qle_bool currentTime (nextStartTime c)); reflexivity.
Qed.

Lemma chunk_duration_positive (base64String : string) (d : Q) :
  chunk_duration base64String = Normal d -> 0 < d.
Proof.
  unfold chunk_duration.
  destruct (base64ToArrayBuffer base64String) as [audioData | e];
    [| discriminate].
  destruct (Pcm.pcm16ToFloat32 audioData) as [float32Data | e];
    [| discriminate].
  unfold createBuffer.
  destruct (List.length float32Data) as [| n] eqn:En; [discriminate |].
  intros H. injection H as <-. unfold duration. cbn [buffer_length
    buffer_sampleRate].
  unfold Qdiv. apply Qmult_lt_0_compat; [| reflexivity].
  change 0 with (inject_Z 0). rewrite <- Zlt_Qlt. lia.
Qed.

Lemma start_time_ge_cursor (currentTime cursor : Q) :
  cursor <= start_time currentTime cursor.
Proof.
  rewrite start_time_max. apply Q.le_max_r.
Qed.

(** One call never moves the cursor backward. *)
Lemma playAudio_cursor_monotone (currentTime : Q) (base64String : string)
    (c : t) :
  nextStartTime c
  <= nextStartTime (snd (fst (playAudio currentTime base64String c))).
Proof.
  rewrite playAudio_cases.
  destruct (outputAudioContext c); [| cbn; lra].
  destruct (chunk_duration base64String) as [d | e] eqn:Ed; [| cbn; lra].
  cbn. pose proof (chunk_duration_positive _ _ Ed).
  pose proof (start_time_ge_cursor currentTime (nextStartTime c)). lra.
Qed.

Lemma playAudios_cursor_monotone (chunks : list (Q * string)) (c : t) :
  nextStartTime c <= nextStartTime (fst (playAudios chunks c)).
Proof.
  revert c. induction chunks as [| [currentTime base64String] rest IH];
    intros c; cbn [playAudios].
  - cbn. lra.
  - pose proof (playAudio_cursor_monotone currentTime base64String c) as H1.
    destruct (playAudio currentTime base64String c) as [[r c1] tr1].
    cbn [fst snd] in H1. specialize (IH c1).
    destruct (playAudios rest c1) as [c2 tr2]. cbn [fst] in *. lra.
Qed.

Lemma outputAudioContext_with_nextStartTime (v : Q) (c : t) :
  outputAudioContext (with_nextStartTime v c) = outputAudioContext c.
Proof. reflexivity. Qed.

(** With the clock behind the cursor, the chunks are laid end to end from
    the cursor. *)
Lemma playAudios_back_to_back (chunks : list (Q * string)) (ds : list Q)
    (c : t) :
  outputAudioContext c <> None ->
  playable chunks ds ->
  clock_behind (nextStartTime c) (combine (map fst chunks) ds) ->
  scheduled (snd (playAudios chunks c)) = back_to_back (nextStartTime c) ds.
Proof.
  intros Hctx Hplay. revert c Hctx.
  induction Hplay as [| [currentTime base64String] d rest ds Hd _ IH];
    intros c Hctx Hclock.
  - reflexivity.
  - cbn [map combine fst clock_behind] in Hclock.
    destruct Hclock as [Hnow Hrest].
    cbn [playAudios]. rewrite playAudio_cases.
    destruct (outputAudioContext c) as [ctx |] eqn:Ec; [| congruence].
    cbn [snd] in Hd. rewrite Hd. cbn zeta.
    rewrite (start_time_behind _ _ Hnow).
    specialize (IH (with_nextStartTime (nextStartTime c + d) c)).
    rewrite outputAudioContext_with_nextStartTime, Ec in IH.
    specialize (IH ltac:(discriminate) Hrest).
    destruct (playAudios rest _) as [c2 tr2]. cbn [snd] in *.
    cbn [app scheduled flat_map]. cbn [back_to_back].
    f_equal. exact IH.
Qed.

(** C2.  Each chunk [playAudio] schedules starts at the maximum of the
    clock reading and the cursor [nextStartTime], and the cursor then advances
    by the duration of the chunk (a call without output context, or on a chunk
    that does not decode, schedules nothing and leaves the fields alone); so
    the cursor never goes backward over any sequence of calls; and when the
    clock stays behind the cursor after the first chunk, every chunk starts
    exactly where the one before it ends. *)
Theorem playAudio_schedule :
  (forall (c : t) (currentTime : Q) (base64String : string),
      match outputAudioContext c, chunk_duration base64String with
      | Some _, Normal d =>
          exists start : Q,
            start == Qmax currentTime (nextStartTime c)
            /\ playAudio currentTime base64String c
               = (Normal tt, with_nextStartTime (start + d) c,
                  [SourceStart start d])
      | _, _ =>
          snd (playAudio currentTime base64String c) = []
          /\ snd (fst (playAudio currentTime base64String c)) = c
      end)
  /\ (forall (chunks : list (Q * string)) (c : t),
         nextStartTime c <= nextStartTime (fst (playAudios chunks c)))
  /\ (forall (c : t) (currentTime : Q) (base64String : string) (d : Q)
             (rest : list (Q * string)) (ds : list Q),
         outputAudioContext c <> None ->
         chunk_duration base64String = Normal d ->
         playable rest ds ->
         clock_behind (start_time currentTime (nextStartTime c) + d)
                      (combine (map fst rest) ds) ->
         scheduled (snd (playAudios ((currentTime, base64String) :: rest) c))
         = back_to_back (start_time currentTime (nextStartTime c))
                        (d :: ds)).
Proof.
  split; [| split].
  - intros c currentTime base64String. rewrite playAudio_cases.
    destruct (outputAudioContext c) as [ctx |].
    + destruct (chunk_duration base64String) as [d | e].
      * exists (start_time currentTime (nextStartTime c)).
        split; [apply start_time_max | reflexivity].
      * split; reflexivity.
    + split; reflexivity.
  - apply playAudios_cursor_monotone.
  - intros c currentTime base64String d rest ds Hctx Hd Hplay Hclock.
    cbn [playAudios]. rewrite playAudio_cases.
    destruct (outputAudioContext c) as [ctx |] eqn:Ec; [| congruence].
    rewrite Hd. cbv beta iota zeta.
    pose proof (playAudios_back_to_back rest ds
                  (with_nextStartTime
                     (start_time currentTime (nextStartTime c) + d) c)) as IH.
    rewrite outputAudioContext_with_nextStartTime, Ec in IH.
    specialize (IH ltac:(discriminate) Hplay Hclock).
    destruct (playAudios rest _) as [c2 tr2]. cbn [snd] in *.
    cbn [app scheduled flat_map back_to_back]. f_equal. exact IH.
Qed.

End Scheduling.


Lemma playAudio_schedule_witness :
  let cfg := config_with (fun _ => Js.Normal Js.Undefined) in
  let rest := [((1 # 2)%Q, "AAAAAA=="%string); ((1 # 2)%Q, "AAAAAAAA"%string)] in
  scheduled
    (snd (playAudios (((1 # 2)%Q, "AAA="%string) :: rest) (opened cfg)))
  = back_to_back (1 # 2) [1 # 24000; 2 # 24000; 3 # 24000]%Q.
Proof.
  intros cfg rest.
  apply (proj2 (proj2 playAudio_schedule) (opened cfg) (1 # 2)%Q
           "AAA="%string (1 # 24000)%Q rest [2 # 24000; 3 # 24000]%Q).
  - discriminate.
  - reflexivity.
  - repeat constructor.
  - cbn. repeat split; discriminate.
Defined.

(** ** Transcription *)

Section Transcription.
Import Js Genai LiveClient.
Local Open Scope string_scope.

Lemma append_assoc (a b c : string) : (a ++ b) ++ c = a ++ (b ++ c).
Proof.
  induction a as [| ch a IH]; cbn; [reflexivity | now rewrite IH].
Qed.

Lemma append_empty_r (a : string) : a ++ "" = a.
Proof.
  induction a as [| ch a IH]; cbn; [reflexivity | now rewrite IH].
Qed.

(** The handler on a message of one fragment. *)
Lemma onmessage_fragment (currentTime : Q) (source : Source) (text : string)
    (c : t) :
  onmessage currentTime (fragment source text) c =
  (Normal tt,
   match source with
   | user => with_currentInputText (currentInputText c ++ text) c
   | model => with_currentOutputText (currentOutputText c ++ text) c
   end,
   if onTranscription (config c)
   then [CallOnTranscription (accumulator source c ++ text) source false]
   else []).
Proof.
  destruct_client c. destruct source, otr; reflexivity.
Qed.

(** The handler on the turn-complete message. *)
Lemma onmessage_turn_complete (currentTime : Q) (c : t) :
  onmessage currentTime turn_complete c =
  (Normal tt,
   with_currentOutputText "" (with_currentInputText "" c),
   if onTranscription (config c)
   then [CallOnTranscription (currentOutputText c) model true]
   else []).
Proof.
  destruct_client c. destruct otr; reflexivity.
Qed.

Lemma fragments_accumulate (source : Source) (fragments : list (Q * string))
    (c : t) :
  onTranscription (config c) = true ->
  let inbound := map (fun p => (fst p, fragment source (snd p))) fragments in
  accumulator source (fst (onmessages inbound c))
  = accumulator source c ++ joined (map snd fragments)
  /\ config (fst (onmessages inbound c)) = config c
  /\ snd (onmessages inbound c)
     = map (fun text => CallOnTranscription text source false)
           (running (accumulator source c) (map snd fragments)).
Proof.
  revert c. induction fragments as [| [now text] rest IH]; intros c Hcb.
  - cbn. rewrite append_empty_r. auto.
  - cbn [map fst snd onmessages joined running].
    rewrite onmessage_fragment, Hcb.
    set (c1 := match source with
               | user => with_currentInputText (currentInputText c ++ text) c
               | model =>
                   with_currentOutputText (currentOutputText c ++ text) c
               end).
    assert (Hcfg : config c1 = config c) by (destruct source; reflexivity).
    assert (Hacc : accumulator source c1 = accumulator source c ++ text)
      by (destruct source; reflexivity).
    destruct (IH c1) as [H1 [H2 H3]]; [rewrite Hcfg; exact Hcb |].
    cbv zeta in H1, H2, H3.
    destruct (onmessages _ c1) as [c2 tr2]. cbn [fst snd] in *.
    rewrite H1, H2, H3, Hacc, append_assoc. auto.
Qed.

(** C5.  With an [onTranscription] callback installed, fragments of one
    source are appended to the accumulator of that source in arrival order,
    each followed by a call of the callback with the text accumulated so far
    and [isFinal = false]; a turn-complete message then calls the callback
    with the accumulated output text, source ['model'] (the agent), and
    [isFinal = true], and leaves both accumulators empty. *)
Theorem transcription_accumulates (source : Source)
    (fragments : list (Q * string)) (currentTime : Q) (c : t) :
  onTranscription (config c) = true ->
  let inbound := map (fun p => (fst p, fragment source (snd p))) fragments in
  let c1 := fst (onmessages inbound c) in
  let done := onmessage currentTime turn_complete c1 in
  accumulator source c1 = accumulator source c ++ joined (map snd fragments)
  /\ snd (onmessages inbound c)
     = map (fun text => CallOnTranscription text source false)
           (running (accumulator source c) (map snd fragments))
  /\ outcome_of done = Normal tt
  /\ effects_of done = [CallOnTranscription (currentOutputText c1) model true]
  /\ currentInputText (state_after done) = ""
  /\ currentOutputText (state_after done) = "".
Proof.
  intros Hcb inbound c1 done.
  destruct (fragments_accumulate source fragments c Hcb) as [H1 [H2 H3]].
  fold inbound in H1, H2, H3. fold c1 in H1, H2.
  split; [exact H1 |]. split; [exact H3 |].
  unfold done. rewrite onmessage_turn_complete, H2, Hcb.
  repeat split.
Qed.

Lemma transcription_accumulates_witness :
  let c := opened (config_with (fun _ => Normal Undefined)) in
  let inbound :=
    map (fun p => (fst p, fragment model (snd p)))
        [(0%Q, "Hello"); (1%Q, ", "); (2%Q, "world")] in
  currentOutputText (fst (onmessages inbound c)) = "Hello, world"
  /\ snd (onmessages inbound c)
     = [CallOnTranscription "Hello" model false;
        CallOnTranscription "Hello, " model false;
        CallOnTranscription "Hello, world" model false]
  /\ effects_of (onmessage 3 turn_complete (fst (onmessages inbound c)))
     = [CallOnTranscription "Hello, world" model true].
Proof.
  intros c inbound.
  destruct (transcription_accumulates model
              [(0%Q, "Hello"); (1%Q, ", "); (2%Q, "world")] 3%Q c
              eq_refl) as [H1 [H2 [_ [H4 _]]]].
  fold inbound in H1, H2, H4.
  split; [exact H1 |]. split; [exact H2 |].
  rewrite H4. cbn [accumulator] in H1. rewrite H1. reflexivity.
Defined.

End Transcription.

(** ** Tool calls *)

Section ToolCalls.
Import Js Genai LiveClient.
Local Open Scope string_scope.

Lemma bind_ret_l {A B} (a : A) (k : A -> M B) (c : t) :
  bind (ret a) k c = k a c.
Proof.
  unfold bind, ret. destruct (k a c) as [[r c2] tr2]. reflexivity.
Qed.

(** The loop, when the handler resolves on every invocation. *)
Lemma run_functionCalls_resolves (handler : FunctionCall -> completion value)
    (fcs : list FunctionCall) (results : list value)
    (responses : list FunctionResponse) (c : t) :
  onToolCall (config c) = Some handler ->
  resolves handler fcs results ->
  run_functionCalls fcs responses c
  = (Normal (responses ++ responses_with result_of fcs results)%list, c,
     map CallOnToolCall fcs).
Proof.
  intros Hh Hres. revert responses.
  induction Hres as [| fc v fcs results Hv _ IH]; intros responses.
  - cbn. rewrite app_nil_r. reflexivity.
  - cbn [run_functionCalls]. cbv [bind get emit lift ret].
    rewrite Hh, Hv, IH.
    unfold responses_with. cbn [combine map fst snd app].
    rewrite <- app_assoc. reflexivity.
Qed.

(** The loop, when the handler rejects on an invocation: the exception ends
    it, whatever was collected before, and the invocations after it never
    reach the handler. *)
Lemma run_functionCalls_rejects (handler : FunctionCall -> completion value)
    (before after : list FunctionCall) (fc : FunctionCall)
    (results : list value) (e : error)
    (responses : list FunctionResponse) (c : t) :
  onToolCall (config c) = Some handler ->
  resolves handler before results ->
  handler fc = Throw e ->
  run_functionCalls (before ++ fc :: after) responses c
  = (Throw e, c, map CallOnToolCall (before ++ [fc])).
Proof.
  intros Hh Hres He. revert responses.
  induction Hres as [| fc0 v fcs results Hv _ IH]; intros responses.
  - cbn [app run_functionCalls]. cbv [bind get emit lift throw].
    rewrite Hh, He. reflexivity.
  - cbn [app run_functionCalls]. cbv [bind get emit lift ret].
    rewrite Hh, Hv, IH. reflexivity.
Qed.

(** The handler of a message that carries a batch and nothing else. *)
Lemma onmessage_tool_call_batch (currentTime : Q) (fcs : list FunctionCall)
    (c : t) :
  onmessage currentTime (tool_call_batch fcs) c
  = bind (run_functionCalls fcs [])
         (fun responses =>
            bind get (fun c1 =>
              match sessionPromise c1 with
              | Some Fulfils => emit (SendToolResponse responses)
              | _ => ret tt
              end)) c.
Proof.
  unfold onmessage, tool_call_batch.
  cbn [audioData_of serverContent toolCall functionCalls option_map].
  rewrite !bind_ret_l. reflexivity.
Qed.

Lemma onmessage_batch_resolves (currentTime : Q)
    (handler : FunctionCall -> completion value)
    (fcs : list FunctionCall) (results : list value) (c : t) :
  onToolCall (config c) = Some handler ->
  sessionPromise c = Some Fulfils ->
  resolves handler fcs results ->
  onmessage currentTime (tool_call_batch fcs) c
  = (Normal tt, c,
     (map CallOnToolCall fcs
        ++ [SendToolResponse (responses_with result_of fcs results)])%list).
Proof.
  intros Hh Hs Hres. rewrite onmessage_tool_call_batch.
  unfold bind at 1.
  rewrite (run_functionCalls_resolves handler fcs results [] c Hh Hres).
  cbv [bind get]. rewrite Hs. reflexivity.
Qed.

Lemma onmessage_batch_rejects (currentTime : Q)
    (handler : FunctionCall -> completion value)
    (before after : list FunctionCall) (fc : FunctionCall)
    (results : list value) (e : error) (c : t) :
  onToolCall (config c) = Some handler ->
  resolves handler before results ->
  handler fc = Throw e ->
  onmessage currentTime (tool_call_batch (before ++ fc :: after)) c
  = (Throw e, c, map CallOnToolCall (before ++ [fc])).
Proof.
  intros Hh Hres He. rewrite onmessage_tool_call_batch.
  unfold bind at 1.
  rewrite (run_functionCalls_rejects handler before after fc results e [] c
             Hh Hres He).
  reflexivity.
Qed.

Lemma responses_with_length (f : value -> value) (fcs : list FunctionCall)
    (results : list value) :
  List.length fcs = List.length results ->
  List.length (responses_with f fcs results) = List.length fcs.
Proof.
  intros H. unfold responses_with.
  rewrite length_map, length_combine, <- H. apply Nat.min_id.
Qed.

Lemma responses_with_ids (f : value -> value) (fcs : list FunctionCall)
    (results : list value) :
  List.length fcs = List.length results ->
  map id (responses_with f fcs results) = map fc_id fcs
  /\ map name (responses_with f fcs results) = map fc_name fcs.
Proof.
  revert results. induction fcs as [| fc fcs IH]; intros [| v results] H;
    try discriminate.
  - split; reflexivity.
  - injection H as H. destruct (IH results H) as [H1 H2].
    unfold responses_with in *. cbn [combine map fst snd id name].
    rewrite H1, H2. split; reflexivity.
Qed.

Lemma resolves_length (handler : FunctionCall -> completion value)
    (fcs : list FunctionCall) (results : list value) :
  resolves handler fcs results -> List.length fcs = List.length results.
Proof.
  intros H. induction H; cbn; congruence.
Qed.

(** C3 (as amended).  With a tool handler installed and the connection
    reference held, a batch of K invocations on all of which the handler
    resolves is answered by exactly K ToolResults, in order, each with the id
    of its invocation, sent in a single tool response after the K calls of
    the handler, and the fields of the client are as before.  When the
    handler rejects on an invocation, the handler of the message rejects with
    that exception at that point and no tool response is sent: the exception
    is neither caught nor turned into a result, and the invocations after it
    are not handed to the handler. *)
Theorem tool_call_batch_answered (currentTime : Q)
    (handler : FunctionCall -> completion value) (c : t) :
  onToolCall (config c) = Some handler ->
  sessionPromise c = Some Fulfils ->
  (forall (fcs : list FunctionCall) (results : list value),
      resolves handler fcs results ->
      answers_batch fcs (onmessage currentTime (tool_call_batch fcs) c)
      /\ state_after (onmessage currentTime (tool_call_batch fcs) c) = c)
  /\ (forall (before after : list FunctionCall) (fc : FunctionCall)
             (results : list value) (e : error),
         resolves handler before results ->
         handler fc = Throw e ->
         onmessage currentTime (tool_call_batch (before ++ fc :: after)) c
         = (Throw e, c, map CallOnToolCall (before ++ [fc]))).
Proof.
  intros Hh Hs. split.
  - intros fcs results Hres.
    rewrite (onmessage_batch_resolves currentTime handler fcs results c
               Hh Hs Hres).
    pose proof (resolves_length handler fcs results Hres) as Hlen.
    split; [| reflexivity]. split; [reflexivity |].
    exists (responses_with result_of fcs results).
    split; [reflexivity |]. split.
    + apply responses_with_length. exact Hlen.
    + apply responses_with_ids. exact Hlen.
  - intros before after fc results e Hres He.
    apply (onmessage_batch_rejects currentTime handler before after fc
             results e c Hh Hres He).
Qed.

Lemma tool_call_batch_answered_witness :
  let c := opened (config_with (rejecting_on "2")) in
  answers_batch [edit_image_call "1" "remove background";
                 edit_image_call "3" "make it black and white"]
    (onmessage 0
       (tool_call_batch [edit_image_call "1" "remove background";
                         edit_image_call "3" "make it black and white"]) c)
  /\ onmessage 0
       (tool_call_batch [edit_image_call "1" "remove background";
                         edit_image_call "2" "add neon lights";
                         edit_image_call "3" "make it black and white"]) c
     = (Throw (Error "edit failed"), c,
        [CallOnToolCall (edit_image_call "1" "remove background");
         CallOnToolCall (edit_image_call "2" "add neon lights")]).
Proof.
  intros c.
  destruct (tool_call_batch_answered 0 (rejecting_on "2") c eq_refl eq_refl)
    as [Hok Hthrow].
  split.
  - apply (Hok _ [Undefined; Undefined]). repeat constructor.
  - apply (Hthrow [edit_image_call "1" "remove background"]
                  [edit_image_call "3" "make it black and white"]
                  (edit_image_call "2" "add neon lights") [Undefined]).
    + repeat constructor.
    + reflexivity.
Defined.

(** C3 (as stated) fails: in a batch of two whose second invocation makes
    the handler reject, the handler of the message rejects after the two
    calls of the tool handler and sends nothing, so the batch gets no result
    at all. *)
Lemma tool_call_batch_unanswered_on_throw :
  let c := opened (config_with (rejecting_on "2")) in
  let batch := [edit_image_call "1" "remove background";
                edit_image_call "2" "add neon lights"] in
  onmessage 0 (tool_call_batch batch) c
  = (Throw (Error "edit failed"), c, map CallOnToolCall batch)
  /\ ~ answers_batch batch (onmessage 0 (tool_call_batch batch) c).
Proof.
  intros c batch.
  assert (H : onmessage 0 (tool_call_batch batch) c
              = (Throw (Error "edit failed"), c, map CallOnToolCall batch))
    by reflexivity.
  split; [exact H |].
  rewrite H. intros [Hout _]. discriminate Hout.
Qed.

Lemma result_of_falsy (v : value) : falsy v -> result_of v = String "success".
Proof.
  unfold result_of, or_else.
  destruct v as [| | [|] | [q | | |] | [| ch s]]; cbn; try tauto.
  intros Hq. apply Qeq_bool_iff in Hq. rewrite Hq. reflexivity.
Qed.

Lemma result_of_truthy (v : value) : ~ falsy v -> result_of v = v.
Proof.
  unfold result_of, or_else.
  destruct v as [| | [|] | [q | | |] | [| ch s]]; cbn; try tauto.
  intros Hq. destruct (Qeq_bool q 0) eqn:E; [| reflexivity].
  apply Qeq_bool_iff in E. contradiction.
Qed.

(** C8 (as amended).  With a tool handler that resolves on every invocation
    of a batch, and the connection reference held, the handler of the message
    calls the tool handler on each invocation and then
    sends one message [{ functionResponses: [...] }] with one
    [{ id, name, response: { result } }] per invocation, in order; the result
    is ["success"] when the handler resolved with no value or with any other
    value [||] takes for false (null, false, 0, NaN, the empty string), and
    the value the handler resolved with otherwise. *)
Theorem tool_results_default_success (currentTime : Q)
    (handler : FunctionCall -> completion value)
    (fcs : list FunctionCall) (results : list value) (c : t) :
  onToolCall (config c) = Some handler ->
  sessionPromise c = Some Fulfils ->
  resolves handler fcs results ->
  exists rs : list FunctionResponse,
    effects_of (onmessage currentTime (tool_call_batch fcs) c)
    = (map CallOnToolCall fcs ++ [SendToolResponse rs])%list
    /\ forall (i : nat) (fc : FunctionCall) (v : value),
         nth_error fcs i = Some fc ->
         nth_error results i = Some v ->
         exists result : value,
           nth_error rs i
           = Some (mkFunctionResponse (fc_id fc) (fc_name fc) result)
           /\ (v = Undefined -> result = String "success")
           /\ (falsy v -> result = String "success")
           /\ (~ falsy v -> result = v).
Proof.
  intros Hh Hs Hres.
  exists (responses_with result_of fcs results). split.
  - rewrite (onmessage_batch_resolves currentTime handler fcs results c
               Hh Hs Hres). reflexivity.
  - intros i fc v Hfc Hv. exists (result_of v). split.
    + unfold responses_with.
      apply (map_nth_error
               (fun p => mkFunctionResponse (fc_id (fst p)) (fc_name (fst p))
                           (result_of (snd p))) i (combine fcs results)
               (d := (fc, v))).
      clear Hres. revert i Hfc Hv.
      revert results. induction fcs as [| fc0 fcs IH];
        intros [| v0 results] [| i] Hfc Hv; cbn in *; try discriminate.
      * congruence.
      * apply IH; assumption.
    + split; [intros ->; reflexivity |].
      split; [apply result_of_falsy | apply result_of_truthy].
Qed.

Lemma tool_results_default_success_witness :
  let c := opened (config_with (fun _ => Normal Undefined)) in
  exists rs : list FunctionResponse,
    effects_of
      (onmessage 0
         (tool_call_batch [edit_image_call "1" "make it black and white"]) c)
    = [CallOnToolCall (edit_image_call "1" "make it black and white");
       SendToolResponse rs]
    /\ nth_error rs 0
       = Some (mkFunctionResponse (Some "1") (Some "edit_image")
                 (String "success")).
Proof.
  intros c.
  destruct (tool_results_default_success 0 (fun _ => Normal Undefined)
              [edit_image_call "1" "make it black and white"] [Undefined] c
              eq_refl eq_refl) as [rs [Hsent Hrs]].
  - repeat constructor.
  - exists rs. split; [exact Hsent |].
    destruct (Hrs 0%nat (edit_image_call "1" "make it black and white")
                Undefined eq_refl eq_refl) as [result [Hnth [Hundef _]]].
    rewrite Hnth, (Hundef eq_refl). reflexivity.
Defined.

(** C8 (as stated) fails: a handler that resolves with [false] has a value,
    yet the result sent is ["success"], not [false]. *)
Lemma tool_result_false_replaced :
  let c := opened (config_with (fun _ => Normal (Boolean false))) in
  let batch := [edit_image_call "1" "make it black and white"] in
  effects_of (onmessage 0 (tool_call_batch batch) c)
  = [CallOnToolCall (edit_image_call "1" "make it black and white");
     SendToolResponse
       [mkFunctionResponse (Some "1") (Some "edit_image") (String "success")]]
  /\ effects_of (onmessage 0 (tool_call_batch batch) c)
     <> (map CallOnToolCall batch
           ++ [SendToolResponse
                 (responses_with spec_result batch [Boolean false])])%list.
Proof.
  intros c batch. split; [reflexivity |].
  vm_compute. discriminate.
Qed.

End ToolCalls.

(** ** Teardown *)

Section Teardown.
Import Js Genai WebAudio LiveClient.
Local Open Scope string_scope.

Lemma forallb_stopped (media : MediaStream) :
  forallb track_ended (map stop media) = true.
Proof.
  induction media as [| tr media IH]; [reflexivity | exact IH].
Qed.

(** A first [disconnect]: from any state whose contexts, if any, are still
    running (before [connect], between [connect] and the opening of the
    connection, or with the capture pipeline up) it completes normally and
    leaves nothing active. *)
Lemma disconnect_tears_down (c : t) :
  context_closed (inputAudioContext c) = false
  \/ inputAudioContext c = None ->
  context_closed (outputAudioContext c) = false
  \/ outputAudioContext c = None ->
  exists c' : t,
    disconnect c = (Normal tt, c', []) /\ torn_down c' = true.
Proof.
  destruct_client c. cbn [inputAudioContext outputAudioContext].
  intros Hin Hout.
  assert (Ein : iac = None \/ exists r, iac = Some (mkAudioContext r running)).
  { destruct iac as [[r [|]] |]; cbn in Hin.
    - right. eauto.
    - destruct Hin; discriminate.
    - left. reflexivity. }
  assert (Eout : oac = None \/ exists r, oac = Some (mkAudioContext r running)).
  { destruct oac as [[r [|]] |]; cbn in Hout.
    - right. eauto.
    - destruct Hout; discriminate.
    - left. reflexivity. }
  destruct Ein as [-> | [r1 ->]], Eout as [-> | [r2 ->]];
    destruct str as [media |], proc as [p |], isrc as [n |];
    eexists; (split; [reflexivity |]);
    unfold torn_down; cbn; rewrite ?forallb_stopped; reflexivity.
Qed.

(** After a [disconnect] the contexts are still referenced, closed. *)
Lemma disconnect_keeps_contexts (c c' : t) (tr : list Effect)
    (ctx : AudioContext) :
  disconnect c = (Normal tt, c', tr) ->
  inputAudioContext c = Some ctx ->
  inputAudioContext c' = Some (mkAudioContext (sampleRate ctx) closed).
Proof.
  destruct_client c. cbn [inputAudioContext]. intros H ->.
  destruct ctx as [r [|]].
  - destruct oac as [[r2 [|]] |], str as [media |], proc as [p |],
      isrc as [n |]; cbv in H; try discriminate;
      injection H as <- _; reflexivity.
  - destruct str as [media |], proc as [p |], isrc as [n |];
      cbv in H; discriminate.
Qed.

(** A [disconnect] on a client whose capture context is closed rejects, at
    [await this.inputAudioContext.close()]. *)
Lemma disconnect_closed_rejects (c : t) (ctx : AudioContext) :
  inputAudioContext c = Some ctx ->
  state ctx = closed ->
  outcome_of (disconnect c) = Throw InvalidStateError.
Proof.
  destruct_client c. cbn [inputAudioContext]. intros -> Hclosed.
  destruct ctx as [r st]. cbn in Hclosed. subst st.
  destruct str as [media |], proc as [p |], isrc as [n |]; reflexivity.
Qed.

(** Any second [disconnect] in a row on a client that was connected
    rejects. *)
Lemma disconnect_again_rejects (c c' : t) (tr : list Effect)
    (ctx : AudioContext) :
  inputAudioContext c = Some ctx ->
  disconnect c = (Normal tt, c', tr) ->
  outcome_of (disconnect c') = Throw InvalidStateError.
Proof.
  intros Hctx Hfirst.
  apply (disconnect_closed_rejects c' _
           (disconnect_keeps_contexts c c' tr ctx Hfirst Hctx)).
  reflexivity.
Qed.

(** Before [connect] there is nothing to release and [disconnect] can be
    repeated. *)
Lemma disconnect_before_connect (cfg : LiveClientConfig) :
  disconnect (new cfg) = (Normal tt, new cfg, [])
  /\ torn_down (new cfg) = true.
Proof.
  split; reflexivity.
Qed.

(** C6.  The claim fails on a second call: with the connection open and the
    microphone captured, a first [disconnect] completes normally and leaves
    nothing active, but it keeps the references to the two closed contexts,
    and the second [disconnect] rejects with the InvalidStateError of closing
    a closed context.  The same happens when the first call comes between
    [connect] and the opening of the connection. *)
Theorem disconnect_twice_rejects :
  let cfg := config_with (fun _ => Normal Undefined) in
  (let first := disconnect (opened cfg) in
   outcome_of first = Normal tt
   /\ torn_down (state_after first) = true
   /\ outcome_of (disconnect (state_after first)) = Throw InvalidStateError)
  /\ (let first := disconnect (connecting cfg) in
      outcome_of first = Normal tt
      /\ torn_down (state_after first) = true
      /\ outcome_of (disconnect (state_after first))
         = Throw InvalidStateError).
Proof.
  intros cfg. split; repeat split; reflexivity.
Qed.

End Teardown.

(** ** The image edit service *)

Section EditImage.
Import Js Genai GeminiApi.
Local Open Scope string_scope.

Lemma descriptive_intro (text : string) :
  text <> "" -> descriptive (Error text).
Proof. intros H. exists text. split; [reflexivity | exact H]. Qed.

(** The loop over the parts stops at the first part with an [inlineData]. *)
Lemma first_inlineData_Some (ps : list Part) (blob : Blob) :
  first_inlineData ps = Some blob ->
  exists before part after,
    ps = (before ++ part :: after)%list
    /\ Forall (fun p => inlineData p = None) before
    /\ inlineData part = Some blob.
Proof.
  induction ps as [| p ps IH]; cbn [first_inlineData]; [discriminate |].
  destruct (inlineData p) as [b |] eqn:Ep.
  - intros H. injection H as <-. exists [], p, ps. auto.
  - intros H. destruct (IH H) as [before [part [after [-> [Hb Hp]]]]].
    exists (p :: before), part, after. auto.
Qed.

Lemma first_inlineData_None (ps : list Part) :
  first_inlineData ps = None -> Forall (fun p => inlineData p = None) ps.
Proof.
  induction ps as [| p ps IH]; cbn [first_inlineData]; [constructor |].
  destruct (inlineData p) eqn:Ep; [discriminate |]. auto.
Qed.

Lemma no_inlineData_no_image (ps : list Part) :
  Forall (fun p => inlineData p = None) ps ->
  Forall (fun p => ~ carries_image_data p) ps.
Proof.
  apply Forall_impl. intros p Hp [blob [d [H _]]]. congruence.
Qed.

(** What becomes of a response whose first image part, if any, has its
    data: an error with a text exactly when the response is unusable in one
    of the listed ways, a PNG data URL of the first image data otherwise. *)
Lemma image_of_response_cases (r : GenerateContentResponse) :
  image_without_data (Normal r) = false ->
  match image_of_response r with
  | Throw e => unusable r /\ descriptive e
  | Normal url => ~ unusable r /\ png_data_url r url
  end.
Proof.
  destruct r as [[[| [fr ct] rest] |]]; intros Hdata.
  - (* candidates: [] *)
    cbn. split; [left; reflexivity | apply descriptive_intro; discriminate].
  - unfold image_of_response. cbn [candidates finishReason content].
    destruct ct as [[[[| part ps] |]] |].
    + (* parts: [] *)
      assert (U : unusable (mkResponse (Some (mkCandidate fr
                   (Some (mkContent (Some []))) :: rest)))).
      { right. eexists. split; [reflexivity |]. right. left. reflexivity. }
      destruct fr as [reason |]; cbn;
        [destruct (negb (reason =? "") && negb (reason =? "STOP") && true) |];
        (split; [exact U | apply descriptive_intro; discriminate]).
    + (* parts: part :: ps *)
      replace (match fr with
               | Some reason =>
                   negb (reason =? "") && negb (reason =? "STOP")
                   && no_parts (mkCandidate fr
                                  (Some (mkContent (Some (part :: ps)))))
               | None => false
               end) with false
        by (destruct fr; cbn; rewrite ?Bool.andb_false_r; reflexivity).
      cbn [option_map parts].
      unfold image_without_data in Hdata.
      cbn [first_candidate candidates option_map content parts] in Hdata.
      destruct (first_inlineData (part :: ps)) as [blob |] eqn:Eblob.
      * destruct (data blob) as [d |] eqn:Ed; [| discriminate Hdata].
        destruct (first_inlineData_Some _ _ Eblob)
          as [before [p [after [Eps [Hbefore Hp]]]]].
        cbn [interpolate]. split.
        -- intros [Hno | [candidate [Hc [Href | [Hparts | Himg]]]]].
           ++ discriminate Hno.
           ++ injection Hc as <-. destruct Href as [_ H]. discriminate H.
           ++ injection Hc as <-. discriminate Hparts.
           ++ injection Hc as <-. destruct Himg as [ps' [Hps Hnone]].
              cbn in Hps. injection Hps as <-. rewrite Eps in Hnone.
              apply Forall_app, proj2 in Hnone.
              apply (Forall_inv Hnone). exists blob, d. auto.
        -- eexists. exists before, p, after, blob, d.
           split; [reflexivity |]. cbn [option_map content parts].
           rewrite Eps. repeat split; try assumption.
           apply no_inlineData_no_image. exact Hbefore.
      * split; [| apply descriptive_intro; discriminate].
        right. eexists. split; [reflexivity |]. right. right.
        exists (part :: ps). split; [reflexivity |].
        apply no_inlineData_no_image, first_inlineData_None. exact Eblob.
    + (* parts: undefined *)
      assert (U : unusable (mkResponse (Some (mkCandidate fr
                   (Some (mkContent None)) :: rest)))).
      { right. eexists. split; [reflexivity |]. right. left. reflexivity. }
      destruct fr as [reason |]; cbn;
        [destruct (negb (reason =? "") && negb (reason =? "STOP") && true) |];
        (split; [exact U | apply descriptive_intro; discriminate]).
    + (* content: undefined *)
      assert (U : unusable (mkResponse (Some (mkCandidate fr None :: rest)))).
      { right. eexists. split; [reflexivity |]. right. left. reflexivity. }
      destruct fr as [reason |]; cbn;
        [destruct (negb (reason =? "") && negb (reason =? "STOP") && true) |];
        (split; [exact U | apply descriptive_intro; discriminate]).
  - (* candidates: undefined *)
    cbn. split; [left; reflexivity | apply descriptive_intro; discriminate].
Qed.

(** A finish reason other than STOP with no content is reported as a
    refusal that names the reason. *)
Lemma image_of_response_refused (r : GenerateContentResponse)
    (candidate : Candidate) (reason : string) :
  first_candidate r = Some candidate ->
  finishReason candidate = Some reason ->
  reason <> "" -> reason <> "STOP" ->
  no_parts candidate = true ->
  image_of_response r
  = Throw (Error ("Gemini refused to generate content. Reason: " ++ reason)).
Proof.
  intros Hc Hr Hne Hstop Hparts.
  destruct r as [[[| c0 rest] |]]; try discriminate Hc.
  injection Hc as ->. unfold image_of_response. cbn [candidates].
  rewrite Hr, Hparts.
  apply String.eqb_neq in Hne, Hstop. rewrite Hne, Hstop. reflexivity.
Qed.

(** The part both revisions share: the awaited call and what is made of
    its response. *)
Lemma answered_cases (sent : completion GenerateContentResponse) :
  image_without_data sent = false ->
  let result := match sent with
                | Normal response => image_of_response response
                | Throw error => Throw error
                end in
  (rejects result <->
   rejects sent \/ exists r, sent = Normal r /\ unusable r)
  /\ (forall url, result = Normal url ->
                  exists r, sent = Normal r /\ png_data_url r url)
  /\ (forall e r, sent = Normal r -> result = Throw e -> descriptive e)
  /\ (forall e, sent = Throw e -> result = Throw e).
Proof.
  destruct sent as [r | e0]; intros Hdata; cbv zeta.
  - pose proof (image_of_response_cases r Hdata) as H.
    destruct (image_of_response r) as [url | e].
    + destruct H as [Hok Hurl]. repeat split.
      * intros [e He]. discriminate He.
      * intros [[e He] | [r' [Hr' Hun]]]; [discriminate He |].
        injection Hr' as <-. contradiction.
      * intros url' Hu. injection Hu as <-. exists r. auto.
      * intros e r' _ He. discriminate He.
      * intros e He. discriminate He.
    + destruct H as [Hun Hdesc]. repeat split.
      * intros _. right. exists r. split; [reflexivity | exact Hun].
      * intros _. exists e. reflexivity.
      * intros url Hu. discriminate Hu.
      * intros e' r' _ He. injection He as <-. exact Hdesc.
      * intros e' He. discriminate He.
  - repeat split.
    + intros _. left. exists e0. reflexivity.
    + intros _. exists e0. reflexivity.
    + intros url Hu. discriminate Hu.
    + intros e r Hr. discriminate Hr.
    + intros e He. injection He as <-. reflexivity.
Qed.

(** C7 (as amended).  Leaving aside an answer whose first part with an
    [inlineData] has no [data] in it, the revision of [editImage] that takes
    the credential rejects exactly when the credential is missing, or the
    remote request itself rejects (its error is thrown again as it is), or
    the response has no candidate, or its first candidate has a finish
    reason other than STOP and no content, or content without parts, or no
    part that carries inline image data; the errors it makes itself carry a
    text.  In every other case it resolves with
    [data:image/png;base64,<data>], the data being that of the first part
    that carries some.  The revision App.tsx imports makes no credential
    check of its own (the key of the environment goes to the SDK as it is)
    and is the same otherwise. *)
Theorem editImage_outcomes (env_API_KEY apiKey : option string)
    (remote : Remote) (base64Image prompt : string) :
  let key := LiveClient.first_truthy apiKey env_API_KEY in
  let request := build_request base64Image prompt in
  let keyed :=
    GeminiServiceKeyed.editImage env_API_KEY remote base64Image prompt apiKey in
  let imported :=
    GeminiService.editImage env_API_KEY remote base64Image prompt in
  image_without_data (remote key request) = false ->
  image_without_data (remote env_API_KEY request) = false ->
  (rejects keyed <->
   credential_missing apiKey env_API_KEY
   \/ rejects (remote key request)
   \/ exists r, remote key request = Normal r /\ unusable r)
  /\ (credential_missing apiKey env_API_KEY ->
      exists e, keyed = Throw e /\ descriptive e)
  /\ (forall e r, remote key request = Normal r -> keyed = Throw e ->
                  descriptive e)
  /\ (forall e, ~ credential_missing apiKey env_API_KEY ->
                remote key request = Throw e -> keyed = Throw e)
  /\ (~ rejects keyed ->
      exists r url, remote key request = Normal r
                    /\ keyed = Normal url /\ png_data_url r url)
  /\ (rejects imported <->
      rejects (remote env_API_KEY request)
      \/ exists r, remote env_API_KEY request = Normal r /\ unusable r)
  /\ (~ rejects imported ->
      exists r url, remote env_API_KEY request = Normal r
                    /\ imported = Normal url /\ png_data_url r url).
Proof.
  intros key request keyed imported Hkeyed Himported.
  assert (Hresolve : forall (sent : completion GenerateContentResponse)
                            (result : completion string),
             (forall url, result = Normal url ->
                          exists r, sent = Normal r /\ png_data_url r url) ->
             ~ rejects result ->
             exists r url, sent = Normal r
                           /\ result = Normal url /\ png_data_url r url).
  { intros sent [url | e] Hurl Hnot.
    - destruct (Hurl url eq_refl) as [r [Hr Hpng]]. exists r, url. auto.
    - exfalso. apply Hnot. exists e. reflexivity. }
  destruct (answered_cases (remote key request) Hkeyed) as [K1 [K2 [K3 K4]]].
  destruct (answered_cases (remote env_API_KEY request) Himported)
    as [I1 [I2 _]].
  cbv zeta in K1, K2, K3, K4, I1, I2.
  unfold keyed, imported, GeminiServiceKeyed.editImage,
    GeminiService.editImage, credential_missing.
  fold key. fold request.
  destruct (LiveClient.is_truthy key) eqn:Ekey; cbn [negb].
  - split; [| split; [| split; [| split; [| split; [| split]]]]].
    + rewrite K1. split.
      * intros H. right. exact H.
      * intros [H | H]; [discriminate H | exact H].
    + intros H. discriminate H.
    + exact K3.
    + intros e _. apply K4.
    + apply Hresolve. exact K2.
    + exact I1.
    + apply Hresolve. exact I2.
  - split; [| split; [| split; [| split; [| split; [| split]]]]].
    + split.
      * intros _. left. reflexivity.
      * intros _. eexists. reflexivity.
    + intros _. eexists. split; [reflexivity |].
      apply descriptive_intro. discriminate.
    + intros e r _ He. injection He as <-.
      apply descriptive_intro. discriminate.
    + intros e Hkey. exfalso. apply Hkey. reflexivity.
    + intros Hnot. exfalso. apply Hnot. eexists. reflexivity.
    + exact I1.
    + apply Hresolve. exact I2.
Qed.

Lemma editImage_outcomes_witness :
  let remote := remote_image "iVBORw0KGgo=" in
  let base64Image := "data:image/jpeg;base64,/9j/4AAQSkZJRg==" in
  let request := build_request base64Image "remove background" in
  let keyed :=
    GeminiServiceKeyed.editImage None remote base64Image "remove background"
      (Some "key") in
  image_without_data (remote (Some "key") request) = false
  /\ image_without_data (remote None request) = false
  /\ (~ rejects keyed ->
      exists r url, remote (Some "key") request = Normal r
                    /\ keyed = Normal url /\ png_data_url r url).
Proof.
  intros remote base64Image request keyed.
  split; [reflexivity |]. split; [reflexivity |].
  exact (proj1 (proj2 (proj2 (proj2 (proj2
           (editImage_outcomes None (Some "key") remote base64Image
              "remove background" eq_refl eq_refl)))))).
Defined.

(** C7 (as stated) fails: with a credential, a remote request that rejects
    makes [editImage] reject, and none of the listed conditions holds: the
    credential is there and there is no response to find wanting. *)
Lemma editImage_rejects_on_remote_failure :
  let result :=
    GeminiServiceKeyed.editImage None remote_down
      "data:image/png;base64,iVBORw0KGgo=" "remove background" (Some "key") in
  result = Throw (Error "Failed to fetch")
  /\ ~ (credential_missing (Some "key") None
        \/ exists r,
             remote_down (Some "key")
               (build_request "data:image/png;base64,iVBORw0KGgo="
                              "remove background") = Normal r
             /\ unusable r).
Proof.
  split; [reflexivity |].
  intros [H | [r [H _]]]; discriminate H.
Qed.

(** The answer left aside in C7: the loop over the parts tests
    [part.inlineData] and not its [data], so a part whose [inlineData] has
    no [data] makes both revisions resolve, with the text [undefined] where
    the data should be. *)
Example editImage_image_without_data :
  image_without_data
    (remote_image_without_data (Some "key")
       (build_request "data:image/png;base64,iVBORw0KGgo="
          "remove background")) = true
  /\ GeminiServiceKeyed.editImage None remote_image_without_data
       "data:image/png;base64,iVBORw0KGgo=" "remove background" (Some "key")
     = Normal "data:image/png;base64,undefined"
  /\ GeminiService.editImage (Some "key") remote_image_without_data
       "data:image/png;base64,iVBORw0KGgo=" "remove background"
     = Normal "data:image/png;base64,undefined".
Proof. repeat split. Qed.

End EditImage.

(** ** The controller's edit history *)

Section EditHistory.
Import Js App.
Local Open Scope string_scope.

Lemma slice0_firstn {A} (l : list A) (k : Z) :
  (0 <= k <= Z.of_nat (List.length l))%Z ->
  slice0 l k = firstn (Z.to_nat k) l.
Proof.
  intros Hk. unfold slice0.
  destruct (k <? 0)%Z eqn:E; [apply Z.ltb_lt in E; lia |].
  rewrite Z.min_l by lia. reflexivity.
Qed.

(** A successful edit, with the index of the render in range: the redo
    branch past the index is cut, the new item is appended, and the index
    moves onto it. *)
Lemma edit_truncates_redo (w : Ambient) (txt enhancedImage : string)
    (s : State) :
  (-1 <= historyIndex s < Z.of_nat (List.length (history s)))%Z ->
  let s' := fst (handleExternalEdit_settled w s txt (Normal enhancedImage) s) in
  history s'
  = (firstn (Z.to_nat (historyIndex s + 1)) (history s)
       ++ [mkItem (random_id w) enhancedImage txt (now w)])%list
  /\ historyIndex s' = (historyIndex s + 1)%Z
  /\ historyIndex s' = (Z.of_nat (List.length (history s')) - 1)%Z
  /\ currentImage s' = Some enhancedImage.
Proof.
  intros Hidx. cbn.
  rewrite slice0_firstn by lia.
  repeat split.
  rewrite length_app, length_firstn. cbn [List.length]. lia.
Qed.

(** Undo and redo outside their guards do nothing. *)
Lemma undo_guard (w : Ambient) (s : State) :
  (historyIndex s <= 0)%Z -> handleUndo w s s = (Normal tt, s).
Proof.
  intros H. unfold handleUndo.
  destruct (0 <? historyIndex s)%Z eqn:E; [apply Z.ltb_lt in E; lia |].
  reflexivity.
Qed.

Lemma redo_guard (w : Ambient) (s : State) :
  (Z.of_nat (List.length (history s)) - 1 <= historyIndex s)%Z ->
  handleRedo w s s = (Normal tt, s).
Proof.
  intros H. unfold handleRedo.
  destruct (historyIndex s <? Z.of_nat (List.length (history s)) - 1)%Z
    eqn:E; [apply Z.ltb_lt in E; lia |].
  reflexivity.
Qed.

Lemma index_in_range {A} (l : list A) (i : Z) :
  (0 <= i < Z.of_nat (List.length l))%Z ->
  exists x, index l i = Some x /\ nth_error l (Z.to_nat i) = Some x.
Proof.
  intros Hi. unfold index.
  destruct (i <? 0)%Z eqn:E; [apply Z.ltb_lt in E; lia |].
  destruct (nth_error l (Z.to_nat i)) as [x |] eqn:En.
  - exists x. split; reflexivity.
  - apply nth_error_None in En. lia.
Qed.

(** Undo and redo inside their guards step the index and show the item
    there. *)
Lemma undo_steps_back (w : Ambient) (s : State) :
  (0 < historyIndex s <= Z.of_nat (List.length (history s)))%Z ->
  exists item s',
    nth_error (history s) (Z.to_nat (historyIndex s - 1)) = Some item
    /\ handleUndo w s s = (Normal tt, s')
    /\ historyIndex s' = (historyIndex s - 1)%Z
    /\ currentImage s' = Some (url item)
    /\ history s' = history s.
Proof.
  intros H. unfold handleUndo.
  destruct (0 <? historyIndex s)%Z eqn:E; [| apply Z.ltb_ge in E; lia].
  destruct (index_in_range (history s) (historyIndex s - 1)) as [item [Hi Hn]];
    [lia |].
  cbn [history setHistoryIndex]. rewrite Hi.
  exists item. eexists. split; [exact Hn |]. split; [reflexivity |].
  repeat split.
Qed.

Lemma redo_steps_forward (w : Ambient) (s : State) :
  (-1 <= historyIndex s < Z.of_nat (List.length (history s)) - 1)%Z ->
  exists item s',
    nth_error (history s) (Z.to_nat (historyIndex s + 1)) = Some item
    /\ handleRedo w s s = (Normal tt, s')
    /\ historyIndex s' = (historyIndex s + 1)%Z
    /\ currentImage s' = Some (url item)
    /\ history s' = history s.
Proof.
  intros H. unfold handleRedo.
  destruct (historyIndex s <? Z.of_nat (List.length (history s)) - 1)%Z
    eqn:E; [| apply Z.ltb_ge in E; lia].
  destruct (index_in_range (history s) (historyIndex s + 1)) as [item [Hi Hn]];
    [lia |].
  cbn [history setHistoryIndex]. rewrite Hi.
  exists item. eexists. split; [exact Hn |]. split; [reflexivity |].
  repeat split.
Qed.

(** Two edits made through one render (the tool handler of a live session
    is created once and keeps the render of that moment): the second edit
    cuts the history at the index of that render, while the index is counted
    up from its current value. *)
Remark edits_from_one_render (w : Ambient) (A B C txt : string) :
  let s1 := handleImageSelected w initial "a.jpg" A initial in
  let s2 := fst (handleExternalEdit_settled w s1 txt (Normal B) s1) in
  let s3 := fst (handleExternalEdit_settled w s1 txt (Normal C) s2) in
  map url (history s3) = [A; C] /\ historyIndex s3 = 2%Z.
Proof.
  split; reflexivity.
Qed.

(** C9.  After the upload of image A the history is [A] with index 0; a
    successful edit that returns B makes it [A, B] with index 1 and B the
    current image; undo then shows A at index 0 and redo B at index 1, the
    history staying [A, B].  In general a successful edit first cuts the redo
    branch past the index, undo does nothing unless the index is above 0, and
    redo does nothing unless the index is below the last position. *)
Theorem edit_history_scenario (w1 w2 w3 w4 : Ambient)
    (env_API_KEY : option string) (remote : GeminiApi.Remote)
    (s0 : State) (fileName A B txt : string) :
  GeminiService.editImage env_API_KEY remote A txt = Normal B ->
  let s1 := handleImageSelected w1 s0 fileName A s0 in
  let s2 := fst (handleExternalEdit w2 env_API_KEY remote s1 A txt s1) in
  (map url (history s1) = [A] /\ historyIndex s1 = 0%Z
   /\ currentImage s1 = Some A)
  /\ (map url (history s2) = [A; B] /\ historyIndex s2 = 1%Z
      /\ currentImage s2 = Some B)
  /\ (exists s3 s4,
         handleUndo w3 s2 s2 = (Normal tt, s3)
         /\ currentImage s3 = Some A /\ historyIndex s3 = 0%Z
         /\ map url (history s3) = [A; B]
         /\ handleRedo w4 s3 s3 = (Normal tt, s4)
         /\ currentImage s4 = Some B /\ historyIndex s4 = 1%Z
         /\ map url (history s4) = [A; B])
  /\ (forall (w : Ambient) (s : State) (image : string),
         (-1 <= historyIndex s < Z.of_nat (List.length (history s)))%Z ->
         let s' := fst (handleExternalEdit_settled w s txt (Normal image) s) in
         map url (history s')
         = (firstn (Z.to_nat (historyIndex s + 1)) (map url (history s))
              ++ [image])%list
         /\ historyIndex s' = (historyIndex s + 1)%Z)
  /\ (forall (w : Ambient) (s : State),
         (historyIndex s <= 0)%Z -> handleUndo w s s = (Normal tt, s))
  /\ (forall (w : Ambient) (s : State),
         (Z.of_nat (List.length (history s)) - 1 <= historyIndex s)%Z ->
         handleRedo w s s = (Normal tt, s)).
Proof.
  intros Hedit s1 s2.
  assert (E2 : s2 = fst (handleExternalEdit_settled w2 s1 txt (Normal B)
                           (setAppState ANALYZING s1))).
  { unfold s2, handleExternalEdit. rewrite Hedit. reflexivity. }
  split; [repeat split |].
  split; [rewrite E2; repeat split |].
  split.
  - rewrite E2. eexists. eexists.
    split; [reflexivity |]. split; [reflexivity |].
    split; [reflexivity |]. split; [reflexivity |].
    split; [reflexivity |]. repeat split.
  - split; [| split; [exact undo_guard | exact redo_guard]].
    intros w s image Hidx s'.
    destruct (edit_truncates_redo w txt image s Hidx) as [H1 [H2 _]].
    fold s' in H1, H2. split; [| exact H2].
    rewrite H1, map_app, firstn_map. reflexivity.
Qed.

Lemma edit_history_scenario_witness :
  let w := mkAmbient "k3x9" "a1b2c3d" 1700000000000 "12:00" in
  let A := "data:image/jpeg;base64,AAAA" in
  let B := "data:image/png;base64,BBBB" in
  let s1 := handleImageSelected w initial "a.jpg" A initial in
  let s2 := fst (handleExternalEdit w (Some "key") (remote_image "BBBB") s1 A
                   "remove background" s1) in
  map url (history s2) = [A; B] /\ historyIndex s2 = 1%Z
  /\ currentImage s2 = Some B.
Proof.
  intros w A B s1 s2.
  destruct (edit_history_scenario w w w w (Some "key") (remote_image "BBBB")
              initial "a.jpg" A B "remove background" eq_refl)
    as [_ [H _]].
  exact H.
Defined.

(** C10.  When [editImage] rejects, [handleExternalEdit] resolves with
    ["Failed to edit image"] and the history, the index and the current image
    are what they were: nothing of the edit is recorded.  This holds for the
    state at the time the rejection arrives, whatever it is. *)
Theorem failed_edit_leaves_history (w : Ambient)
    (env_API_KEY : option string) (remote : GeminiApi.Remote)
    (render s : State) (img txt : string) (e : Js.error) :
  GeminiService.editImage env_API_KEY remote img txt = Throw e ->
  (let r := handleExternalEdit w env_API_KEY remote render img txt s in
   history (fst r) = history s
   /\ historyIndex (fst r) = historyIndex s
   /\ currentImage (fst r) = currentImage s
   /\ snd r = "Failed to edit image")
  /\ (forall s' : State,
         let r := handleExternalEdit_settled w render txt (Throw e) s' in
         history (fst r) = history s'
         /\ historyIndex (fst r) = historyIndex s'
         /\ currentImage (fst r) = currentImage s'
         /\ snd r = "Failed to edit image").
Proof.
  intros Hedit. split.
  - unfold handleExternalEdit. rewrite Hedit. repeat split.
  - intros s'. repeat split.
Qed.

Lemma failed_edit_leaves_history_witness :
  let w := mkAmbient "k3x9" "a1b2c3d" 1700000000000 "12:00" in
  let A := "data:image/jpeg;base64,AAAA" in
  let s1 := handleImageSelected w initial "a.jpg" A initial in
  let r := handleExternalEdit w (Some "key") remote_down s1 A
             "remove background" s1 in
  history (fst r) = history s1
  /\ historyIndex (fst r) = 0%Z
  /\ currentImage (fst r) = Some A
  /\ snd r = "Failed to edit image".
Proof.
  intros w A s1 r.
  destruct (failed_edit_leaves_history w (Some "key") remote_down s1 s1 A
              "remove background" (Error "Failed to fetch") eq_refl)
    as [H _].
  exact H.
Defined.

End EditHistory.

(* ===================================================================== *)
(** * Further properties of the code *)
(* ===================================================================== *)

(** ** Base64: encoding and decoding *)

Section Base64RoundTrip.
Import Js Base64 Base64Encoding.
Local Open Scope Z_scope.

(** Induction over a list, three elements at a time. *)
Lemma list_ind3 {A} (P : list A -> Prop) :
  P [] -> (forall a, P [a]) -> (forall a b, P [a; b]) ->
  (forall a b c rest, P rest -> P (a :: b :: c :: rest)) ->
  forall l, P l.
Proof.
  intros H0 H1 H2 H3. fix IH 1.
  intros [| a [| b [| c rest]]];
    [exact H0 | apply H1 | apply H2 | apply H3; apply IH].
Qed.

Lemma digit_table :
  forallb (fun n =>
             let v := Z.of_nat n in
             match sextet (digit v) with
             | Some u => u =? v
             | None => false
             end
             && negb (is_ascii_whitespace (digit v))
             && negb (Ascii.eqb (digit v) "="))
          (seq 0 64) = true.
Proof. vm_compute. reflexivity. Qed.

Lemma digit_facts (v : Z) :
  0 <= v < 64 ->
  sextet (digit v) = Some v
  /\ is_ascii_whitespace (digit v) = false
  /\ Ascii.eqb (digit v) "=" = false.
Proof.
  intros Hv. pose proof digit_table as T.
  rewrite forallb_forall in T. specialize (T (Z.to_nat v)).
  rewrite Z2Nat.id in T by lia. cbv zeta in T.
  assert (Hin : In (Z.to_nat v) (seq 0 64)) by (apply in_seq; lia).
  specialize (T Hin).
  apply andb_prop in T. destruct T as [T T3].
  apply andb_prop in T. destruct T as [T1 T2].
  destruct (sextet (digit v)) as [u |]; [| discriminate].
  apply Z.eqb_eq in T1. subst u.
  repeat split.
  - now apply negb_true_iff in T2.
  - now apply negb_true_iff in T3.
Qed.

Lemma sextets_of_range (bs : list Z) :
  Forall is_byte bs -> Forall (fun v => 0 <= v < 64) (sextets_of bs).
Proof.
  unfold is_byte. induction bs as [| a | a b | a b c rest IH] using list_ind3;
    intros H; cbn [sextets_of].
  - constructor.
  - inversion H as [| ? ? Ha _]; subst.
    repeat constructor; Z.div_mod_to_equations; lia.
  - inversion H as [| ? ? Ha H']; subst.
    inversion H' as [| ? ? Hb _]; subst.
    repeat constructor; Z.div_mod_to_equations; lia.
  - inversion H as [| ? ? Ha H']; subst.
    inversion H' as [| ? ? Hb H'']; subst.
    inversion H'' as [| ? ? Hc Hrest]; subst.
    repeat (constructor; [Z.div_mod_to_equations; lia |]).
    apply IH. exact Hrest.
Qed.

(** The decoder undoes the grouping of the encoder. *)
Lemma octets_sextets_of (bs : list Z) :
  Forall is_byte bs -> octets (sextets_of bs) = bs.
Proof.
  unfold is_byte. induction bs as [| a | a b | a b c rest IH] using list_ind3;
    intros H.
  - reflexivity.
  - inversion H as [| ? ? Ha _]; subst. cbn [sextets_of octets].
    f_equal. Z.div_mod_to_equations; lia.
  - inversion H as [| ? ? Ha H']; subst.
    inversion H' as [| ? ? Hb _]; subst. cbn [sextets_of octets].
    f_equal; [| f_equal]; Z.div_mod_to_equations; lia.
  - inversion H as [| ? ? Ha H']; subst.
    inversion H' as [| ? ? Hb H'']; subst.
    inversion H'' as [| ? ? Hc Hrest]; subst.
    cbn [sextets_of octets]. rewrite (IH Hrest).
    f_equal; [| f_equal; [| f_equal]]; Z.div_mod_to_equations; lia.
Qed.

Lemma encode_split (bs : list Z) :
  encode bs = (map digit (sextets_of bs) ++ padding_of bs)%list.
Proof.
  induction bs as [| a | a b | a b c rest IH] using list_ind3;
    try reflexivity.
  cbn [encode sextets_of padding_of map app]. rewrite IH. reflexivity.
Qed.

Lemma padding_of_cases (bs : list Z) :
  padding_of bs = [] \/ padding_of bs = ["="%char]
  \/ padding_of bs = ["="%char; "="%char].
Proof.
  induction bs as [| a | a b | a b c rest IH] using list_ind3; cbn; auto.
Qed.

Lemma encode_length (bs : list Z) :
  (Z.of_nat (List.length (encode bs)) mod 4 = 0)%Z.
Proof.
  induction bs as [| a | a b | a b c rest IH] using list_ind3;
    try reflexivity.
  cbn [encode List.length].
  rewrite !Nat2Z.inj_succ. Z.div_mod_to_equations. lia.
Qed.

Lemma sextets_of_length (bs : list Z) :
  (Z.of_nat (List.length (sextets_of bs)) mod 4 <> 1)%Z.
Proof.
  induction bs as [| a | a b | a b c rest IH] using list_ind3;
    try (cbn; discriminate).
  cbn [sextets_of List.length].
  rewrite !Nat2Z.inj_succ. Z.div_mod_to_equations. lia.
Qed.

Lemma sextets_digits (vs : list Z) :
  Forall (fun v => 0 <= v < 64) vs -> sextets (map digit vs) = Some vs.
Proof.
  induction 1 as [| v vs Hv _ IH]; [reflexivity |].
  cbn [map sextets]. destruct (digit_facts v Hv) as [-> _]. rewrite IH.
  reflexivity.
Qed.

Lemma filter_digits (vs : list Z) (pad : list ascii) :
  Forall (fun v => 0 <= v < 64) vs ->
  pad = [] \/ pad = ["="%char] \/ pad = ["="%char; "="%char] ->
  filter (fun c => negb (is_ascii_whitespace c)) (map digit vs ++ pad)
  = (map digit vs ++ pad)%list.
Proof.
  intros Hvs Hpad. induction Hvs as [| v vs Hv _ IH].
  - destruct Hpad as [-> | [-> | ->]]; reflexivity.
  - cbn [map app filter]. destruct (digit_facts v Hv) as [_ [-> _]].
    cbn [negb]. rewrite IH. reflexivity.
Qed.

(** What the padding test of [atob] does on a reversed list, by its first
    characters. *)
Lemma unpad_other (x : ascii) (r cs : list ascii) :
  Ascii.eqb x "=" = false ->
  match x :: r with
  | "="%char :: "="%char :: r' => rev r'
  | "="%char :: r' => rev r'
  | _ => cs
  end = cs.
Proof.
  destruct x as [[|] [|] [|] [|] [|] [|] [|] [|]]; intros H;
    try reflexivity; discriminate H.
Qed.

Lemma unpad_one (x : ascii) (r cs : list ascii) :
  Ascii.eqb x "=" = false ->
  match "="%char :: x :: r with
  | "="%char :: "="%char :: r' => rev r'
  | "="%char :: r' => rev r'
  | _ => cs
  end = rev (x :: r).
Proof.
  destruct x as [[|] [|] [|] [|] [|] [|] [|] [|]]; intros H;
    try reflexivity; discriminate H.
Qed.

Lemma rev_digits_head (vs : list Z) :
  Forall (fun v => 0 <= v < 64) vs ->
  rev (map digit vs) = []
  \/ exists x r, rev (map digit vs) = x :: r /\ Ascii.eqb x "=" = false.
Proof.
  intros Hvs. destruct (rev (map digit vs)) as [| x r] eqn:E; [left; auto |].
  right. exists x, r. split; [reflexivity |].
  assert (Hin : In x (map digit vs)).
  { apply in_rev. rewrite E. left. reflexivity. }
  apply in_map_iff in Hin. destruct Hin as [v [<- Hv]].
  rewrite Forall_forall in Hvs. apply (digit_facts v (Hvs v Hv)).
Qed.

Lemma strip_padding_digits (vs : list Z) (pad : list ascii) :
  Forall (fun v => 0 <= v < 64) vs ->
  pad = [] \/ pad = ["="%char] \/ pad = ["="%char; "="%char] ->
  (Z.of_nat (List.length (map digit vs ++ pad)) mod 4 = 0)%Z ->
  strip_padding (map digit vs ++ pad) = map digit vs.
Proof.
  intros Hvs Hpad Hlen. unfold strip_padding.
  rewrite Hlen. cbn [Z.eqb]. rewrite rev_app_distr.
  destruct (rev_digits_head vs Hvs) as [E | [x [r [E Hx]]]];
    destruct Hpad as [-> | [-> | ->]]; cbn [rev app]; rewrite E.
  - rewrite app_nil_r. apply (f_equal (@rev ascii)) in E.
    rewrite rev_involutive in E. rewrite E. reflexivity.
  - apply (f_equal (@rev ascii)) in E. rewrite rev_involutive in E.
    rewrite E. reflexivity.
  - apply (f_equal (@rev ascii)) in E. rewrite rev_involutive in E.
    rewrite E. reflexivity.
  - rewrite app_nil_r. cbn [app]. apply unpad_other. exact Hx.
  - cbn [app]. rewrite (unpad_one x r (map digit vs ++ ["="%char]) Hx), <- E.
    apply rev_involutive.
  - cbn [app]. rewrite <- E. apply rev_involutive.
Qed.

(** [atob] undoes [btoa] on the characters of a byte list. *)
Lemma atob_encode (bs : list Z) :
  Forall is_byte bs ->
  atob (string_of_list_ascii (encode bs))
  = Normal (string_of_list_ascii
              (map (fun b => ascii_of_N (Z.to_N b)) bs)).
Proof.
  intros Hbs. unfold atob.
  rewrite list_ascii_of_string_of_list_ascii.
  pose proof (sextets_of_range bs Hbs) as Hvs.
  pose proof (encode_length bs) as Hlen.
  rewrite encode_split in *.
  rewrite (filter_digits _ _ Hvs (padding_of_cases bs)).
  rewrite (strip_padding_digits _ _ Hvs (padding_of_cases bs) Hlen).
  rewrite length_map.
  destruct (Z.of_nat (List.length (sextets_of bs)) mod 4 =? 1) eqn:E.
  - apply Z.eqb_eq in E. exfalso. exact (sextets_of_length bs E).
  - rewrite (sextets_digits _ Hvs), (octets_sextets_of bs Hbs). reflexivity.
Qed.

End Base64RoundTrip.

Section CaptureEncoding.
Import Js LiveClient LiveCapture.
Local Open Scope Z_scope.

Lemma code_fromCharCode (b : Z) :
  is_byte b -> Base64.code (fromCharCode b) = b.
Proof.
  unfold is_byte, Base64.code, fromCharCode. intros Hb.
  rewrite N_ascii_embedding by lia. apply Z2N.id. lia.
Qed.

Lemma codes_fromCharCodes (buffer : list Z) :
  Forall is_byte buffer ->
  map Base64.code (map fromCharCode buffer) = buffer.
Proof.
  induction 1 as [| b buffer Hb _ IH]; [reflexivity |].
  cbn [map]. rewrite (code_fromCharCode b Hb), IH. reflexivity.
Qed.

Lemma decode_encoded_buffer (buffer : TypedArray.ArrayBuffer) :
  Forall is_byte buffer ->
  base64ToArrayBuffer (arrayBufferToBase64 buffer) = Normal buffer.
Proof.
  intros Hb. unfold base64ToArrayBuffer, arrayBufferToBase64.
  unfold Base64Encoding.btoa.
  rewrite list_ascii_of_string_of_list_ascii, (codes_fromCharCodes _ Hb).
  rewrite (atob_encode buffer Hb).
  rewrite list_ascii_of_string_of_list_ascii.
  change (map Base64.code (map (fun b => ascii_of_N (Z.to_N b)) buffer))
    with (map Base64.code (map fromCharCode buffer)).
  rewrite (codes_fromCharCodes _ Hb). reflexivity.
Qed.

Lemma string_of_list_ascii_length (cs : list ascii) :
  String.length (string_of_list_ascii cs) = List.length cs.
Proof.
  induction cs as [| c cs IH]; cbn; [reflexivity | now rewrite IH].
Qed.

Lemma encode_length_exact (bs : list Z) :
  Z.of_nat (List.length (Base64Encoding.encode bs))
  = 4 * ((Z.of_nat (List.length bs) + 2) / 3).
Proof.
  induction bs as [| a | a b | a b c rest IH] using list_ind3;
    try reflexivity.
  cbn [Base64Encoding.encode List.length].
  rewrite !Nat2Z.inj_succ, IH. Z.div_mod_to_equations. lia.
Qed.

(** X1.  [arrayBufferToBase64] turns a buffer of n bytes into a text of
    4 * ceil(n / 3) characters, and decoding that text with
    [base64ToArrayBuffer] gives the buffer back, byte for byte, whatever its
    length. *)
Theorem base64_buffer_round_trip (buffer : TypedArray.ArrayBuffer) :
  Forall is_byte buffer ->
  base64ToArrayBuffer (arrayBufferToBase64 buffer) = Normal buffer
  /\ Z.of_nat (String.length (arrayBufferToBase64 buffer))
     = 4 * ((Z.of_nat (List.length buffer) + 2) / 3).
Proof.
  intros Hb. split.
  - apply decode_encoded_buffer. exact Hb.
  - unfold arrayBufferToBase64, Base64Encoding.btoa.
    rewrite string_of_list_ascii_length, list_ascii_of_string_of_list_ascii.
    rewrite (codes_fromCharCodes _ Hb). apply encode_length_exact.
Qed.

Lemma base64_buffer_round_trip_witness :
  Forall is_byte [0; 255; 16; 131] /\
  base64ToArrayBuffer (arrayBufferToBase64 [0; 255; 16; 131])
  = Normal [0; 255; 16; 131]
  /\ String.length (arrayBufferToBase64 [0; 255; 16; 131]) = 8%nat.
Proof.
  assert (H : Forall is_byte [0; 255; 16; 131]).
  { repeat constructor; unfold is_byte; lia. }
  destruct (base64_buffer_round_trip _ H) as [H1 H2].
  split; [exact H |]. split; [exact H1 |]. reflexivity.
Defined.

Lemma Int16Array_buffer_bytes (xs : list Z) :
  Forall is_byte (TypedArray.Int16Array_buffer xs).
Proof.
  unfold TypedArray.Int16Array_buffer, is_byte.
  induction xs as [| x xs IH]; [constructor |].
  cbn [flat_map TypedArray.int16_bytes app].
  constructor; [Z.div_mod_to_equations; lia |].
  constructor; [Z.div_mod_to_equations; lia |]. exact IH.
Qed.

Lemma Int16Array_buffer_length (xs : list Z) :
  List.length (TypedArray.Int16Array_buffer xs) = (2 * List.length xs)%nat.
Proof.
  unfold TypedArray.Int16Array_buffer.
  induction xs as [| x xs IH]; [reflexivity |].
  cbn [flat_map TypedArray.int16_bytes app List.length]. rewrite IH. lia.
Qed.

(** X2.  While the connection promise is held and fulfils, the capture
    callback turns a block of samples into one realtime input tagged
    [audio/pcm;rate=16000], sent after the visualization callback (if there
    is one) got the raw bytes; its data decodes, through base64 and an
    Int16Array, to exactly the int16 samples of [floatTo16BitPCM], two bytes
    per sample. *)
Theorem onaudioprocess_sends_pcm (inputData : list number) (c : t) :
  sessionPromise c = Some Fulfils ->
  let pcmData := Pcm.floatTo16BitPCM inputData in
  exists data : string,
    onaudioprocess inputData c
    = ((if onAudioData (config c)
        then [CallOnAudioData (TypedArray.Int16Array_buffer pcmData)]
        else [])
       ++ [SendRealtimeInput "audio/pcm;rate=16000" data])%list
    /\ base64ToArrayBuffer data
       = Normal (TypedArray.Int16Array_buffer pcmData)
    /\ TypedArray.Int16Array_of_buffer (TypedArray.Int16Array_buffer pcmData)
       = Normal pcmData
    /\ List.length (TypedArray.Int16Array_buffer pcmData)
       = (2 * List.length inputData)%nat.
Proof.
  intros Hs pcmData.
  exists (arrayBufferToBase64 (TypedArray.Int16Array_buffer pcmData)).
  split; [| split; [| split]].
  - unfold onaudioprocess, then_sendRealtimeInput. rewrite Hs. reflexivity.
  - apply decode_encoded_buffer, Int16Array_buffer_bytes.
  - apply Int16Array_of_buffer_buffer. unfold pcmData, Pcm.floatTo16BitPCM.
    apply Forall_map, Forall_forall. intros x _.
    apply floatTo16BitPCM_sample_int16.
  - rewrite Int16Array_buffer_length. unfold pcmData, Pcm.floatTo16BitPCM.
    rewrite length_map. reflexivity.
Qed.

Lemma onaudioprocess_sends_pcm_witness :
  let c := opened (config_with (fun _ => Normal Undefined)) in
  exists data : string,
    onaudioprocess [binary32 1 (-1); Fin (-1); NaN] c
    = [CallOnAudioData [255; 63; 0; 128; 0; 0];
       SendRealtimeInput "audio/pcm;rate=16000" data]
    /\ base64ToArrayBuffer data = Normal [255; 63; 0; 128; 0; 0].
Proof.
  intros c.
  destruct (onaudioprocess_sends_pcm [binary32 1 (-1); Fin (-1); NaN] c
              eq_refl) as [data [H1 [H2 _]]].
  exists data. split; [exact H1 | exact H2].
Defined.

End CaptureEncoding.

(** ** Data URLs: the header and the payload *)

Section DataUrls.
Import Text.
Local Open Scope string_scope.

Lemma all_chars_app (p : ascii -> bool) (a b : string) :
  all_chars p (a ++ b) = all_chars p a && all_chars p b.
Proof.
  induction a as [| c a IH]; cbn; [reflexivity |].
  rewrite IH. apply andb_assoc.
Qed.

Lemma split_from_no_comma (s cur : string) :
  all_chars not_comma s = true -> split_from "," s cur = [cur ++ s].
Proof.
  revert cur. induction s as [| c s IH]; intros cur H; cbn in *.
  - rewrite append_empty_r. reflexivity.
  - apply andb_prop in H. destruct H as [Hc Hs].
    unfold not_comma in Hc. apply negb_true_iff in Hc. rewrite Hc.
    rewrite (IH _ Hs), append_assoc. reflexivity.
Qed.

Lemma split_from_comma (h p cur : string) :
  all_chars not_comma h = true ->
  split_from "," (h ++ String "," p) cur = (cur ++ h) :: split_from "," p "".
Proof.
  revert cur. induction h as [| c h IH]; intros cur H; cbn in *.
  - rewrite append_empty_r. reflexivity.
  - apply andb_prop in H. destruct H as [Hc Hh].
    unfold not_comma in Hc. apply negb_true_iff in Hc. rewrite Hc.
    rewrite (IH _ Hh), append_assoc. reflexivity.
Qed.

(** The piece after the first comma, when there is one and it is followed by
    text without a comma; the whole string when there is no comma. *)
Lemma after_comma_payload (h p : string) :
  all_chars not_comma h = true ->
  all_chars not_comma p = true ->
  p <> "" ->
  after_comma (h ++ String "," p) = p.
Proof.
  intros Hh Hp Hne. unfold after_comma, split.
  rewrite (split_from_comma h p "" Hh), (split_from_no_comma p "" Hp).
  cbn [nth_error append]. apply String.eqb_neq in Hne. rewrite Hne.
  reflexivity.
Qed.

Lemma after_comma_none (s : string) :
  all_chars not_comma s = true -> after_comma s = s.
Proof.
  intros Hs. unfold after_comma, split.
  rewrite (split_from_no_comma s "" Hs). reflexivity.
Qed.

Lemma substring_whole (s : string) : substring 0 (String.length s) s = s.
Proof.
  induction s as [| c s IH]; cbn; [reflexivity | now rewrite IH].
Qed.

Lemma drop_prefix_app (pre r : string) : drop_prefix pre (pre ++ r) = Some r.
Proof.
  unfold drop_prefix. induction pre as [| a pre IH]; cbn.
  - rewrite Nat.sub_0_r, substring_whole.
    destruct r; reflexivity.
  - destruct (ascii_dec a a) as [_ | N]; [| congruence].
    exact IH.
Qed.

Lemma drop_prefix_Some (pre s r : string) :
  drop_prefix pre s = Some r -> s = pre ++ r.
Proof.
  unfold drop_prefix. revert s. induction pre as [| a pre IH]; intros s H.
  - cbn in H. rewrite Nat.sub_0_r, substring_whole in H.
    destruct s; injection H as <-; reflexivity.
  - destruct s as [| b s]; [discriminate H |].
    cbn in H. destruct (ascii_dec a b) as [<- | N]; [| discriminate H].
    cbn. f_equal. apply IH. exact H.
Qed.

Lemma span_app (p : ascii -> bool) (a b : string) :
  all_chars p a = true ->
  match b with
  | EmptyString => True
  | String c _ => p c = false
  end ->
  span p (a ++ b) = (a, b).
Proof.
  intros Ha Hb. induction a as [| c a IH]; cbn in *.
  - destruct b as [| c b]; [reflexivity |]. cbn. rewrite Hb. reflexivity.
  - apply andb_prop in Ha. destruct Ha as [Hc Ha].
    rewrite Hc, (IH Ha). reflexivity.
Qed.

Lemma span_spec (p : ascii -> bool) (s a b : string) :
  span p s = (a, b) -> s = a ++ b /\ all_chars p a = true.
Proof.
  revert a b. induction s as [| c s IH]; intros a b H; cbn in H.
  - injection H as <- <-. split; reflexivity.
  - destruct (p c) eqn:Hc.
    + destruct (span p s) as [a' b'] eqn:E. injection H as <- <-.
      destruct (IH a' b' eq_refl) as [-> Ha]. split; [reflexivity |].
      cbn. rewrite Hc, Ha. reflexivity.
    + injection H as <- <-. split; reflexivity.
Qed.

Lemma prefix_app (pre r : string) : prefix pre (pre ++ r) = true.
Proof.
  induction pre as [| a pre IH]; cbn.
  - destruct r; reflexivity.
  - destruct (ascii_dec a a) as [_ | N]; [exact IH | congruence].
Qed.

Lemma prefix_Some (pre s : string) :
  prefix pre s = true -> exists r, s = pre ++ r.
Proof.
  revert s. induction pre as [| a pre IH]; intros s H.
  - exists s. reflexivity.
  - destruct s as [| b s]; [discriminate H |].
    cbn in H. destruct (ascii_dec a b) as [<- | N]; [| discriminate H].
    destruct (IH s H) as [r ->]. exists r. reflexivity.
Qed.

(** The shape of an image a MIME type is read from. *)
Lemma match_mimeType_shape (base64Image mime : string) :
  match_mimeType base64Image = Some mime ->
  exists type subtype rest : string,
    type <> "" /\ subtype <> ""
    /\ all_chars is_alnum type = true
    /\ all_chars is_subtype_char subtype = true
    /\ base64Image
       = "data:" ++ type ++ "/" ++ subtype ++ ";base64," ++ rest
    /\ mime = type ++ "/" ++ subtype.
Proof.
  unfold match_mimeType.
  destruct (drop_prefix "data:" base64Image) as [r |] eqn:Ed;
    [| discriminate].
  apply drop_prefix_Some in Ed.
  destruct (span is_alnum r) as [type r1] eqn:E1.
  apply span_spec in E1. destruct E1 as [-> Htype].
  destruct r1 as [| c r2]; [discriminate |].
  destruct c as [[|] [|] [|] [|] [|] [|] [|] [|]];
    try (intros H; discriminate H).
  destruct (span is_subtype_char r2) as [subtype r3] eqn:E2.
  apply span_spec in E2. destruct E2 as [-> Hsub].
  destruct (type =? "") eqn:Et; [discriminate |].
  destruct (subtype =? "") eqn:Es; [discriminate |].
  cbn [orb].
  destruct (prefix ";base64," r3) eqn:Ep; [| discriminate].
  apply prefix_Some in Ep. destruct Ep as [rest ->].
  intros H. injection H as <-.
  exists type, subtype, rest.
  apply String.eqb_neq in Et, Es.
  repeat split; assumption.
Qed.

Lemma match_mimeType_data_url (type subtype rest : string) :
  type <> "" -> subtype <> "" ->
  all_chars is_alnum type = true ->
  all_chars is_subtype_char subtype = true ->
  match_mimeType ("data:" ++ type ++ "/" ++ subtype ++ ";base64," ++ rest)
  = Some (type ++ "/" ++ subtype).
Proof.
  intros Ht Hs Halnum Hsub. unfold match_mimeType.
  rewrite (drop_prefix_app "data:").
  rewrite (span_app is_alnum type _ Halnum) by reflexivity.
  cbn [append].
  rewrite (span_app is_subtype_char subtype _ Hsub) by reflexivity.
  apply String.eqb_neq in Ht, Hs. rewrite Ht, Hs. cbn [orb].
  change (String ";" (String "b" (String "a" (String "s" (String "e"
           (String "6" (String "4" (String "," rest))))))))
    with (";base64," ++ rest).
  rewrite (prefix_app ";base64," rest). reflexivity.
Qed.

(** X3.  [editImage] reads a MIME type off the image exactly when the image
    is [data:<type>/<subtype>;base64,...] with a type of letters and digits
    and a subtype of letters, digits, [-], [.] and [+], both non-empty; the
    type it reads is then [<type>/<subtype>]. *)
Theorem match_mimeType_iff (base64Image mime : string) :
  match_mimeType base64Image = Some mime <->
  exists type subtype rest : string,
    type <> "" /\ subtype <> ""
    /\ all_chars is_alnum type = true
    /\ all_chars is_subtype_char subtype = true
    /\ base64Image
       = "data:" ++ type ++ "/" ++ subtype ++ ";base64," ++ rest
    /\ mime = type ++ "/" ++ subtype.
Proof.
  split.
  - apply match_mimeType_shape.
  - intros [type [subtype [rest [Ht [Hs [Halnum [Hsub [-> ->]]]]]]]].
    apply match_mimeType_data_url; assumption.
Qed.

Lemma class_chars_not_comma (c : ascii) :
  is_subtype_char c = true -> not_comma c = true.
Proof.
  destruct c as [[|] [|] [|] [|] [|] [|] [|] [|]];
    intros H; try reflexivity; discriminate H.
Qed.

Lemma alnum_is_subtype_char (c : ascii) :
  is_alnum c = true -> is_subtype_char c = true.
Proof.
  unfold is_subtype_char. intros ->. reflexivity.
Qed.

Lemma all_chars_impl (p q : ascii -> bool) (s : string) :
  (forall c, p c = true -> q c = true) ->
  all_chars p s = true -> all_chars q s = true.
Proof.
  intros Hpq. induction s as [| c s IH]; cbn; [reflexivity |].
  intros H. apply andb_prop in H. destruct H as [Hc Hs].
  rewrite (Hpq c Hc), (IH Hs). reflexivity.
Qed.

(** The header of a data URL has no comma before the one that ends it. *)
Lemma data_url_split (type subtype payload : string) :
  all_chars is_alnum type = true ->
  all_chars is_subtype_char subtype = true ->
  exists header,
    all_chars not_comma header = true
    /\ "data:" ++ type ++ "/" ++ subtype ++ ";base64," ++ payload
       = header ++ String "," payload.
Proof.
  intros Halnum Hsub.
  exists ("data:" ++ type ++ "/" ++ subtype ++ ";base64"). split.
  - rewrite !all_chars_app.
    rewrite (all_chars_impl is_alnum not_comma type
               (fun c H => class_chars_not_comma c
                             (alnum_is_subtype_char c H)) Halnum).
    rewrite (all_chars_impl is_subtype_char not_comma subtype
               class_chars_not_comma Hsub).
    reflexivity.
  - rewrite !append_assoc. reflexivity.
Qed.

(** X4.  For an image given as a data URL with a non-empty payload that has
    no comma, the request carries the payload alone as data, the MIME type of
    the URL, the prompt as it is, and the image model. *)
Theorem build_request_of_data_url (type subtype payload prompt : string) :
  type <> "" -> subtype <> "" ->
  all_chars is_alnum type = true ->
  all_chars is_subtype_char subtype = true ->
  all_chars not_comma payload = true -> payload <> "" ->
  GeminiApi.build_request
    ("data:" ++ type ++ "/" ++ subtype ++ ";base64," ++ payload) prompt
  = GeminiApi.mkRequest "gemini-2.5-flash-image" payload
      (type ++ "/" ++ subtype) prompt.
Proof.
  intros Ht Hs Halnum Hsub Hpay Hne. unfold GeminiApi.build_request.
  rewrite (match_mimeType_data_url type subtype payload Ht Hs Halnum Hsub).
  destruct (data_url_split type subtype payload Halnum Hsub)
    as [header [Hheader ->]].
  rewrite (after_comma_payload header payload Hheader Hpay Hne).
  reflexivity.
Qed.

Lemma build_request_of_data_url_witness :
  GeminiApi.build_request "data:image/svg+xml;base64,PHN2Zy8+" "add neon lights"
  = GeminiApi.mkRequest "gemini-2.5-flash-image" "PHN2Zy8+" "image/svg+xml"
      "add neon lights".
Proof.
  apply (build_request_of_data_url "image" "svg+xml" "PHN2Zy8+"
           "add neon lights");
    first [reflexivity | discriminate].
Defined.

(** X5.  An image without a comma (raw base64) is sent whole, as
    [image/jpeg]. *)
Theorem build_request_of_raw_base64 (base64Image prompt : string) :
  all_chars not_comma base64Image = true ->
  GeminiApi.build_request base64Image prompt
  = GeminiApi.mkRequest "gemini-2.5-flash-image" base64Image "image/jpeg"
      prompt.
Proof.
  intros Hraw. unfold GeminiApi.build_request.
  rewrite (after_comma_none base64Image Hraw).
  destruct (match_mimeType base64Image) as [mime |] eqn:E; [| reflexivity].
  exfalso. apply match_mimeType_shape in E.
  destruct E as [type [subtype [rest [_ [_ [_ [_ [-> _]]]]]]]].
  rewrite !all_chars_app in Hraw.
  apply andb_prop in Hraw. destruct Hraw as [_ Hraw].
  apply andb_prop in Hraw. destruct Hraw as [_ Hraw].
  apply andb_prop in Hraw. destruct Hraw as [_ Hraw].
  apply andb_prop in Hraw. destruct Hraw as [_ Hraw].
  apply andb_prop in Hraw. destruct Hraw as [Hraw _].
  discriminate Hraw.
Qed.

Lemma build_request_of_raw_base64_witness :
  GeminiApi.build_request "iVBORw0KGgo=" "remove background"
  = GeminiApi.mkRequest "gemini-2.5-flash-image" "iVBORw0KGgo=" "image/jpeg"
      "remove background".
Proof.
  apply (build_request_of_raw_base64 "iVBORw0KGgo=" "remove background").
  reflexivity.
Defined.

(** X6.  With the connection promise held and fulfilling, [sendImageFrame]
    sends a data URL as its payload alone (the text between the first comma
    and the end, when that has no comma and is not empty), and sends that
    payload in the same way when it is handed over raw; the frame is tagged
    [image/jpeg] whatever the header of the URL says. *)
Theorem sendImageFrame_strips_header (header payload : string)
    (c : LiveClient.t) :
  LiveClient.sessionPromise c = Some LiveClient.Fulfils ->
  all_chars not_comma header = true ->
  all_chars not_comma payload = true ->
  payload <> "" ->
  LiveCapture.sendImageFrame (header ++ String "," payload) c
  = [LiveCapture.SendRealtimeInput "image/jpeg" payload]
  /\ LiveCapture.sendImageFrame payload c
     = [LiveCapture.SendRealtimeInput "image/jpeg" payload].
Proof.
  intros Hs Hheader Hpayload Hne.
  unfold LiveCapture.sendImageFrame, LiveCapture.then_sendRealtimeInput.
  rewrite Hs, (after_comma_payload header payload Hheader Hpayload Hne),
    (after_comma_none payload Hpayload).
  split; reflexivity.
Qed.

Lemma sendImageFrame_strips_header_witness :
  let c := opened (config_with (fun _ => Js.Normal Js.Undefined)) in
  LiveCapture.sendImageFrame "data:image/png;base64,iVBORw0KGgo=" c
  = [LiveCapture.SendRealtimeInput "image/jpeg" "iVBORw0KGgo="].
Proof.
  intros c.
  apply (sendImageFrame_strips_header "data:image/png;base64" "iVBORw0KGgo="
           c eq_refl eq_refl eq_refl).
  discriminate.
Defined.

End DataUrls.

(** ** The message handler: what it touches and what it emits *)

Section Handler.
Import Js Genai WebAudio LiveClient.

Section Respects.
Variable F : t -> t -> Prop.
Variable L : list Effect -> Prop.
Hypothesis F_refl : forall c, F c c.
Hypothesis F_trans : forall a b c, F a b -> F b c -> F a c.
Hypothesis L_nil : L [].
Hypothesis L_app : forall a b, L a -> L b -> L (a ++ b).

Lemma respects_ret {A} (a : A) : respects F L (ret a).
Proof. intros c. split; [apply F_refl | exact L_nil]. Qed.

Lemma respects_throw {A} (e : error) : respects F L (@throw A e).
Proof. intros c. split; [apply F_refl | exact L_nil]. Qed.

Lemma respects_get : respects F L get.
Proof. intros c. split; [apply F_refl | exact L_nil]. Qed.

Lemma respects_lift {A} (r : completion A) : respects F L (lift r).
Proof. destruct r; [apply respects_ret | apply respects_throw]. Qed.

Lemma respects_modify (f : t -> t) :
  (forall c, F c (f c)) -> respects F L (modify f).
Proof. intros H c. split; [apply H | exact L_nil]. Qed.

Lemma respects_emit (ev : Effect) : L [ev] -> respects F L (emit ev).
Proof. intros H c. split; [apply F_refl | exact H]. Qed.

Lemma respects_bind {A B} (m : M A) (k : A -> M B) :
  respects F L m -> (forall a, respects F L (k a)) ->
  respects F L (bind m k).
Proof.
  intros Hm Hk c. specialize (Hm c). unfold bind.
  destruct (m c) as [[[a | e] c1] tr1]; cbn in Hm.
  - specialize (Hk a c1). destruct (k a c1) as [[r c2] tr2]. cbn in *.
    destruct Hm, Hk. split; [eapply F_trans; eassumption | now apply L_app].
  - exact Hm.
Qed.

Lemma respects_when (b : bool) (body : M unit) :
  respects F L body -> respects F L (when b body).
Proof. intros H. destruct b; [exact H | apply respects_ret]. Qed.

End Respects.


Lemma footprint_bind {A B} (S1 S2 : list Effect -> Prop) (m : M A)
    (k : A -> M B) :
  (forall c, S1 (effects_of (m c))) ->
  (forall a c, S2 (effects_of (k a c))) ->
  S2 [] ->
  forall c, then_lang S1 S2 (effects_of (bind m k c)).
Proof.
  intros Hm Hk Hnil c. specialize (Hm c). unfold bind.
  destruct (m c) as [[[a | e] c1] tr1]; cbn in Hm.
  - specialize (Hk a c1). destruct (k a c1) as [[r c2] tr2]. cbn in *.
    exists tr1, tr2. auto.
  - exists tr1, []. cbn. rewrite app_nil_r. auto.
Qed.

Lemma then_lang_nil (S1 S2 : list Effect -> Prop) :
  S1 [] -> S2 [] -> then_lang S1 S2 [].
Proof. intros H1 H2. exists [], []. auto. Qed.

Lemma at_most_one_nil (P : Effect -> Prop) : at_most_one P [].
Proof. left. reflexivity. Qed.

Lemma at_most_one_one (P : Effect -> Prop) (ev : Effect) :
  P ev -> at_most_one P [ev].
Proof. intros H. right. exists ev. auto. Qed.

Lemma tool_part_nil (fcs : list FunctionCall) : tool_part fcs [].
Proof.
  exists 0%nat, []. split; [reflexivity | apply at_most_one_nil].
Qed.

Lemma run_functionCalls_no_handler (fcs : list FunctionCall)
    (responses : list FunctionResponse) (c : t) :
  onToolCall (config c) = None ->
  run_functionCalls fcs responses c = (Normal responses, c, []).
Proof.
  intros Hh. induction fcs as [| fc fcs IH]; [reflexivity |].
  cbn [run_functionCalls]. cbv [bind get]. rewrite Hh, IH. reflexivity.
Qed.

(** The loop changes no field, and all it does is call the tool handler on
    the first invocations of the batch, in order: on all of them, or up to
    the one the handler rejects, or on none when there is no handler. *)
Lemma run_functionCalls_calls (fcs : list FunctionCall)
    (responses : list FunctionResponse) (c : t) :
  exists n : nat,
    state_after (run_functionCalls fcs responses c) = c
    /\ effects_of (run_functionCalls fcs responses c)
       = map CallOnToolCall (firstn n fcs).
Proof.
  destruct (onToolCall (config c)) as [handler |] eqn:Hh.
  - revert responses. induction fcs as [| fc fcs IH]; intros responses.
    + exists 0%nat. split; reflexivity.
    + cbn [run_functionCalls]. cbv [bind get emit]. rewrite Hh.
      destruct (handler fc) as [v | e]; cbn [lift]; cbv [ret throw].
      * match goal with
        | |- context [run_functionCalls fcs ?rs c] =>
            destruct (IH rs) as [n [Hc Htr]];
            destruct (run_functionCalls fcs rs c) as [[r c1] tr1]
        end.
        cbn in Hc, Htr. subst. exists (S n). split; reflexivity.
      * exists 1%nat. split; reflexivity.
  - exists 0%nat.
    rewrite (run_functionCalls_no_handler fcs responses c Hh).
    split; reflexivity.
Qed.

(** X7.  Whatever the message and the state, one run of the message handler
    leaves, in this order, at most one scheduled buffer, at most one
    non-final transcript of the user, at most one non-final transcript of the
    model, at most one final transcript of the model, calls of the tool
    handler on the first invocations of the batch (in the order of the
    batch), and at most one tool response, and nothing else: it never
    reports a final transcript of the user and never calls [onOpen],
    [onClose] or [onError]. *)
Theorem onmessage_footprint (currentTime : Q) (message : LiveServerMessage)
    (c : t) :
  exists (starts users models finals sends : list Effect) (n : nat),
    effects_of (onmessage currentTime message c)
    = (starts ++ users ++ models ++ finals
         ++ map CallOnToolCall (firstn n (invocations message)) ++ sends)%list
    /\ at_most_one is_start starts
    /\ at_most_one (is_transcript user false) users
    /\ at_most_one (is_transcript model false) models
    /\ at_most_one (is_transcript model true) finals
    /\ at_most_one is_tool_response sends.
Proof.
  assert (H : then_lang (at_most_one is_start)
                (then_lang (at_most_one (is_transcript user false))
                   (then_lang (at_most_one (is_transcript model false))
                      (then_lang (at_most_one (is_transcript model true))
                         (tool_part (invocations message)))))
                (effects_of (onmessage currentTime message c))).
  { unfold onmessage.
    apply footprint_bind;
      [| intros _;
         apply footprint_bind;
         [| intros _;
            apply footprint_bind;
            [| intros _; apply footprint_bind; [| intros _ |] |] |] |];
      repeat apply then_lang_nil;
      try apply at_most_one_nil; try apply tool_part_nil.
    - (* audio *)
      intros c0. destruct (audioData_of message) as [audioData |];
        [| apply at_most_one_nil].
      destruct (negb (audioData =? "")%string); [| apply at_most_one_nil].
      cbn [when]. rewrite playAudio_cases.
      destruct (outputAudioContext c0); [| apply at_most_one_nil].
      destruct (chunk_duration audioData); [| apply at_most_one_nil].
      apply at_most_one_one. eexists. eexists. reflexivity.
    - (* user fragment *)
      intros c0.
      destruct (option_map inputTranscription (serverContent message))
        as [[tr |] |]; try apply at_most_one_nil.
      destruct_client c0. destruct otr; [| apply at_most_one_nil].
      apply at_most_one_one. eexists. reflexivity.
    - intros c0.
      destruct (option_map outputTranscription (serverContent message))
        as [[tr |] |]; try apply at_most_one_nil.
      destruct_client c0. destruct otr; [| apply at_most_one_nil].
      apply at_most_one_one. eexists. reflexivity.
    - intros c0.
      destruct (option_map turnComplete (serverContent message))
        as [[[|] |] |]; try apply at_most_one_nil.
      destruct_client c0. destruct otr; [| apply at_most_one_nil].
      apply at_most_one_one. eexists. reflexivity.
    - (* tool calls *)
      intros c0. unfold invocations.
      destruct (toolCall message) as [tc |]; [| apply tool_part_nil].
      destruct (functionCalls tc) as [fcs |]; [| apply tool_part_nil].
      unfold bind at 1.
      destruct (run_functionCalls_calls fcs [] c0) as [n [Hc Htr]].
      destruct (run_functionCalls fcs [] c0) as [[[rs | e] c1] tr1];
        cbn in Hc, Htr; subst.
      + cbv [bind get]. destruct (sessionPromise c0) as [[|] |].
        * exists n, [SendToolResponse rs]. split; [reflexivity |].
          apply at_most_one_one. eexists. reflexivity.
        * exists n, []. split; [reflexivity | apply at_most_one_nil].
        * exists n, []. split; [reflexivity | apply at_most_one_nil].
      + exists n, []. cbn [effects_of snd]. rewrite app_nil_r.
        split; [reflexivity | apply at_most_one_nil]. }
  destruct H as [starts [r1 [E1 [H1 H]]]].
  destruct H as [users [r2 [E2 [H2 H]]]].
  destruct H as [models [r3 [E3 [H3 H]]]].
  destruct H as [finals [r4 [E4 [H4 H]]]].
  destruct H as [n [sends [E5 H5]]].
  exists starts, users, models, finals, sends, n. subst. auto 10.
Qed.

Section Frames.
(** A relation between the state before and after that every field
    assignment of the handler keeps, and a set of traces closed under
    concatenation that has every effect the handler can have. *)
Variable F : t -> t -> Prop.
Variable L : list Effect -> Prop.
Hypothesis F_refl : forall c, F c c.
Hypothesis F_trans : forall a b c, F a b -> F b c -> F a c.
Hypothesis L_nil : L [].
Hypothesis L_app : forall a b, L a -> L b -> L (a ++ b)%list.
Hypothesis F_input : forall v c, F c (with_currentInputText v c).
Hypothesis F_output : forall v c, F c (with_currentOutputText v c).
Hypothesis L_transcript : forall text source isFinal,
    (source = user -> isFinal = false) ->
    L [CallOnTranscription text source isFinal].
Hypothesis L_call : forall fc, L [CallOnToolCall fc].
Hypothesis L_send : forall rs, L [SendToolResponse rs].

Lemma call_onTranscription_respects (text : string) (source : Source)
    (isFinal : bool) :
  (source = user -> isFinal = false) ->
  respects F L (call_onTranscription text source isFinal).
Proof.
  intros H. unfold call_onTranscription.
  apply (respects_bind _ _ F_trans L_app).
  - apply respects_get; auto.
  - intros c0. apply respects_when; auto.
    apply respects_emit; auto.
Qed.

Lemma run_functionCalls_respects (fcs : list FunctionCall)
    (responses : list FunctionResponse) :
  respects F L (run_functionCalls fcs responses).
Proof.
  intros c. destruct (run_functionCalls_calls fcs responses c)
    as [n [-> ->]].
  split; [apply F_refl |].
  induction (firstn n fcs) as [| fc called IH]; [exact L_nil |].
  apply (L_app [CallOnToolCall fc]); [apply L_call | exact IH].
Qed.

(** The handler after its audio part. *)
Lemma after_audio_respects (message : LiveServerMessage) (audio : M unit) :
  respects F L audio ->
  respects F L
    (bind audio (fun _ =>
     bind (match option_map inputTranscription (serverContent message) with
           | Some (Some tr) =>
               bind get (fun c =>
               bind (set_currentInputText
                       (append_text (currentInputText c)
                          (transcription_text tr))) (fun _ =>
               bind get (fun c0 =>
               call_onTranscription (currentInputText c0) user false)))
           | _ => ret tt
           end) (fun _ =>
     bind (match option_map outputTranscription (serverContent message) with
           | Some (Some tr) =>
               bind get (fun c =>
               bind (set_currentOutputText
                       (append_text (currentOutputText c)
                          (transcription_text tr))) (fun _ =>
               bind get (fun c0 =>
               call_onTranscription (currentOutputText c0) model false)))
           | _ => ret tt
           end) (fun _ =>
     bind (match option_map turnComplete (serverContent message) with
           | Some (Some true) =>
               bind get (fun c =>
               bind (call_onTranscription (currentOutputText c) model true)
                 (fun _ =>
               bind (set_currentInputText "") (fun _ =>
               set_currentOutputText "")))
           | _ => ret tt
           end) (fun _ =>
     match toolCall message with
     | Some tc =>
         match functionCalls tc with
         | Some fcs =>
             bind (run_functionCalls fcs []) (fun responses =>
             bind get (fun c =>
             match sessionPromise c with
             | Some Fulfils => emit (SendToolResponse responses)
             | _ => ret tt
             end))
         | None => throw TypeError
         end
     | None => ret tt
     end))))).
Proof.
  intros Haudio.
  unfold set_currentInputText, set_currentOutputText.
  repeat first
    [ exact Haudio
    | apply call_onTranscription_respects; congruence
    | apply run_functionCalls_respects
    | apply respects_ret; assumption
    | apply respects_get; assumption
    | apply respects_throw; assumption
    | apply respects_modify;
      [exact L_nil | intro; first [apply F_input | apply F_output]]
    | apply respects_emit; [assumption | apply L_send]
    | match goal with
      | |- respects _ _ (match ?x with _ => _ end) => destruct x
      end
    | apply (respects_bind _ _ F_trans L_app); [| intro] ].
Qed.

End Frames.

Lemma audio_part_cases (currentTime : Q) (message : LiveServerMessage)
    (c : t) :
  audio_part currentTime message c = (Normal tt, c, [])
  \/ (exists e, audio_part currentTime message c = (Throw e, c, []))
  \/ (exists d,
         (0 < d)%Q
         /\ audio_part currentTime message c
            = (Normal tt,
               with_nextStartTime
                 (start_time currentTime (nextStartTime c) + d) c,
               [SourceStart (start_time currentTime (nextStartTime c)) d])).
Proof.
  unfold audio_part.
  destruct (audioData_of message) as [audioData |]; [| left; reflexivity].
  destruct (negb (audioData =? "")%string); [| left; reflexivity].
  cbn [when]. rewrite playAudio_cases.
  destruct (outputAudioContext c); [| left; reflexivity].
  destruct (chunk_duration audioData) as [d | e] eqn:Ed.
  - right. right. exists d. split; [| reflexivity].
    apply (chunk_duration_positive _ _ Ed).
  - right. left. exists e. reflexivity.
Qed.

Lemma onmessage_devices (currentTime : Q) (message : LiveServerMessage)
    (c : t) :
  devices (state_after (onmessage currentTime message c)) = devices c.
Proof.
  assert (H : respects (fun c c' => devices c' = devices c) (fun _ => True)
                (onmessage currentTime message)).
  { unfold onmessage. apply after_audio_respects; auto.
    - intros a b c0 H1 H2. congruence.
    - fold (audio_part currentTime message). intros c0.
      split; [| exact I].
      destruct (audio_part_cases currentTime message c0)
        as [-> | [[e ->] | [d [_ ->]]]]; reflexivity. }
  apply H.
Qed.

Lemma rest_inert (currentTime : Q) (message : LiveServerMessage) (c : t) :
  exists rest : unit -> M unit,
    onmessage currentTime message
    = bind (audio_part currentTime message) rest
    /\ forall c1,
         nextStartTime (state_after (rest tt c1)) = nextStartTime c1
         /\ scheduled (effects_of (rest tt c1)) = [].
Proof.
  eexists. split; [reflexivity |].
  intros c1.
  match goal with
  | |- context [state_after (?k tt c1)] =>
      assert (H : respects
                    (fun c c' => nextStartTime c' = nextStartTime c)
                    (fun l => scheduled l = [])
                    (bind (ret tt) k))
  end.
  { apply after_audio_respects; auto.
    - intros a b c0 H1 H2. congruence.
    - intros a b Ha Hb. unfold scheduled in *.
      rewrite flat_map_app, Ha, Hb. reflexivity.
    - apply respects_ret; auto. }
  specialize (H c1). rewrite bind_ret_l in H. exact H.
Qed.

Local Open Scope Q_scope.

(** What one message does to the schedule and the cursor. *)
Lemma onmessage_schedule_step (currentTime : Q) (message : LiveServerMessage)
    (c : t) :
  let r := onmessage currentTime message c in
  (scheduled (effects_of r) = []
   /\ nextStartTime (state_after r) = nextStartTime c)
  \/ (exists d,
         0 < d
         /\ scheduled (effects_of r)
            = [(start_time currentTime (nextStartTime c), d)]
         /\ nextStartTime (state_after r)
            = start_time currentTime (nextStartTime c) + d).
Proof.
  destruct (rest_inert currentTime message c) as [rest [-> Hrest]].
  cbv zeta. unfold bind.
  destruct (audio_part_cases currentTime message c)
    as [-> | [[e ->] | [d [Hd ->]]]].
  - left. specialize (Hrest c).
    destruct (rest tt c) as [[r2 c2] tr2]. cbn in *. tauto.
  - left. split; reflexivity.
  - right. exists d. split; [exact Hd |].
    specialize (Hrest (with_nextStartTime
                         (start_time currentTime (nextStartTime c) + d) c)).
    destruct (rest tt _) as [[r2 c2] tr2]. cbn in *.
    destruct Hrest as [H1 H2]. rewrite H2. split; [reflexivity | exact H1].
Qed.

(** X8.  Over any sequence of inbound messages, whatever the clock reads and
    whichever chunks fail to decode, no scheduled buffer starts before the
    one scheduled ahead of it ends, the first one starts at the cursor or
    later (and so does every one after it), and the cursor never goes
    backward. *)
Theorem playback_never_overlaps (inbound : list (Q * LiveServerMessage))
    (c : t) :
  no_overlap (scheduled (snd (onmessages inbound c)))
  /\ starts_from (nextStartTime c) (scheduled (snd (onmessages inbound c)))
  /\ nextStartTime c <= nextStartTime (fst (onmessages inbound c))
  /\ Forall (fun chunk => nextStartTime c <= fst chunk)
       (scheduled (snd (onmessages inbound c))).
Proof.
  revert c. induction inbound as [| [now message] rest IH]; intros c.
  - cbn. repeat split; [lra | constructor].
  - cbn [onmessages].
    pose proof (onmessage_schedule_step now message c) as Hstep.
    cbv zeta in Hstep.
    destruct (onmessage now message c) as [[r c1] tr1].
    cbn [state_after effects_of fst snd] in Hstep.
    destruct (IH c1) as [Hno [Hfrom [Hmono Hall]]].
    destruct (onmessages rest c1) as [c2 tr2]. cbn [fst snd] in *.
    unfold scheduled in *. rewrite flat_map_app.
    destruct Hstep as [[Hs Hc] | [d [Hd [Hs Hc]]]]; rewrite Hs.
    + cbn [app]. rewrite <- Hc. auto.
    + cbn [app]. rewrite Hc in Hfrom, Hmono, Hall.
      pose proof (start_time_ge_cursor now (nextStartTime c)) as Hge.
      split; [| split; [| split]].
      * cbn [no_overlap]. split; [| exact Hno].
        destruct (flat_map _ tr2) as [| [next dn] more]; [exact I |].
        exact Hfrom.
      * exact Hge.
      * lra.
      * constructor; [exact Hge |].
        apply (Forall_impl _ (P := fun chunk =>
                 start_time now (nextStartTime c) + d <= fst chunk));
          [| exact Hall].
        intros chunk H. lra.
Qed.

Local Open Scope string_scope.

Lemma onmessages_devices (inbound : list (Q * LiveServerMessage)) (c : t) :
  devices (fst (onmessages inbound c)) = devices c.
Proof.
  revert c. induction inbound as [| [now message] rest IH]; intros c.
  - reflexivity.
  - cbn [onmessages].
    pose proof (onmessage_devices now message c) as H1.
    destruct (onmessage now message c) as [[r c1] tr1].
    cbn [state_after fst snd] in H1. specialize (IH c1).
    destruct (onmessages rest c1) as [c2 tr2]. cbn [fst] in *.
    congruence.
Qed.

(** X9.  Handling messages never touches the connection reference, the two
    audio contexts, the capture source, the processing node, the media stream
    or the callbacks: of the fields, only the cursor and the two transcript
    accumulators can change, over one message or any sequence of them, also
    when a handler rejects. *)
Theorem onmessage_keeps_devices (currentTime : Q)
    (message : LiveServerMessage) (inbound : list (Q * LiveServerMessage))
    (c : t) :
  devices (state_after (onmessage currentTime message c)) = devices c
  /\ devices (fst (onmessages inbound c)) = devices c.
Proof.
  split.
  - apply onmessage_devices.
  - apply onmessages_devices.
Qed.

(** X10.  A message whose audio chunk does not decode (not base64, an odd
    number of bytes, no sample) makes the handler reject at its first
    statement, when there is an output context: the transcription, the
    turn-complete flag and the tool calls of that message are not handled,
    no field changes and nothing is emitted. *)
Theorem onmessage_bad_audio (currentTime : Q) (message : LiveServerMessage)
    (audioData : string) (e : error) (c : t) :
  audioData_of message = Some audioData ->
  audioData <> "" ->
  outputAudioContext c <> None ->
  chunk_duration audioData = Throw e ->
  onmessage currentTime message c = (Throw e, c, []).
Proof.
  intros Ha Hne Hctx He.
  destruct (rest_inert currentTime message c) as [rest [-> _]].
  unfold bind, audio_part. rewrite Ha.
  apply String.eqb_neq in Hne. rewrite Hne. cbn [negb when].
  rewrite playAudio_cases, He.
  destruct (outputAudioContext c); [reflexivity | congruence].
Qed.

Lemma onmessage_bad_audio_witness :
  let c := opened (config_with (fun _ => Normal Undefined)) in
  let message :=
    mkLiveServerMessage
      (Some (mkServerContent
               (Some (mkContent
                        (Some [mkPart (Some (mkBlob (Some "AAAA") None))
                                 None])))
               None (Some (mkTranscription (Some "Eshi"))) (Some true)))
      (Some (mkToolCall (Some [edit_image_call "1" "add neon lights"]))) in
  onmessage 0 message c = (Throw RangeError, c, []).
Proof.
  intros c message.
  apply (onmessage_bad_audio 0 message "AAAA" RangeError c eq_refl).
  - discriminate.
  - discriminate.
  - reflexivity.
Defined.

(** X11.  Without an [onToolCall] callback, a batch of any size is answered
    all the same, with a tool response that has no result in it (while the
    connection promise is held and fulfils). *)
Theorem tool_call_batch_without_handler (currentTime : Q)
    (fcs : list FunctionCall) (c : t) :
  onToolCall (config c) = None ->
  sessionPromise c = Some Fulfils ->
  onmessage currentTime (tool_call_batch fcs) c
  = (Normal tt, c, [SendToolResponse []]).
Proof.
  intros Hh Hs. rewrite onmessage_tool_call_batch.
  unfold bind at 1. rewrite (run_functionCalls_no_handler fcs [] c Hh).
  cbv [bind get]. rewrite Hs. reflexivity.
Qed.

Lemma tool_call_batch_without_handler_witness :
  let c := opened (mkConfig true true true None true true) in
  onmessage 0
    (tool_call_batch [edit_image_call "1" "remove background";
                      edit_image_call "2" "add neon lights"]) c
  = (Normal tt, c, [SendToolResponse []]).
Proof.
  intros c.
  apply (tool_call_batch_without_handler 0 _ c eq_refl eq_refl).
Defined.

(** X12.  Once the connection reference is dropped (after [disconnect]), or
    when the connection promise rejects, a tool-call batch still goes to the
    tool handler, invocation by invocation, but nothing is sent back and no
    field changes: whatever the handler does, the handler of the message
    only calls it on the first invocations of the batch, and when it
    resolves on all of them the results are dropped. *)
Theorem tool_call_batch_without_session (currentTime : Q)
    (fcs : list FunctionCall) (c : t) :
  sessionPromise c <> Some Fulfils ->
  (exists (r : completion unit) (n : nat),
      onmessage currentTime (tool_call_batch fcs) c
      = (r, c, map CallOnToolCall (firstn n fcs)))
  /\ (forall (handler : FunctionCall -> completion value)
             (results : list value),
         onToolCall (config c) = Some handler ->
         resolves handler fcs results ->
         onmessage currentTime (tool_call_batch fcs) c
         = (Normal tt, c, map CallOnToolCall fcs)).
Proof.
  intros Hs. split.
  - rewrite onmessage_tool_call_batch. unfold bind at 1.
    destruct (run_functionCalls_calls fcs [] c) as [n [Hc Htr]].
    destruct (run_functionCalls fcs [] c) as [[[rs | e] c1] tr1];
      cbn in Hc, Htr; subst.
    + cbv [bind get].
      destruct (sessionPromise c) as [[|] |]; [congruence | ..];
        exists (Normal tt), n; cbv [ret]; rewrite app_nil_r; reflexivity.
    + exists (Throw e), n. reflexivity.
  - intros handler results Hh Hres.
    rewrite onmessage_tool_call_batch. unfold bind at 1.
    rewrite (run_functionCalls_resolves handler fcs results [] c Hh Hres).
    cbv [bind get].
    destruct (sessionPromise c) as [[|] |]; [congruence | ..];
      cbv [ret]; rewrite app_nil_r; reflexivity.
Qed.

Lemma tool_call_batch_without_session_witness :
  let c :=
    state_after
      (disconnect (opened (config_with (fun _ => Normal Undefined)))) in
  let batch := [edit_image_call "1" "remove background";
                edit_image_call "2" "add neon lights"] in
  sessionPromise c <> Some Fulfils
  /\ onmessage 0 (tool_call_batch batch) c
     = (Normal tt, c, map CallOnToolCall batch).
Proof.
  intros c batch.
  assert (Hs : sessionPromise c <> Some Fulfils) by discriminate.
  split; [exact Hs |].
  apply (proj2 (tool_call_batch_without_session 0 batch c Hs)
           (fun _ => Normal Undefined) [Undefined; Undefined]).
  - reflexivity.
  - repeat constructor.
Defined.

Lemma connect_contexts (cfg : LiveClientConfig)
    (apiKey env_API_KEY : option string) (settles : Settlement) :
  let c := state_after (connect apiKey env_API_KEY settles (new cfg)) in
  fresh_context (inputAudioContext c) /\ fresh_context (outputAudioContext c).
Proof.
  unfold connect, fresh_context.
  destruct (negb (is_truthy (first_truthy apiKey env_API_KEY)));
    cbn; auto.
Qed.

Lemma onopen_contexts (userMedia : completion MediaStream) (c : t) :
  inputAudioContext (state_after (onopen userMedia c)) = inputAudioContext c
  /\ outputAudioContext (state_after (onopen userMedia c))
     = outputAudioContext c.
Proof.
  destruct_client c.
  destruct iac, userMedia, oo, oer; split; reflexivity.
Qed.

(** X13.  A first [disconnect] always completes and leaves nothing active,
    wherever the session stands: whether [connect] found a key or not,
    whether the connection has opened or not, whether the microphone was
    granted or denied, and after any messages, decodable or not, with
    handlers that resolve or reject. *)
Theorem disconnect_after_session (cfg : LiveClientConfig)
    (apiKey env_API_KEY : option string) (settles : Settlement)
    (opening : option (completion MediaStream))
    (inbound : list (Q * LiveServerMessage)) :
  exists c' : t,
    disconnect (session_state cfg apiKey env_API_KEY settles opening inbound)
    = (Normal tt, c', [])
    /\ torn_down c' = true.
Proof.
  unfold session_state.
  destruct (connect_contexts cfg apiKey env_API_KEY settles) as [Hin Hout].
  cbv zeta in Hin, Hout.
  set (c1 := state_after (connect apiKey env_API_KEY settles (new cfg))) in *.
  set (c2 := match opening with
             | Some userMedia => state_after (onopen userMedia c1)
             | None => c1
             end).
  assert (H2 : fresh_context (inputAudioContext c2)
               /\ fresh_context (outputAudioContext c2)).
  { unfold c2. destruct opening as [userMedia |]; [| auto].
    destruct (onopen_contexts userMedia c1) as [-> ->]. auto. }
  pose proof (onmessages_devices inbound c2) as Hd.
  unfold devices in Hd. injection Hd as _ Hi Ho _ _ _ _.
  apply disconnect_tears_down; unfold fresh_context in H2.
  - rewrite Hi. apply H2.
  - rewrite Ho. apply H2.
Qed.

End Handler.

(** ** The playback conversion *)

Section Playback.
Import Js.
Local Open Scope Q_scope.

Lemma list_ind2 {A} (P : list A -> Prop) :
  P [] -> (forall a, P [a]) ->
  (forall a b rest, P rest -> P (a :: b :: rest)) ->
  forall l, P l.
Proof.
  intros H0 H1 H2. fix IH 1.
  intros [| a [| b rest]]; [exact H0 | apply H1 | apply H2; apply IH].
Qed.

Lemma wrap16_range (z : Z) : (-32768 <= Js.wrap16 z <= 32767)%Z.
Proof.
  unfold wrap16. pose proof (Z.mod_pos_bound z 65536 ltac:(lia)) as H.
  destruct (32768 <=? z mod 65536)%Z eqn:E.
  - apply Z.leb_le in E. lia.
  - apply Z.leb_gt in E. lia.
Qed.

Lemma pcm16ToFloat32_sample_decoded (v : Z) :
  (-32768 <= v <= 32767)%Z -> decoded_sample (Pcm.pcm16ToFloat32_sample v).
Proof.
  intros [Hlo Hhi]. unfold Pcm.pcm16ToFloat32_sample.
  eexists. split; [reflexivity |].
  rewrite Zle_Qle in Hlo. rewrite Zle_Qle in Hhi.
  change (inject_Z (-32768)) with (-32768) in Hlo.
  change (inject_Z 32767) with 32767 in Hhi.
  unfold Qdiv. change (/ 32768) with (1 # 32768). split; lra.
Qed.

Lemma int16_elements_cases (buffer : TypedArray.ArrayBuffer) :
  match TypedArray.int16_elements buffer with
  | Some xs =>
      Nat.even (List.length buffer) = true
      /\ (2 * List.length xs = List.length buffer)%nat
      /\ Forall (fun v => (-32768 <= v <= 32767)%Z) xs
  | None => Nat.even (List.length buffer) = false
  end.
Proof.
  induction buffer as [| lo | lo hi rest IH] using list_ind2.
  - cbn. auto.
  - reflexivity.
  - cbn [TypedArray.int16_elements].
    destruct (TypedArray.int16_elements rest) as [xs |].
    + destruct IH as [He [Hl Hr]]. cbn [List.length Nat.even].
      repeat split; [exact He | lia |].
      constructor; [apply wrap16_range | exact Hr].
    + exact IH.
Qed.

(** X14.  [pcm16ToFloat32] rejects a buffer of an odd number of bytes with a
    RangeError; on an even number it gives one sample per two bytes, each a
    finite value in [-1, 1). *)
Theorem pcm16ToFloat32_range (buffer : TypedArray.ArrayBuffer) :
  (Nat.even (List.length buffer) = false ->
   Pcm.pcm16ToFloat32 buffer = Throw RangeError)
  /\ (Nat.even (List.length buffer) = true ->
      exists output : list number,
        Pcm.pcm16ToFloat32 buffer = Normal output
        /\ (2 * List.length output = List.length buffer)%nat
        /\ Forall decoded_sample output).
Proof.
  unfold Pcm.pcm16ToFloat32, TypedArray.Int16Array_of_buffer.
  pose proof (int16_elements_cases buffer) as H.
  destruct (TypedArray.int16_elements buffer) as [xs |].
  - destruct H as [He [Hl Hr]]. split; [congruence |].
    intros _. eexists. split; [reflexivity |].
    rewrite length_map. split; [exact Hl |].
    apply Forall_map. revert Hr. apply Forall_impl.
    apply pcm16ToFloat32_sample_decoded.
  - split; [reflexivity | congruence].
Qed.

Lemma truncation_of_unique (v : Q) (z n : Z) :
  truncation_of v z ->
  (0 <= v -> inject_Z n <= v /\ v < inject_Z n + 1) ->
  (v <= 0 -> inject_Z n - 1 < v /\ v <= inject_Z n) ->
  z = n.
Proof.
  intros [Hpos Hneg] Hp Hn.
  destruct (Qlt_le_dec v 0) as [Hv | Hv].
  - destruct Hneg as [H1 H2]; [lra |]. destruct Hn as [H3 H4]; [lra |].
    assert (z - 1 < n)%Z.
    { rewrite Zlt_Qlt, inject_Z_pred. lra. }
    assert (n - 1 < z)%Z.
    { rewrite Zlt_Qlt, inject_Z_pred. lra. }
    lia.
  - destruct Hpos as [H1 H2]; [lra |]. destruct Hp as [H3 H4]; [lra |].
    assert (z < n + 1)%Z.
    { rewrite Zlt_Qlt, inject_Z_plus. change (inject_Z 1) with 1. lra. }
    assert (n < z + 1)%Z.
    { rewrite Zlt_Qlt, inject_Z_plus. change (inject_Z 1) with 1. lra. }
    lia.
Qed.

(** One decoded sample, encoded again. *)
Lemma reencode_sample (v : Z) :
  (-32768 <= v <= 32767)%Z ->
  Pcm.floatTo16BitPCM_sample (Pcm.pcm16ToFloat32_sample v) = reencoded v.
Proof.
  intros [Hlo Hhi]. unfold Pcm.pcm16ToFloat32_sample.
  set (x := inject_Z v / 32768).
  destruct (floatTo16BitPCM_sample_finite x) as [T _].
  assert (Hx : x == inject_Z v * (1 # 32768)) by reflexivity.
  assert (Qlo : -32768 <= inject_Z v).
  { change (-32768) with (inject_Z (-32768)). rewrite <- Zle_Qle. exact Hlo. }
  assert (Qhi : inject_Z v <= 32767).
  { change 32767 with (inject_Z 32767). rewrite <- Zle_Qle. exact Hhi. }
  assert (Ec : clamp x == x) by (apply clamp_id; lra).
  unfold scaled in T. rewrite (Qle_bool_compat (clamp x) x Ec) in T.
  unfold reencoded.
  destruct (0 <? v)%Z eqn:Ev.
  - apply Z.ltb_lt in Ev.
    assert (Qv : 1 <= inject_Z v).
    { change 1 with (inject_Z 1). rewrite <- Zle_Qle. lia. }
    assert (E0 : Qle_bool 0 x = true) by (apply Qle_bool_iff; lra).
    rewrite E0 in T.
    apply (truncation_of_unique (clamp x * 32767)); [exact T | |].
    + intros _. rewrite inject_Z_pred. split; lra.
    + intros H. exfalso. lra.
  - apply Z.ltb_ge in Ev.
    assert (Qv : inject_Z v <= 0).
    { change 0 with (inject_Z 0). rewrite <- Zle_Qle. exact Ev. }
    destruct (Qle_bool 0 x) eqn:E0.
    + apply Qle_bool_iff in E0.
      assert (Hz : inject_Z v == 0) by lra.
      apply (truncation_of_unique (clamp x * 32767)); [exact T | |];
        intros _; split; lra.
    + apply Qle_bool_false in E0.
      apply (truncation_of_unique (clamp x * 32768)); [exact T | |];
        intros _; split; lra.
Qed.

(** X15.  Decoding int16 samples with [pcm16ToFloat32] and encoding the
    result with [floatTo16BitPCM] gives back every sample that is zero or
    negative, and every positive sample less one. *)
Theorem reencode_decoded (xs : list Z) :
  Forall (fun v => (-32768 <= v <= 32767)%Z) xs ->
  exists decoded : list number,
    Pcm.pcm16ToFloat32 (TypedArray.Int16Array_buffer xs) = Normal decoded
    /\ Pcm.floatTo16BitPCM decoded = map reencoded xs.
Proof.
  intros Hxs. unfold Pcm.pcm16ToFloat32.
  rewrite (Int16Array_of_buffer_buffer xs Hxs).
  eexists. split; [reflexivity |].
  unfold Pcm.floatTo16BitPCM. rewrite map_map.
  induction Hxs as [| v xs Hv _ IH]; [reflexivity |].
  cbn [map]. rewrite (reencode_sample v Hv), IH. reflexivity.
Qed.

Lemma reencode_decoded_witness :
  exists decoded : list number,
    Pcm.pcm16ToFloat32 (TypedArray.Int16Array_buffer [-32768; -1; 0; 1; 32767]%Z)
    = Normal decoded
    /\ Pcm.floatTo16BitPCM decoded = [-32768; -1; 0; 0; 32766]%Z.
Proof.
  apply (reencode_decoded [-32768; -1; 0; 1; 32767]%Z).
  repeat constructor; lia.
Defined.

End Playback.

(** ** The two revisions of the edit service *)

Section Revisions.
Import Js Genai GeminiApi.
Local Open Scope string_scope.

(** X16.  Called without a key argument (as App.tsx calls it), the revision
    of [editImage] that takes a key does exactly what the revision without
    the parameter does, as long as the environment holds a key; when the
    environment holds none it rejects for the missing key, with no request
    made. *)
Theorem editImage_revisions_agree (env_API_KEY apiKey : option string)
    (remote : Remote) (base64Image prompt : string) :
  LiveClient.is_truthy apiKey = false ->
  (LiveClient.is_truthy env_API_KEY = true ->
   GeminiServiceKeyed.editImage env_API_KEY remote base64Image prompt apiKey
   = GeminiService.editImage env_API_KEY remote base64Image prompt)
  /\ (LiveClient.is_truthy env_API_KEY = false ->
      GeminiServiceKeyed.editImage env_API_KEY remote base64Image prompt
        apiKey
      = Throw (Error "API Key is missing. Please provide a valid Gemini API Key in settings.")).
Proof.
  intros Hkey.
  assert (E : LiveClient.first_truthy apiKey env_API_KEY = env_API_KEY).
  { destruct apiKey as [k |]; [| reflexivity].
    cbn in *. destruct (k =? ""); [reflexivity | discriminate Hkey]. }
  unfold GeminiServiceKeyed.editImage, GeminiService.editImage.
  rewrite E. split; intros ->; reflexivity.
Qed.

Lemma editImage_revisions_agree_witness :
  GeminiServiceKeyed.editImage (Some "key") (remote_image "BBBB")
    "data:image/jpeg;base64,AAAA" "remove background" None
  = GeminiService.editImage (Some "key") (remote_image "BBBB")
      "data:image/jpeg;base64,AAAA" "remove background".
Proof.
  apply (editImage_revisions_agree (Some "key") None (remote_image "BBBB")
           "data:image/jpeg;base64,AAAA" "remove background" eq_refl).
  reflexivity.
Defined.

Lemma first_inlineData_after_text (texts rest : list Part) (part : Part)
    (blob : Blob) :
  Forall (fun p => inlineData p = None) texts ->
  inlineData part = Some blob ->
  first_inlineData (texts ++ part :: rest)%list = Some blob.
Proof.
  intros Htexts Hpart. induction Htexts as [| p texts Hp _ IH]; cbn.
  - rewrite Hpart. reflexivity.
  - rewrite Hp. exact IH.
Qed.

(** X17.  When the first candidate of the response has parts, the image
    returned is made of the data of the first part that has inline data:
    parts without inline data ahead of it are skipped, and the parts after
    it, the other candidates, the finish reason and the MIME type of the part
    play no role; the result is always labelled [image/png]. *)
Theorem editImage_first_image_part (env_API_KEY : option string)
    (remote : Remote) (base64Image prompt : string)
    (reason : option string) (texts rest : list Part) (part : Part)
    (blob : Blob) (others : list Candidate) :
  remote env_API_KEY (build_request base64Image prompt)
  = Normal (mkResponse
              (Some (mkCandidate reason
                       (Some (mkContent (Some (texts ++ part :: rest)%list)))
                     :: others))) ->
  Forall (fun p => inlineData p = None) texts ->
  inlineData part = Some blob ->
  GeminiService.editImage env_API_KEY remote base64Image prompt
  = Normal ("data:image/png;base64," ++ interpolate (data blob)).
Proof.
  intros Hremote Htexts Hpart. unfold GeminiService.editImage.
  rewrite Hremote. unfold image_of_response.
  cbn [candidates finishReason content option_map parts].
  pose proof (first_inlineData_after_text texts rest part blob Htexts Hpart)
    as Hfirst.
  destruct (texts ++ part :: rest)%list as [| p0 ps] eqn:Eparts.
  - destruct texts; discriminate Eparts.
  - replace (match reason with
             | Some reason0 =>
                 negb (reason0 =? "") && negb (reason0 =? "STOP")
                 && no_parts
                      (mkCandidate reason
                         (Some (mkContent (Some (p0 :: ps)))))
             | None => false
             end) with false
      by (destruct reason; cbn; rewrite ?Bool.andb_false_r; reflexivity).
    rewrite Hfirst. reflexivity.
Qed.

Lemma editImage_first_image_part_witness :
  let response :=
    mkResponse
      (Some [mkCandidate (Some "MAX_TOKENS")
               (Some (mkContent
                        (Some [mkPart None (Some "Here is your image");
                               mkPart (Some (mkBlob (Some "BBBB")
                                               (Some "image/webp"))) None;
                               mkPart (Some (mkBlob (Some "CCCC")
                                               (Some "image/png"))) None])))])
  in
  GeminiService.editImage (Some "key") (fun _ _ => Normal response)
    "data:image/jpeg;base64,AAAA" "remove background"
  = Normal "data:image/png;base64,BBBB".
Proof.
  intros response.
  apply (editImage_first_image_part (Some "key") (fun _ _ => Normal response)
           "data:image/jpeg;base64,AAAA" "remove background"
           (Some "MAX_TOKENS") [mkPart None (Some "Here is your image")]
           [mkPart (Some (mkBlob (Some "CCCC") (Some "image/png"))) None]
           (mkPart (Some (mkBlob (Some "BBBB") (Some "image/webp"))) None)
           (mkBlob (Some "BBBB") (Some "image/webp")) []).
  - reflexivity.
  - repeat constructor.
  - reflexivity.
Defined.

End Revisions.

(** ** The edit history as a whole *)

Section HistoryInvariant.
Import Js App.
Local Open Scope Z_scope.

Lemma index_Some_range {A} (l : list A) (i : Z) (x : A) :
  index l i = Some x ->
  0 <= i < Z.of_nat (List.length l) /\ nth_error l (Z.to_nat i) = Some x.
Proof.
  unfold index. destruct (i <? 0) eqn:E; [discriminate |].
  apply Z.ltb_ge in E. intros H. split; [| exact H].
  split; [exact E |].
  assert (Hlt : (Z.to_nat i < List.length l)%nat)
    by (apply nth_error_Some; congruence).
  lia.
Qed.

Lemma index_of_nth_error {A} (l : list A) (i : Z) (x : A) :
  0 <= i -> nth_error l (Z.to_nat i) = Some x -> index l i = Some x.
Proof.
  intros Hi H. unfold index.
  destruct (i <? 0) eqn:E; [apply Z.ltb_lt in E; lia | exact H].
Qed.

Lemma consistent_range (s : State) :
  consistent s ->
  -1 <= historyIndex s < Z.of_nat (List.length (history s)).
Proof.
  unfold consistent.
  destruct (index (history s) (historyIndex s)) as [item |] eqn:E.
  - intros _. apply index_Some_range in E. lia.
  - intros [-> [-> _]]. cbn. lia.
Qed.

Lemma index_appended {A} (l : list A) (x : A) (i : Z) :
  -1 <= i < Z.of_nat (List.length l) ->
  index (firstn (Z.to_nat (i + 1)) l ++ [x]) (i + 1) = Some x.
Proof.
  intros Hi. apply index_of_nth_error; [lia |].
  assert (Hlen : List.length (firstn (Z.to_nat (i + 1)) l)
                 = Z.to_nat (i + 1)).
  { rewrite length_firstn. lia. }
  rewrite nth_error_app2 by lia.
  rewrite Hlen, Nat.sub_diag. reflexivity.
Qed.

(** A settled edit through the render of the state it is applied to. *)
Lemma settled_edit_consistent (w : Ambient) (render s : State) (txt : string)
    (outcome : completion string) :
  history s = history render ->
  historyIndex s = historyIndex render ->
  currentImage s = currentImage render ->
  consistent render ->
  consistent (fst (handleExternalEdit_settled w render txt outcome s)).
Proof.
  intros Hh Hi Hc Hcons. pose proof (consistent_range render Hcons) as Hr.
  destruct outcome as [image | e]; unfold consistent; cbn.
  - rewrite Hh, Hi, slice0_firstn by lia.
    rewrite (index_appended _ _ _ Hr). reflexivity.
  - rewrite Hh, Hi, Hc. exact Hcons.
Qed.

(** X18.  The handlers keep the current image and the history in step: if
    the current image is the item at the index (or there is no history, no
    image and the index is -1), the same holds after an upload, after an
    edit that succeeds or fails, after undo and after redo, each run against
    the render of the state it starts from; and undo and redo then never
    read an item that is not there. *)
Theorem history_stays_consistent (w : Ambient)
    (env_API_KEY : option string) (remote : GeminiApi.Remote) (s : State) :
  consistent s ->
  (forall fileName result : string,
      consistent (handleImageSelected w s fileName result s))
  /\ (forall img txt : string,
         consistent (fst (handleExternalEdit w env_API_KEY remote s img txt s)))
  /\ (fst (handleUndo w s s) = Normal tt
      /\ consistent (snd (handleUndo w s s)))
  /\ (fst (handleRedo w s s) = Normal tt
      /\ consistent (snd (handleRedo w s s))).
Proof.
  intros Hcons. pose proof (consistent_range s Hcons) as Hr.
  split; [| split; [| split]].
  - intros fileName result. unfold consistent. reflexivity.
  - intros img txt. unfold handleExternalEdit.
    apply settled_edit_consistent; try reflexivity. exact Hcons.
  - destruct (Z_le_gt_dec (historyIndex s) 0) as [Hle | Hgt].
    + rewrite (undo_guard w s Hle). split; [reflexivity | exact Hcons].
    + destruct (undo_steps_back w s) as [item [s' [Hn [-> [Hi [Hc Hh]]]]]];
        [lia |].
      split; [reflexivity |]. cbn [snd]. unfold consistent.
      rewrite Hh, Hi, (index_of_nth_error _ _ item) by (lia || exact Hn).
      exact Hc.
  - destruct (Z_le_gt_dec (Z.of_nat (List.length (history s)) - 1)
                (historyIndex s)) as [Hle | Hgt].
    + rewrite (redo_guard w s Hle). split; [reflexivity | exact Hcons].
    + destruct (redo_steps_forward w s) as [item [s' [Hn [-> [Hi [Hc Hh]]]]]];
        [lia |].
      split; [reflexivity |]. cbn [snd]. unfold consistent.
      rewrite Hh, Hi, (index_of_nth_error _ _ item) by (lia || exact Hn).
      exact Hc.
Qed.

End HistoryInvariant.

Section HistoryRoundTrips.
Import Js App.
Local Open Scope string_scope.
Local Open Scope Z_scope.

Lemma history_stays_consistent_witness :
  let w := mkAmbient "k3x9" "a1b2c3d" 1700000000000 "12:00" in
  let s := handleImageSelected w initial "a.jpg"
             "data:image/jpeg;base64,AAAA" initial in
  consistent s
  /\ consistent (fst (handleExternalEdit w (Some "key") (remote_image "BBBB")
                        s "data:image/jpeg;base64,AAAA" "remove background"
                        s))
  /\ fst (handleUndo w s s) = Normal tt.
Proof.
  intros w s.
  assert (H : consistent s) by reflexivity.
  destruct (history_stays_consistent w (Some "key") (remote_image "BBBB") s H)
    as [_ [Hedit [[Hundo _] _]]].
  split; [exact H |]. split; [apply Hedit | exact Hundo].
Defined.

(** Undo and redo undo each other. *)
Lemma undo_round_trip_aux (w1 w2 : Ambient) (s : State) :
  consistent s ->
  (0 < historyIndex s ->
   let s1 := snd (handleUndo w1 s s) in
   let s2 := snd (handleRedo w2 s1 s1) in
   history s2 = history s /\ historyIndex s2 = historyIndex s
   /\ currentImage s2 = currentImage s)
  /\ (historyIndex s < Z.of_nat (List.length (history s)) - 1 ->
      let s1 := snd (handleRedo w1 s s) in
      let s2 := snd (handleUndo w2 s1 s1) in
      history s2 = history s /\ historyIndex s2 = historyIndex s
      /\ currentImage s2 = currentImage s).
Proof.
  intros Hcons. pose proof (consistent_range s Hcons) as Hr.
  unfold consistent in Hcons. split.
  - intros Hpos.
    destruct (index (history s) (historyIndex s)) as [item |] eqn:E;
      [| destruct Hcons as [_ [Hi _]]; lia].
    apply index_Some_range in E. destruct E as [_ En].
    destruct (undo_steps_back w1 s) as [i1 [s1 [_ [-> [Hi1 [_ Hh1]]]]]];
      [lia |]. cbn [snd].
    destruct (redo_steps_forward w2 s1) as [i2 [s2 [Hn2 [-> [Hi2 [Hc2 Hh2]]]]]];
      [rewrite Hh1, Hi1; lia |]. cbn [snd].
    rewrite Hh1, Hi1 in Hn2.
    replace (historyIndex s - 1 + 1) with (historyIndex s) in Hn2 by lia.
    assert (i2 = item) by congruence. subst i2.
    repeat split; [congruence | lia | congruence].
  - intros Hlast.
    destruct (redo_steps_forward w1 s) as [i1 [s1 [_ [-> [Hi1 [_ Hh1]]]]]];
      [lia |]. cbn [snd].
    destruct (index (history s) (historyIndex s)) as [item |] eqn:E;
      [| destruct Hcons as [Hh _]; rewrite Hh in Hlast; cbn in Hlast; lia].
    apply index_Some_range in E. destruct E as [Hin En].
    destruct (undo_steps_back w2 s1) as [i2 [s2 [Hn2 [-> [Hi2 [Hc2 Hh2]]]]]];
      [rewrite Hh1, Hi1; lia |]. cbn [snd].
    rewrite Hh1, Hi1 in Hn2.
    replace (historyIndex s + 1 - 1) with (historyIndex s) in Hn2 by lia.
    assert (i2 = item) by congruence. subst i2.
    repeat split; [congruence | lia | congruence].
Qed.

(** X19.  With the current image and the history in step, undo followed by
    redo (when the index is above 0), and redo followed by undo (when the
    index is below the last position), bring back the same history, the same
    index and the same current image. *)
Theorem undo_redo_round_trip (w1 w2 : Ambient) (s : State) :
  consistent s ->
  (0 < historyIndex s ->
   let s1 := snd (handleUndo w1 s s) in
   let s2 := snd (handleRedo w2 s1 s1) in
   history s2 = history s /\ historyIndex s2 = historyIndex s
   /\ currentImage s2 = currentImage s)
  /\ (historyIndex s < Z.of_nat (List.length (history s)) - 1 ->
      let s1 := snd (handleRedo w1 s s) in
      let s2 := snd (handleUndo w2 s1 s1) in
      history s2 = history s /\ historyIndex s2 = historyIndex s
      /\ currentImage s2 = currentImage s).
Proof.
  intros Hcons.
  destruct (undo_round_trip_aux w1 w2 s Hcons) as [Hundo Hredo].
  split; [exact Hundo | exact Hredo].
Qed.

Lemma undo_redo_round_trip_witness :
  let w := mkAmbient "k3x9" "a1b2c3d" 1700000000000 "12:00" in
  let s0 := handleImageSelected w initial "a.jpg"
              "data:image/jpeg;base64,AAAA" initial in
  let s := fst (handleExternalEdit_settled w s0 "remove background"
                  (Normal "data:image/png;base64,BBBB") s0) in
  let s1 := snd (handleUndo w s s) in
  let s2 := snd (handleRedo w s1 s1) in
  history s2 = history s /\ historyIndex s2 = 1
  /\ currentImage s2 = Some "data:image/png;base64,BBBB"%string.
Proof.
  intros w s0 s s1 s2.
  assert (H : consistent s) by reflexivity.
  destruct (undo_redo_round_trip w w s H) as [Hur _].
  apply Hur. reflexivity.
Defined.

(** X20.  With the current image and the history in step and an image
    loaded, undo after a successful edit shows the image that was current
    before the edit, at the index it had, and redo after that shows the
    edited image again. *)
Theorem undo_after_edit (w1 w2 w3 : Ambient) (txt enhancedImage : string)
    (s : State) :
  consistent s ->
  history s <> [] ->
  let s1 := fst (handleExternalEdit_settled w1 s txt (Normal enhancedImage) s)
  in
  let s2 := snd (handleUndo w2 s1 s1) in
  let s3 := snd (handleRedo w3 s2 s2) in
  currentImage s1 = Some enhancedImage
  /\ currentImage s2 = currentImage s
  /\ historyIndex s2 = historyIndex s
  /\ currentImage s3 = Some enhancedImage
  /\ historyIndex s3 = historyIndex s + 1.
Proof.
  intros Hcons Hne s1.
  pose proof (consistent_range s Hcons) as Hr.
  assert (C1 : consistent s1)
    by (apply settled_edit_consistent; auto).
  destruct (edit_truncates_redo w1 txt enhancedImage s Hr)
    as [Hh1 [Hi1 [Hlast Hc1]]].
  fold s1 in Hh1, Hi1, Hlast, Hc1.
  unfold consistent in Hcons.
  destruct (index (history s) (historyIndex s)) as [item |] eqn:E;
    [| destruct Hcons as [Hh _]; contradiction].
  apply index_Some_range in E. destruct E as [Hin En].
  destruct (undo_round_trip_aux w2 w3 s1 C1) as [Hback _].
  assert (Hpos : 0 < historyIndex s1) by lia. specialize (Hback Hpos).
  cbv zeta in Hback. destruct Hback as [Hh3 [Hi3 Hc3]].
  destruct (undo_steps_back w2 s1) as [i2 [s2 [Hn2 [E2 [Hi2 [Hc2 Hh2]]]]]];
    [lia |].
  rewrite E2 in *. cbn [snd] in *.
  split; [exact Hc1 |].
  rewrite Hh1, Hi1 in Hn2.
  replace (historyIndex s + 1 - 1) with (historyIndex s) in Hn2 by lia.
  rewrite nth_error_app1 in Hn2 by (rewrite length_firstn; lia).
  rewrite nth_error_firstn in Hn2.
  destruct (Z.to_nat (historyIndex s) <? Z.to_nat (historyIndex s + 1))%nat
    eqn:Elt; [| apply Nat.ltb_ge in Elt; lia].
  assert (i2 = item) by congruence. subst i2.
  repeat split; [congruence | lia | congruence | lia].
Qed.

Lemma undo_after_edit_witness :
  let w := mkAmbient "k3x9" "a1b2c3d" 1700000000000 "12:00" in
  let s := handleImageSelected w initial "a.jpg"
             "data:image/jpeg;base64,AAAA" initial in
  let s1 := fst (handleExternalEdit_settled w s "remove background"
                   (Normal "data:image/png;base64,BBBB") s) in
  let s2 := snd (handleUndo w s1 s1) in
  currentImage s2 = Some "data:image/jpeg;base64,AAAA" /\ historyIndex s2 = 0.
Proof.
  intros w s s1 s2.
  assert (H : consistent s) by reflexivity.
  assert (Hne : history s <> []) by discriminate.
  destruct (undo_after_edit w w w "remove background"
              "data:image/png;base64,BBBB" s H Hne) as [_ [H2 [H3 _]]].
  split; [exact H2 | exact H3].
Defined.

Lemma addLog_bounded (w : Ambient) (message : string) (type : LogType)
    (s : State) :
  logs_bounded (addLog w message type s).
Proof.
  unfold logs_bounded, addLog. cbn [logs setLogs].
  rewrite length_firstn. apply Nat.le_min_l.
Qed.

(** X21.  The log keeps at most fifty lines: a panel within the bound stays
    within it through upload, edit (successful or failed), undo and redo,
    whatever render the handler was made in; the upload and the edit leave it
    within the bound even from a panel that was over it, their own line
    first. *)
Theorem logs_stay_bounded (w : Ambient) (render s : State)
    (fileName result txt : string) (outcome : completion string) :
  logs_bounded (handleImageSelected w render fileName result s)
  /\ logs_bounded (fst (handleExternalEdit_settled w render txt outcome s))
  /\ (exists line,
         hd_error (logs (fst (handleExternalEdit_settled w render txt outcome
                                s))) = Some line
         /\ log_type line = match outcome with
                            | Normal _ => success
                            | Throw _ => error
                            end)
  /\ (logs_bounded s ->
      logs_bounded (snd (handleUndo w render s))
      /\ logs_bounded (snd (handleRedo w render s))).
Proof.
  split; [| split; [| split]].
  - apply addLog_bounded.
  - destruct outcome as [image | e]; cbn [handleExternalEdit_settled fst].
    + unfold logs_bounded. cbn [logs setAppState].
      apply addLog_bounded.
    + unfold logs_bounded. cbn [logs setAppState setTimeout].
      apply addLog_bounded.
  - destruct outcome as [image | e]; eexists; split; reflexivity.
  - intros Hs. split.
    + unfold handleUndo. destruct (0 <? historyIndex render); [| exact Hs].
      destruct (index (history render) (historyIndex render - 1));
        cbn [snd]; [apply addLog_bounded | exact Hs].
    + unfold handleRedo.
      destruct (historyIndex render
                <? Z.of_nat (List.length (history render)) - 1);
        [| exact Hs].
      destruct (index (history render) (historyIndex render + 1));
        cbn [snd]; [apply addLog_bounded | exact Hs].
Qed.

Lemma settled_success_fields (w : Ambient) (render s : State)
    (txt image : string) :
  let s' := fst (handleExternalEdit_settled w render txt (Normal image) s) in
  history s'
  = (slice0 (history s) (historyIndex render + 1)
       ++ [mkItem (random_id w) image txt (now w)])%list
  /\ historyIndex s' = historyIndex s + 1
  /\ currentImage s' = Some image.
Proof.
  repeat split.
Qed.

(** X22.  Two successful edits applied through one and the same render (the
    tool handler of a live session is made once and keeps calling the
    [handleExternalEdit] of that render): the second edit cuts the history at
    the index of that render, so the item of the first edit is gone, while
    the index is counted up twice; the index then points past the last item
    and the current image is no item of the history at the index. *)
Theorem edits_through_one_render (w1 w2 : Ambient) (txt1 txt2 B C : string)
    (s : State) :
  consistent s ->
  let s1 := fst (handleExternalEdit_settled w1 s txt1 (Normal B) s) in
  let s2 := fst (handleExternalEdit_settled w2 s txt2 (Normal C) s1) in
  history s2
  = (firstn (Z.to_nat (historyIndex s + 1)) (history s)
       ++ [mkItem (random_id w2) C txt2 (now w2)])%list
  /\ historyIndex s2 = historyIndex s + 2
  /\ historyIndex s2 = Z.of_nat (List.length (history s2))
  /\ currentImage s2 = Some C
  /\ index (history s2) (historyIndex s2) = None.
Proof.
  intros Hcons s1 s2. pose proof (consistent_range s Hcons) as Hr.
  destruct (edit_truncates_redo w1 txt1 B s Hr) as [Hh1 [Hi1 _]].
  fold s1 in Hh1, Hi1.
  assert (Hh2 : history s2
                = (firstn (Z.to_nat (historyIndex s + 1)) (history s)
                     ++ [mkItem (random_id w2) C txt2 (now w2)])%list).
  { unfold s2.
    destruct (settled_success_fields w2 s s1 txt2 C) as [-> _].
    rewrite Hh1.
    rewrite slice0_firstn
      by (rewrite length_app, length_firstn; cbn [List.length]; lia).
    rewrite firstn_app, firstn_firstn, Nat.min_id.
    rewrite length_firstn.
    replace (Z.to_nat (historyIndex s + 1)
             - Nat.min (Z.to_nat (historyIndex s + 1))
                 (List.length (history s)))%nat with 0%nat by lia.
    cbn [firstn]. rewrite app_nil_r. reflexivity. }
  assert (Hi2 : historyIndex s2 = historyIndex s + 2).
  { unfold s2.
    destruct (settled_success_fields w2 s s1 txt2 C) as [_ [-> _]].
    rewrite Hi1. lia. }
  assert (Hlen : Z.of_nat (List.length (history s2)) = historyIndex s + 2).
  { rewrite Hh2, length_app, length_firstn. cbn [List.length]. lia. }
  split; [exact Hh2 |]. split; [exact Hi2 |]. split; [lia |].
  split; [apply (settled_success_fields w2 s s1 txt2 C) |].
  unfold index. rewrite Hi2.
  destruct (historyIndex s + 2 <? 0) eqn:E; [reflexivity |].
  apply nth_error_None. lia.
Qed.

Lemma edits_through_one_render_witness :
  let w := mkAmbient "k3x9" "a1b2c3d" 1700000000000 "12:00" in
  let s := handleImageSelected w initial "a.jpg" "A" initial in
  let s1 := fst (handleExternalEdit_settled w s "one" (Normal "B") s) in
  let s2 := fst (handleExternalEdit_settled w s "two" (Normal "C") s1) in
  map url (history s2) = ["A"; "C"] /\ historyIndex s2 = 2.
Proof.
  intros w s s1 s2.
  assert (H : consistent s) by reflexivity.
  destruct (edits_through_one_render w w "one" "two" "B" "C" s H)
    as [Hh [Hi _]].
  fold s1 in Hh, Hi. fold s2 in Hh, Hi.
  rewrite Hh. split; [reflexivity | exact Hi].
Defined.

End HistoryRoundTrips.
